(** * CasADi: the MX function tape (casadi/fx/mx_function_internal.cpp)

    A shallow embedding of [MXFunctionInternal]: construction from the
    input and output expressions, [init] (topological sort and tape
    build), [evaluate] (forward and adjoint sweeps, lifting callback),
    the symbolic forward differentiator [jac] / [adFwd], [print] and
    [clone].

    Conventions.
    - Expression nodes live in a heap addressed by natural numbers; an
      [MX] is a shared handle, either null or the address of a node.
    - A C++ [int] is carried as a [Z] or, for a counter that is only ever
      compared with the size of a vector held in memory, as a [nat].
    - A [double] is a primitive binary64 float.  The tape code only copies
      and zero-fills doubles; arithmetic on them lives in the nodes' own
      [evaluate] methods.
    - Every operation that can throw, or that has undefined behaviour in
      C++, returns an [Outcome]. *)

From Stdlib Require Import ZArith String Ascii Lia DecimalString PrimFloat.
From stdpp Require Import base option list.

Local Open Scope Z_scope.

(** ** Outcomes *)

Inductive Exn : Type :=
| CasadiException (msg : string)   (* throw CasadiException(ss.str()) *)
| CasadiAssertion (msg : string)   (* casadi_assert, casadi_assert_message *)
| OutOfRange.                      (* std::out_of_range, from vector::at *)

Inductive Outcome (A : Type) : Type :=
| Ok (a : A)       (* normal completion *)
| Throw (e : Exn)  (* an exception leaves the function *)
| Undefined        (* undefined behaviour: null dereference, operator[] out of range *)
| Diverges.        (* the loop does not terminate *)

Arguments Ok {A} a.
Arguments Throw {A} e.
Arguments Undefined {A}.
Arguments Diverges {A}.

Definition bind {A B : Type} (m : Outcome A) (k : A -> Outcome B) : Outcome B :=
  match m with
  | Ok a => k a
  | Throw e => Throw e
  | Undefined => Undefined
  | Diverges => Diverges
  end.

Notation "x <- m ;; k" := (bind m (fun x => k))
  (at level 100, m at next level, right associativity).

(** A [for] loop over the elements of [l], threading the state [s]. *)
Fixpoint forM {A S : Type} (f : A -> S -> Outcome S) (l : list A) (s : S) : Outcome S :=
  match l with
  | [] => Ok s
  | a :: l' => s' <- f a s ;; forM f l' s'
  end.

(** [for (int i = 0; i < n; ++i)]: no iteration when [n <= 0]. *)
Definition upto (n : Z) : list nat := seq 0 (Z.to_nat n).

(** [v[i]] on a [std::vector]: unchecked. *)
Definition vec_get {A : Type} (v : list A) (i : Z) : Outcome A :=
  if i <? 0 then Undefined
  else match v !! Z.to_nat i with
       | Some a => Ok a
       | None => Undefined
       end.

(** [v.at(i)]: checked, throws [std::out_of_range]. *)
Definition vec_at {A : Type} (v : list A) (i : Z) : Outcome A :=
  if i <? 0 then Throw OutOfRange
  else match v !! Z.to_nat i with
       | Some a => Ok a
       | None => Throw OutOfRange
       end.

(** ** Data model *)

Definition double : Type := float.

(** The sparsity pattern is consumed as an opaque capability: row count,
    column count, element count ([numel]) and number of stored entries
    ([size]). *)
Record CRSSparsity : Type := mkSparsity {
  sp_size1 : Z;
  sp_size2 : Z;
  sp_numel : Z;
  sp_size : nat
}.

(** [Matrix<double>]: a pattern and the vector of its stored entries. *)
Record DMatrix : Type := mkMatrix {
  m_sparsity : CRSSparsity;
  m_data : list double
}.

(** [Matrix<double>(sp)]: all stored entries zero. *)
Definition Matrix_of (sp : CRSSparsity) : DMatrix :=
  mkMatrix sp (replicate (sp_size sp) 0%float).

(** [FunctionIO]: a value with its forward and adjoint direction buffers. *)
Record FunctionIO : Type := mkIO {
  data : DMatrix;
  dataF : list DMatrix;
  dataA : list DMatrix
}.

(** A shared handle on an expression node. *)
Abbreviation MX := (option nat).

(** A tape entry ([AlgEl]).  The raw views [input], [output], [fwdSeed],
    [fwdSens], [adjSeed] and [adjSens] point into the buffers of the
    entries named by [ch] and of the entry itself; they are addressed by
    index here. *)
Record AlgEl : Type := mkAlgEl {
  mx : MX;
  val : FunctionIO;
  ch : list Z
}.

(** An expression node.  The virtual methods [isSymbolic], [isConstant]
    and [isNonLinear] are fields; [evaluate] receives the index of the
    entry it runs for and the direction counts, and works on the buffers
    of the tape through the views built by [init]. *)
Record MXNode : Type := mkNode {
  isSymbolic : bool;
  isConstant : bool;
  isNonLinear : bool;
  sparsity : CRSSparsity;
  dep : list MX;
  temp : Z;
  node_evaluate : nat -> Z -> Z -> list AlgEl -> list AlgEl
}.

Abbreviation Heap := (list MXNode).

(** [m->...]: dereferencing a handle. *)
Definition deref (h : Heap) (m : MX) : Outcome MXNode :=
  match m with
  | None => Undefined
  | Some p => match h !! p with
              | Some n => Ok n
              | None => Undefined
              end
  end.

Definition isNull (m : MX) : bool :=
  match m with None => true | Some _ => false end.

Definition set_temp (t : Z) (n : MXNode) : MXNode :=
  mkNode (isSymbolic n) (isConstant n) (isNonLinear n) (sparsity n) (dep n) t
         (node_evaluate n).

(** [LiftingFunction], a pointer to a function of [(double* v, int n,
    void* user_data)]: the callback receives the buffer by pointer and may
    write to it; it is modelled as returning the buffer it leaves. *)
Definition LiftingFunction : Type := list double -> Z -> Z -> list double.

(** Calls that leave the tape code, in the order they happen. *)
Inductive Event : Type :=
| EvEvaluate (el : nat) (nfdir nadir : Z)            (* it->mx->evaluate(...) *)
| EvLift (el : nat) (v : list double) (n : Z) (ud : Z) (* liftfun_(output, size, ud) *)
| EvSetInput (ind : nat)
| EvSetFwdSeed (ind dir : nat)
| EvGetOutput (ind : nat)
| EvGetFwdSens (ind dir : nat)
| EvClearAdj (el dir : nat)
| EvSetAdjSeed (ind dir : nat)
| EvGetAdjSens (ind dir : nat).

(** [MXFunctionInternal], with the members of its base classes that the
    code reads: the ports [input_] and [output_], the direction counts
    [nfdir_] and [nadir_], and the flag behind [isInit()]. *)
Record MXFunctionInternal : Type := mkFun {
  inputv : list MX;
  outputv : list MX;
  input_ : list FunctionIO;
  output_ : list FunctionIO;
  nfdir_ : nat;
  nadir_ : nat;
  is_init_ : bool;
  liftfun_ : option LiftingFunction;
  liftfun_ud_ : Z;
  inputv_ind : list Z;
  outputv_ind : list Z;
  alg : list AlgEl;
  trace : list Event   (* ghost: the calls made so far *)
}.

Definition isInit (f : MXFunctionInternal) : bool := is_init_ f.

(** ** Construction *)

Definition endl : string := String (ascii_of_nat 10) EmptyString.

Definition show_int (i : nat) : string := NilEmpty.string_of_uint (Nat.to_uint i).

Definition null_message (i : nat) : string :=
  ("MXFunctionInternal::MXFunctionInternal: MXfunction input arguments cannot be null."
   ++ endl ++ "Argument #" ++ show_int i ++ " is null." ++ endl)%string.

Definition not_symbolic_message (i : nat) : string :=
  ("MXFunctionInternal::MXFunctionInternal: MXfunction input arguments must be purely symbolic."
   ++ endl ++ "Argument #" ++ show_int i ++ " is not symbolic." ++ endl)%string.

(** The validation loop of the constructor, from argument number [i]. *)
Fixpoint check_inputs (h : Heap) (i : nat) (l : list MX) : Outcome unit :=
  match l with
  | [] => Ok tt
  | m :: l' =>
      if isNull m then Throw (CasadiException (null_message i))
      else
        n <- deref h m ;;
        if negb (isSymbolic n) then Throw (CasadiException (not_symbolic_message i))
        else check_inputs h (S i) l'
  end.

(** [input(i) = DMatrix(inputv[i].sparsity())], for each port in turn. *)
Fixpoint alloc_ports (h : Heap) (l : list MX) : Outcome (list FunctionIO) :=
  match l with
  | [] => Ok []
  | m :: l' =>
      n <- deref h m ;;
      ps <- alloc_ports h l' ;;
      Ok (mkIO (Matrix_of (sparsity n)) [] [] :: ps)
  end.

(** The direction counts are options of the base class; their default. *)
Definition default_ndir : nat := 1%nat.

Definition construct (h : Heap) (inputv_ outputv_ : list MX) : Outcome MXFunctionInternal :=
  _ <- check_inputs h 0 inputv_ ;;
  ins <- alloc_ports h inputv_ ;;
  outs <- alloc_ports h outputv_ ;;
  Ok (mkFun inputv_ outputv_ ins outs default_ndir default_ndir false None 0 [] [] [] []).

(** ** Initialisation: topological sort and tape build *)

Fixpoint mapM {A B : Type} (f : A -> Outcome B) (l : list A) : Outcome (list B) :=
  match l with
  | [] => Ok []
  | a :: l' => b <- f a ;; bs <- mapM f l' ;; Ok (b :: bs)
  end.

(** The marker of the traversal is the node's [temp] field: neutral (0)
    means not yet appended.  A handle that points outside the heap cannot
    be followed and is never pushed. *)
Definition visited (h : Heap) (p : nat) : bool :=
  match h !! p with
  | Some n => negb (temp n =? 0)
  | None => true
  end.

Fixpoint first_pending (h : Heap) (ds : list MX) : option nat :=
  match ds with
  | [] => None
  | None :: ds' => first_pending h ds'
  | Some q :: ds' => if visited h q then first_pending h ds' else Some q
  end.

(** Modelled from the spec: [sort_depth_first] is declared with the base
    class [XFunctionInternal], outside the sources.  "An iterative,
    explicit-stack depth-first traversal.  A node is appended to the result
    only once all its dependencies are already appended; an
    in-progress/visited marker guarantees a shared node is processed
    exactly once regardless of parent count."  The head of [s] is the top
    of the stack; a node on top with a dependency that is not yet appended
    has the first such dependency pushed over it; one unit of [fuel] pays
    for one turn of the loop. *)
Fixpoint sort_loop (fuel : nat) (h : Heap) (s : list nat) (nodes : list nat)
  : Outcome (Heap * list nat) :=
  match s with
  | [] => Ok (h, nodes)
  | t :: s' =>
      match fuel with
      | O => Diverges
      | S fuel' =>
          match h !! t with
          | None => Undefined
          | Some n =>
              if negb (temp n =? 0) then sort_loop fuel' h s' nodes
              else match first_pending h (dep n) with
                   | Some d => sort_loop fuel' h (d :: s) nodes
                   | None => sort_loop fuel' (alter (set_temp 1) t h) s' (nodes ++ [t])
                   end
          end
      end
  end.

(** [for (i...) nodes[i]->temp = 0]. *)
Definition reset_temp (nodes : list nat) (h : Heap) : Heap :=
  foldl (fun h' p => alter (set_temp 0) p h') h nodes.

(** Every turn of the loop either pushes a node that is then appended
    before it is popped, or pops; [2 * length h + length s] turns suffice
    on an acyclic heap (see [sort_loop_terminates]). *)
Definition sort_fuel (h : Heap) (s : list nat) : nat :=
  (2 * length h + length s)%nat.

(** Modelled from the spec: the transient field "is reset to a neutral
    sentinel after use". *)
Definition sort_depth_first (h : Heap) (s : list nat) : Outcome (Heap * list nat) :=
  r <- sort_loop (sort_fuel h s) h s [] ;;
  Ok (reset_temp r.2 r.1, r.2).

(** [for (i...) nodes[i]->temp = i], from position [i]. *)
Fixpoint assign_order (i : nat) (nodes : list nat) (h : Heap) : Heap :=
  match nodes with
  | [] => h
  | p :: nodes' => assign_order (S i) nodes' (alter (set_temp (Z.of_nat i)) p h)
  end.

(** [m->temp]. *)
Definition temp_of (h : Heap) (m : MX) : Outcome Z :=
  n <- deref h m ;; Ok (temp n).

(** [it->ch[i] = m->dep(i).isNull() ? -1 : m->dep(i)->temp]. *)
Definition resolve_dep (h : Heap) (d : MX) : Outcome Z :=
  if isNull d then Ok (-1) else temp_of h d.

(** Modelled from the spec: [FunctionIO::init] is outside the sources; it
    leaves "zero-initialized tangent/sensitivity buffers sized to the
    node's element count". *)
Definition FunctionIO_init (sp : CRSSparsity) (nf na : nat) : FunctionIO :=
  mkIO (Matrix_of sp) (replicate nf (Matrix_of sp)) (replicate na (Matrix_of sp)).

(** The first half of the body of the tape-building loop, for the node
    at address [p]: the node, its buffers and its dependency slots. *)
Definition build_entry (nf na : nat) (h : Heap) (p : nat) : Outcome AlgEl :=
  m <- deref h (Some p) ;;
  c <- mapM (resolve_dep h) (dep m) ;;
  Ok (mkAlgEl (Some p) (FunctionIO_init (sparsity m) nf na) c).

(** A default-constructed [AlgEl], as [alg.resize(nodes.size())] leaves
    it: a null handle and empty buffers. *)
Definition AlgEl_default : AlgEl :=
  mkAlgEl None (mkIO (mkMatrix (mkSparsity 0 0 0 0) []) [] []) [].

(** [&m[0]]: the address of the first stored entry of a buffer, which
    must have one. *)
Definition raw_view (m : DMatrix) : Outcome unit :=
  _ <- vec_get (m_data m) 0 ;; Ok tt.

(** The raw views taken on the buffers of one entry: [&val.data[0]], then
    [&val.dataF[d][0]] for every forward direction and [&val.dataA[d][0]]
    for every adjoint direction. *)
Definition raw_views (nf na : nat) (io : FunctionIO) : Outcome unit :=
  _ <- raw_view (data io) ;;
  _ <- forM (fun d _ => m <- vec_get (dataF io) (Z.of_nat d) ;; raw_view m) (seq 0 nf) tt ;;
  forM (fun d _ => m <- vec_get (dataA io) (Z.of_nat d) ;; raw_view m) (seq 0 na) tt.

(** The rest of the body of the tape-building loop, for the entry [e]
    written to [alg[ii]]: the views [input], [fwdSeed] and [adjSens] on
    the buffers of [alg[ch[i]]] for every resolved dependency slot, then
    the views [output], [fwdSens] and [adjSeed] on the entry's own
    buffers.  The views are addressed by index afterwards; what is kept
    of them here is that taking them is defined. *)
Definition link_entry (nf na : nat) (a : list AlgEl) (ii : nat) (e : AlgEl)
  : Outcome (list AlgEl) :=
  let a1 := <[ii := e]> a in
  _ <- forM (fun c _ => if 0 <=? c then t <- vec_get a1 c ;; raw_views nf na (val t)
                        else Ok tt)
            (ch e) tt ;;
  _ <- raw_views nf na (val e) ;;
  Ok a1.

(** One turn of the tape-building loop, for [nodes[ii]]. *)
Definition build_step (nf na : nat) (h : Heap) (nodes : list nat) (ii : nat)
  (a : list AlgEl) : Outcome (list AlgEl) :=
  p <- vec_get nodes (Z.of_nat ii) ;;
  e <- build_entry nf na h p ;;
  link_entry nf na a ii e.

(** [alg.resize(nodes.size())], then the loop over [ii]. *)
Definition build_tape (nf na : nat) (h : Heap) (nodes : list nat) : Outcome (list AlgEl) :=
  forM (build_step nf na h nodes) (seq 0 (length nodes))
       (replicate (length nodes) AlgEl_default).

(** Modelled from the spec: [XFunctionInternal::init] is outside the
    sources.  It records that the instance is initialised and sizes the
    direction buffers of the ports to the configured counts. *)
Definition base_init (f : MXFunctionInternal) : MXFunctionInternal :=
  let port io := FunctionIO_init (m_sparsity (data io)) (nfdir_ f) (nadir_ f) in
  mkFun (inputv f) (outputv f) (port <$> input_ f) (port <$> output_ f)
        (nfdir_ f) (nadir_ f) true (liftfun_ f) (liftfun_ud_ f)
        (inputv_ind f) (outputv_ind f) (alg f) (trace f).

Definition set_tape (f : MXFunctionInternal) (iv ov : list Z) (a : list AlgEl)
  : MXFunctionInternal :=
  mkFun (inputv f) (outputv f) (input_ f) (output_ f) (nfdir_ f) (nadir_ f)
        (is_init_ f) (liftfun_ f) (liftfun_ud_ f) iv ov a (trace f).

(** The stack handed to the sort: the non-null inputs, then the non-null
    outputs, the last one pushed on top. *)
Definition root_stack (f : MXFunctionInternal) : list nat :=
  rev (omap id (inputv f ++ outputv f)).

Definition init (h : Heap) (f : MXFunctionInternal) : Outcome (Heap * MXFunctionInternal) :=
  let f0 := base_init f in
  r <- sort_depth_first h (root_stack f0) ;;
  let nodes := r.2 in
  let h1 := assign_order 0 nodes r.1 in
  iv <- mapM (temp_of h1) (inputv f0) ;;
  ov <- mapM (temp_of h1) (outputv f0) ;;
  a <- build_tape (nfdir_ f0) (nadir_ f0) h1 nodes ;;
  Ok (reset_temp nodes h1, set_tape f0 iv ov a).

(** ** Evaluation *)

Definition set_alg (f : MXFunctionInternal) (a : list AlgEl) : MXFunctionInternal :=
  mkFun (inputv f) (outputv f) (input_ f) (output_ f) (nfdir_ f) (nadir_ f)
        (is_init_ f) (liftfun_ f) (liftfun_ud_ f) (inputv_ind f) (outputv_ind f)
        a (trace f).

Definition set_input_ (f : MXFunctionInternal) (ps : list FunctionIO) : MXFunctionInternal :=
  mkFun (inputv f) (outputv f) ps (output_ f) (nfdir_ f) (nadir_ f)
        (is_init_ f) (liftfun_ f) (liftfun_ud_ f) (inputv_ind f) (outputv_ind f)
        (alg f) (trace f).

Definition set_output_ (f : MXFunctionInternal) (ps : list FunctionIO) : MXFunctionInternal :=
  mkFun (inputv f) (outputv f) (input_ f) ps (nfdir_ f) (nadir_ f)
        (is_init_ f) (liftfun_ f) (liftfun_ud_ f) (inputv_ind f) (outputv_ind f)
        (alg f) (trace f).

Definition log (ev : Event) (f : MXFunctionInternal) : MXFunctionInternal :=
  mkFun (inputv f) (outputv f) (input_ f) (output_ f) (nfdir_ f) (nadir_ f)
        (is_init_ f) (liftfun_ f) (liftfun_ud_ f) (inputv_ind f) (outputv_ind f)
        (alg f) (trace f ++ [ev]).

(** [setLiftingFunction(liftfun, user_data)]; a null function pointer is
    [None]. *)
Definition setLiftingFunction (liftfun : option LiftingFunction) (user_data : Z)
  (f : MXFunctionInternal) : MXFunctionInternal :=
  mkFun (inputv f) (outputv f) (input_ f) (output_ f) (nfdir_ f) (nadir_ f)
        (is_init_ f) liftfun user_data (inputv_ind f) (outputv_ind f)
        (alg f) (trace f).

(** Modelled from the spec: [Matrix<double>] is declared outside the
    sources ("the dense numeric container ... consumed via get/set against
    a declared sparsity").  [dst.set(src)] and [src.get(dst)] copy the
    stored entries into [dst], which keeps its pattern; [fill] overwrites
    them. *)
Definition set_m (v : list double) (m : DMatrix) : DMatrix := mkMatrix (m_sparsity m) v.

Definition fill_m (x : double) (m : DMatrix) : DMatrix :=
  mkMatrix (m_sparsity m) (replicate (length (m_data m)) x).

Definition with_data (g : DMatrix -> DMatrix) (io : FunctionIO) : FunctionIO :=
  mkIO (g (data io)) (dataF io) (dataA io).

Definition with_dataF (dir : nat) (g : DMatrix -> DMatrix) (io : FunctionIO) : FunctionIO :=
  mkIO (data io) (alter g dir (dataF io)) (dataA io).

Definition with_dataA (dir : nat) (g : DMatrix -> DMatrix) (io : FunctionIO) : FunctionIO :=
  mkIO (data io) (dataF io) (alter g dir (dataA io)).

Definition with_val (g : FunctionIO -> FunctionIO) (e : AlgEl) : AlgEl :=
  mkAlgEl (mx e) (g (val e)) (ch e).

(** The buffers of entry [i]: its value, and its tangent and sensitivity
    for direction [d]. *)
Definition primal (a : list AlgEl) (i : nat) : list double :=
  from_option (fun e => m_data (data (val e))) [] (a !! i).

Definition tangent (a : list AlgEl) (i d : nat) : list double :=
  from_option (fun e => from_option m_data [] (dataF (val e) !! d)) [] (a !! i).

Definition adjoint (a : list AlgEl) (i d : nat) : list double :=
  from_option (fun e => from_option m_data [] (dataA (val e) !! d)) [] (a !! i).

(** [alg[x_ind[ind]]]: the tape slot a port is mapped to. *)
Definition mapped_slot (x_ind : list Z) (a : list AlgEl) (ind : nat) : Outcome (nat * AlgEl) :=
  slot <- vec_get x_ind (Z.of_nat ind) ;;
  e <- vec_get a slot ;;
  Ok (Z.to_nat slot, e).

(** Modelled from the spec: the port accessors [input(i)], [output(i)],
    [fwdSeed(i,d)], [fwdSens(i,d)], [adjSeed(i,d)] and [adjSens(i,d)] are
    declared with the base class, outside the sources.  They give the
    "caller-visible storage" of port [i], for the value and for direction
    [d]; they are taken as bounds-checked reads of [input_] and [output_]. *)

(** [alg[inputv_ind[ind]].val.data.set(input(ind))]. *)
Definition pass_input (ind : nat) (f : MXFunctionInternal) : Outcome MXFunctionInternal :=
  se <- mapped_slot (inputv_ind f) (alg f) ind ;;
  p <- vec_at (input_ f) (Z.of_nat ind) ;;
  Ok (log (EvSetInput ind)
        (set_alg f (alter (with_val (with_data (set_m (m_data (data p))))) se.1 (alg f)))).

(** [alg[inputv_ind[ind]].val.dataF.at(dir).set(fwdSeed(ind,dir))]. *)
Definition pass_fwd_seed (dir ind : nat) (f : MXFunctionInternal) : Outcome MXFunctionInternal :=
  se <- mapped_slot (inputv_ind f) (alg f) ind ;;
  _ <- vec_at (dataF (val se.2)) (Z.of_nat dir) ;;
  p <- vec_at (input_ f) (Z.of_nat ind) ;;
  src <- vec_at (dataF p) (Z.of_nat dir) ;;
  Ok (log (EvSetFwdSeed ind dir)
        (set_alg f (alter (with_val (with_dataF dir (set_m (m_data src)))) se.1 (alg f)))).

(** One turn of the forward loop: evaluate the entry, then lift it. *)
Definition eval_forward (h : Heap) (nfdir : Z) (el : nat) (f : MXFunctionInternal)
  : Outcome MXFunctionInternal :=
  e <- vec_get (alg f) (Z.of_nat el) ;;
  n <- deref h (mx e) ;;
  let a := node_evaluate n el nfdir 0 (alg f) in
  let f1 := log (EvEvaluate el nfdir 0) (set_alg f a) in
  match liftfun_ f with
  | Some liftfun =>
      if isNonLinear n then
        e' <- vec_get a (Z.of_nat el) ;;
        let v := m_data (data (val e')) in
        let sz := Z.of_nat (sp_size (sparsity n)) in
        Ok (log (EvLift el v sz (liftfun_ud_ f))
              (set_alg f1 (alter (with_val (with_data (set_m (liftfun v sz (liftfun_ud_ f)))))
                             el a)))
      else Ok f1
  | None => Ok f1
  end.

(** [alg[outputv_ind[ind]].val.data.get(output(ind))]. *)
Definition get_output (ind : nat) (f : MXFunctionInternal) : Outcome MXFunctionInternal :=
  se <- mapped_slot (outputv_ind f) (alg f) ind ;;
  _ <- vec_at (output_ f) (Z.of_nat ind) ;;
  Ok (log (EvGetOutput ind)
        (set_output_ f (alter (with_data (set_m (m_data (data (val se.2))))) ind (output_ f)))).

(** [alg[outputv_ind[ind]].val.dataF.at(dir).get(fwdSens(ind,dir))]. *)
Definition get_fwd_sens (dir ind : nat) (f : MXFunctionInternal) : Outcome MXFunctionInternal :=
  se <- mapped_slot (outputv_ind f) (alg f) ind ;;
  src <- vec_at (dataF (val se.2)) (Z.of_nat dir) ;;
  p <- vec_at (output_ f) (Z.of_nat ind) ;;
  _ <- vec_at (dataF p) (Z.of_nat dir) ;;
  Ok (log (EvGetFwdSens ind dir)
        (set_output_ f (alter (with_dataF dir (set_m (m_data src))) ind (output_ f)))).

(** [fill(it->val.dataA.at(dir).begin(), it->val.dataA.at(dir).end(), 0.0)]. *)
Definition clear_adj (el dir : nat) (f : MXFunctionInternal) : Outcome MXFunctionInternal :=
  e <- vec_get (alg f) (Z.of_nat el) ;;
  _ <- vec_at (dataA (val e)) (Z.of_nat dir) ;;
  Ok (log (EvClearAdj el dir)
        (set_alg f (alter (with_val (with_dataA dir (fill_m 0%float))) el (alg f)))).

(** [alg[outputv_ind[ind]].val.dataA.at(dir).set(adjSeed(ind,dir))]. *)
Definition pass_adj_seed (ind dir : nat) (f : MXFunctionInternal) : Outcome MXFunctionInternal :=
  se <- mapped_slot (outputv_ind f) (alg f) ind ;;
  _ <- vec_at (dataA (val se.2)) (Z.of_nat dir) ;;
  p <- vec_at (output_ f) (Z.of_nat ind) ;;
  src <- vec_at (dataA p) (Z.of_nat dir) ;;
  Ok (log (EvSetAdjSeed ind dir)
        (set_alg f (alter (with_val (with_dataA dir (set_m (m_data src)))) se.1 (alg f)))).

(** One turn of the adjoint loop. *)
Definition eval_adjoint (h : Heap) (nadir : Z) (el : nat) (f : MXFunctionInternal)
  : Outcome MXFunctionInternal :=
  e <- vec_get (alg f) (Z.of_nat el) ;;
  n <- deref h (mx e) ;;
  Ok (log (EvEvaluate el 0 nadir) (set_alg f (node_evaluate n el 0 nadir (alg f)))).

(** [alg[inputv_ind[ind]].val.dataA.at(dir).get(adjSens(ind,dir))]. *)
Definition get_adj_sens (ind dir : nat) (f : MXFunctionInternal) : Outcome MXFunctionInternal :=
  se <- mapped_slot (inputv_ind f) (alg f) ind ;;
  src <- vec_at (dataA (val se.2)) (Z.of_nat dir) ;;
  p <- vec_at (input_ f) (Z.of_nat ind) ;;
  _ <- vec_at (dataA p) (Z.of_nat dir) ;;
  Ok (log (EvGetAdjSens ind dir)
        (set_input_ f (alter (with_dataA dir (set_m (m_data src))) ind (input_ f)))).

Definition ports (f : MXFunctionInternal) : list nat := seq 0 (length (input_ f)).
Definition outports (f : MXFunctionInternal) : list nat := seq 0 (length (outputv f)).
Definition entries (f : MXFunctionInternal) : list nat := seq 0 (length (alg f)).

(** The forward loop over the tape, in ascending order. *)
Definition forward_sweep (h : Heap) (nfdir : Z) (f : MXFunctionInternal)
  : Outcome MXFunctionInternal :=
  forM (eval_forward h nfdir) (entries f) f.

(** The forward part of [evaluate]: everything before [if (nadir > 0)]. *)
Definition forward_pass (h : Heap) (nfdir : Z) (f : MXFunctionInternal)
  : Outcome MXFunctionInternal :=
  f <- forM pass_input (ports f) f ;;
  f <- forM (fun dir => forM (pass_fwd_seed dir) (ports f)) (upto nfdir) f ;;
  f <- forward_sweep h nfdir f ;;
  f <- forM get_output (outports f) f ;;
  forM (fun dir => forM (get_fwd_sens dir) (outports f)) (upto nfdir) f.

(** The four loops inside [if (nadir > 0)]. *)
Definition clear_adjoint (nadir : Z) (f : MXFunctionInternal) : Outcome MXFunctionInternal :=
  forM (fun el => forM (clear_adj el) (upto nadir)) (entries f) f.

Definition pass_adjoint_seeds (nadir : Z) (f : MXFunctionInternal) : Outcome MXFunctionInternal :=
  forM (fun ind => forM (pass_adj_seed ind) (upto nadir)) (outports f) f.

Definition adjoint_sweep (h : Heap) (nadir : Z) (f : MXFunctionInternal)
  : Outcome MXFunctionInternal :=
  forM (eval_adjoint h nadir) (rev (entries f)) f.

Definition get_adjoint_sens (nadir : Z) (f : MXFunctionInternal) : Outcome MXFunctionInternal :=
  forM (fun ind => forM (get_adj_sens ind) (upto nadir)) (ports f) f.

Definition adjoint_pass (h : Heap) (nadir : Z) (f : MXFunctionInternal)
  : Outcome MXFunctionInternal :=
  f <- clear_adjoint nadir f ;;
  f <- pass_adjoint_seeds nadir f ;;
  f <- adjoint_sweep h nadir f ;;
  get_adjoint_sens nadir f.

(** The calls of the adjoint part, for a tape and ports laid out as in
    [f]: clear every entry, seed every output port, run the tape from the
    last entry to the first, read every input port. *)
Definition for_each {A : Type} (l : list A) (ev : A -> list Event) : list Event :=
  concat (ev <$> l).

Definition adjoint_events (f : MXFunctionInternal) (nadir : Z) : list Event :=
  for_each (entries f) (fun el => for_each (upto nadir) (fun dir => [EvClearAdj el dir]))
  ++ for_each (outports f) (fun ind => for_each (upto nadir) (fun dir => [EvSetAdjSeed ind dir]))
  ++ for_each (rev (entries f)) (fun el => [EvEvaluate el 0 nadir])
  ++ for_each (ports f) (fun ind => for_each (upto nadir) (fun dir => [EvGetAdjSens ind dir])).

Definition evaluate (h : Heap) (nfdir nadir : Z) (f : MXFunctionInternal)
  : Outcome MXFunctionInternal :=
  f <- forward_pass h nfdir f ;;
  if 0 <? nadir then adjoint_pass h nadir f else Ok f.

(** ** Symbolic forward differentiation *)

(** [MX::size1()], [MX::size2()], [MX::numel()]: read through the handle. *)
Definition MX_size1 (h : Heap) (m : MX) : Outcome Z :=
  n <- deref h m ;; Ok (sp_size1 (sparsity n)).

Definition MX_size2 (h : Heap) (m : MX) : Outcome Z :=
  n <- deref h m ;; Ok (sp_size2 (sparsity n)).

Definition MX_numel (h : Heap) (m : MX) : Outcome Z :=
  n <- deref h m ;; Ok (sp_numel (sparsity n)).

(** A new node is stored past the end of the heap; no node already there
    is touched. *)
Definition alloc (n : MXNode) (h : Heap) : MX * Heap := (Some (length h), h ++ [n]).

Definition fill_evaluate (x : double) : nat -> Z -> Z -> list AlgEl -> list AlgEl :=
  fun el _ _ a => alter (with_val (with_data (fill_m x))) el a.

(** Modelled from the spec: [MX::zeros] and [MX::eye] are declared with
    [MX], outside the sources; the sparsity pattern offers "identity/zero
    construction".  A zero expression is a constant node of the given
    shape that evaluates to zeros; an identity expression is a constant
    node with [n] rows, [n] columns and [n] stored entries that evaluate
    to ones. *)
Definition zeros_node (nrow ncol : Z) : MXNode :=
  mkNode false true false
         (mkSparsity nrow ncol (nrow * ncol) (Z.to_nat (nrow * ncol))) [] 0
         (fill_evaluate 0%float).

Definition eye_node (n : Z) : MXNode :=
  mkNode false true false (mkSparsity n n (n * n) (Z.to_nat n)) [] 0
         (fill_evaluate 1%float).

Definition MX_zeros (nrow ncol : Z) (h : Heap) : MX * Heap := alloc (zeros_node nrow ncol) h.

Definition MX_eye (n : Z) (h : Heap) : MX * Heap := alloc (eye_node n) h.

Definition columns_message : string :=
  "Number of columns in seed matrices not consistent."%string.

Definition seed_message : string := "!seed.empty()"%string.

(** Modelled from the spec: [casadi_assert(c)] and
    [casadi_assert_message(c, msg)] are macros defined outside the sources;
    a failed assertion raises an error at the detecting call. *)
Definition casadi_assert (c : bool) (msg : string) : Outcome unit :=
  if c then Ok tt else Throw (CasadiAssertion msg).

Section SymbolicDifferentiation.

(** The virtual [MXNode::adFwd(seed)] of a node: from the seed
    expressions of its dependencies it builds the expression of its
    sensitivity, as new nodes stored past the end of the heap, and
    returns a handle. *)
Variable MXNode_adFwd : Heap -> MXNode -> list MX -> list MXNode * MX.

(** The first two steps of [adFwd]: read the column count of the first
    seed, then compare every seed with it.  Nothing is built here. *)
Definition adFwd_columns (h : Heap) (fseed : list MX) : Outcome Z :=
  front <- from_option Ok Undefined (head fseed) ;;
  ncol <- MX_size2 h front ;;
  _ <- forM (fun it _ =>
               c <- MX_size2 h it ;;
               casadi_assert (ncol =? c) columns_message)
            fseed tt ;;
  Ok ncol.

(** [derwork[inputv_ind[ind]] = fseed[ind]]. *)
Definition adFwd_pass_seed (f : MXFunctionInternal) (fseed : list MX) (ind : nat)
  (derwork : list MX) : Outcome (list MX) :=
  slot <- vec_get (inputv_ind f) (Z.of_nat ind) ;;
  s <- vec_get fseed (Z.of_nat ind) ;;
  _ <- vec_get derwork slot ;;
  Ok (<[Z.to_nat slot := s]> derwork).

(** [if (ind >= 0) seed[i] = derwork[ind]]; the slot stays null otherwise. *)
Definition collect_seed (derwork : list MX) (ind : Z) : Outcome MX :=
  if 0 <=? ind then vec_get derwork ind else Ok None.

(** One turn of the walk over the tape; the state is the memo
    [derwork] and the heap. *)
Definition adFwd_step (f : MXFunctionInternal) (ncol : Z) (el : nat)
  (st : list MX * Heap) : Outcome (list MX * Heap) :=
  d <- vec_get st.1 (Z.of_nat el) ;;
  if negb (isNull d) then Ok st
  else
    e <- vec_get (alg f) (Z.of_nat el) ;;
    n <- deref st.2 (mx e) ;;
    if isConstant n then
      let r := MX_zeros (sp_numel (sparsity n)) ncol st.2 in
      Ok (<[el := r.1]> st.1, r.2)
    else
      _ <- casadi_assert (negb (length (ch e) =? 0)%nat) seed_message ;;
      seed <- mapM (collect_seed st.1) (ch e) ;;
      let r := MXNode_adFwd st.2 n seed in
      Ok (<[el := r.2]> st.1, st.2 ++ r.1).

(** The memo of the walk, one slot per tape entry, all null and then
    seeded with the caller's seeds for the declared inputs. *)
Definition adFwd_seed_memo (f : MXFunctionInternal) (fseed : list MX)
  : Outcome (list MX) :=
  forM (adFwd_pass_seed f fseed) (ports f) (replicate (length (alg f)) None).

(** The walk over the tape, in ascending order. *)
Definition adFwd_fill (f : MXFunctionInternal) (ncol : Z) (derwork : list MX) (h : Heap)
  : Outcome (list MX * Heap) :=
  forM (adFwd_step f ncol) (seq 0 (length derwork)) (derwork, h).

(** [ret[ind] = derwork[outputv_ind[ind]]]. *)
Definition adFwd_collect (f : MXFunctionInternal) (derwork : list MX) : Outcome (list MX) :=
  mapM (fun ind => slot <- vec_get (outputv_ind f) (Z.of_nat ind) ;;
                   vec_get derwork slot)
       (outports f).

(** Everything after the check of the columns: the memo is created,
    seeded and filled, and the outputs are collected. *)
Definition adFwd_walk (h : Heap) (ncol : Z) (fseed : list MX) (f : MXFunctionInternal)
  : Outcome (list MX * Heap) :=
  derwork <- adFwd_seed_memo f fseed ;;
  st <- adFwd_fill f ncol derwork h ;;
  ret <- adFwd_collect f st.1 ;;
  Ok (ret, st.2).

Definition adFwd (h : Heap) (fseed : list MX) (f : MXFunctionInternal)
  : Outcome (list MX * Heap) :=
  _ <- casadi_assert (isInit f) "isInit()" ;;
  ncol <- adFwd_columns h fseed ;;
  adFwd_walk h ncol fseed f.

(** [fseed[ind] = ind==iind ? MX::eye(ncol) : MX::zeros(nrow,ncol)]. *)
Definition jac_seed (f : MXFunctionInternal) (iind ncol : Z) (ind : nat)
  (st : list MX * Heap) : Outcome (list MX * Heap) :=
  se <- mapped_slot (inputv_ind f) (alg f) ind ;;
  nrow <- MX_size1 st.2 (mx se.2) ;;
  let r := if Z.of_nat ind =? iind then MX_eye ncol st.2 else MX_zeros nrow ncol st.2 in
  Ok (st.1 ++ [r.1], r.2).

(** The seeds [jac] hands to [adFwd], and the heap that holds them. *)
Definition jac_seeds (h : Heap) (iind : Z) (f : MXFunctionInternal)
  : Outcome (list MX * Heap) :=
  slot <- vec_get (inputv_ind f) iind ;;
  e <- vec_get (alg f) slot ;;
  ncol <- MX_size1 h (mx e) ;;
  forM (jac_seed f iind ncol) (ports f) ([], h).

Definition jac (h : Heap) (iind : Z) (f : MXFunctionInternal)
  : Outcome (list MX * Heap) :=
  _ <- casadi_assert (isInit f) "isInit()" ;;
  st <- jac_seeds h iind f ;;
  adFwd st.2 st.1 f.

End SymbolicDifferentiation.

(** ** Printing and cloning *)

Section Printing.

(** The virtual [MXNode::print(stream, args)] of a node: the text it
    writes, given the names of its dependencies. *)
Variable MXNode_print : MXNode -> list string -> string.

(** [chname[j]]: the text of [ss << "i_" << alg[i].ch[j]] for a resolved
    slot, and the empty-bracket marker for the sentinel. *)
Definition chname (c : Z) : string :=
  if 0 <=? c then ("i_" ++ show_int (Z.to_nat c))%string else "[]"%string.

(** What one turn of the loop of [print] writes for entry [i]. *)
Definition print_line (n : MXNode) (i : nat) (e : AlgEl) : string :=
  ("i_" ++ show_int i ++ " =  " ++ MXNode_print n (chname <$> ch e) ++ endl)%string.

Definition print_entry (h : Heap) (f : MXFunctionInternal) (i : nat) (stream : string)
  : Outcome string :=
  e <- vec_get (alg f) (Z.of_nat i) ;;
  n <- deref h (mx e) ;;
  Ok (stream ++ print_line n i e)%string.

Definition print (h : Heap) (f : MXFunctionInternal) (stream : string) : Outcome string :=
  forM (print_entry h f) (entries f) stream.

End Printing.

(** [node->setOption(dictionary())]: the options of [src] are copied to
    [node].  The options the instance carries here are the two direction
    counts. *)
Definition copy_options (src node : MXFunctionInternal) : MXFunctionInternal :=
  mkFun (inputv node) (outputv node) (input_ node) (output_ node) (nfdir_ src) (nadir_ src)
        (is_init_ node) (liftfun_ node) (liftfun_ud_ node)
        (inputv_ind node) (outputv_ind node) (alg node) (trace node).

(** [clone()]: a new instance is constructed from the same expressions,
    given the options of this one, and initialised if this one is. *)
Definition clone (h : Heap) (f : MXFunctionInternal) : Outcome (Heap * MXFunctionInternal) :=
  node <- construct h (inputv f) (outputv f) ;;
  let node := copy_options f node in
  if isInit f then init h node else Ok (h, node).

(** ** Example graphs *)

Definition dense (r c : Z) : CRSSparsity := mkSparsity r c (r * c) (Z.to_nat (r * c)).

Definition no_evaluate : nat -> Z -> Z -> list AlgEl -> list AlgEl := fun _ _ _ a => a.

Definition accumulate (v : list double) (m : DMatrix) : DMatrix :=
  set_m (zip_with PrimFloat.add (m_data m) v) m.

(** The evaluation rule of an elementwise product [x * y]: the value, one
    tangent per forward direction, and for each adjoint direction a
    contribution added to the sensitivities of both dependencies. *)
Definition mul_evaluate (el : nat) (nfdir nadir : Z) (a : list AlgEl) : list AlgEl :=
  match ch <$> a !! el with
  | Some [ci; cj] =>
      let i := Z.to_nat ci in
      let j := Z.to_nat cj in
      let x := primal a i in
      let y := primal a j in
      let a1 := alter (with_val (with_data (set_m (zip_with PrimFloat.mul x y)))) el a in
      let a2 :=
        foldl (fun a' d =>
                 alter (with_val (with_dataF d
                          (set_m (zip_with PrimFloat.add
                                    (zip_with PrimFloat.mul (tangent a' i d) y)
                                    (zip_with PrimFloat.mul x (tangent a' j d)))))) el a')
              a1 (upto nfdir) in
      foldl (fun a' d =>
               let s := adjoint a' el d in
               let a'' := alter (with_val (with_dataA d
                                   (accumulate (zip_with PrimFloat.mul s y)))) i a' in
               alter (with_val (with_dataA d
                        (accumulate (zip_with PrimFloat.mul x s)))) j a'')
            a2 (upto nadir)
  | _ => a
  end.

Definition symbolic_leaf (r c : Z) : MXNode :=
  mkNode true false false (dense r c) [] 0 no_evaluate.

Definition constant_leaf (r c : Z) : MXNode :=
  mkNode false true false (dense r c) [] 0 no_evaluate.

Definition product (r c : Z) (x y : nat) : MXNode :=
  mkNode false false true (dense r c) [Some x; Some y] 0 mul_evaluate.

(** [a], [b], [a * b] and [a * (a * b)]: the leaf [a] has two parents. *)
Definition heap_mul : Heap :=
  [symbolic_leaf 1 1; symbolic_leaf 1 1; product 1 1 0 1; product 1 1 0 2].

Definition fun_mul : MXFunctionInternal :=
  mkFun [Some 0%nat; Some 1%nat] [Some 2%nat; Some 3%nat]
        [mkIO (Matrix_of (dense 1 1)) [] []; mkIO (Matrix_of (dense 1 1)) [] []]
        [mkIO (Matrix_of (dense 1 1)) [] []; mkIO (Matrix_of (dense 1 1)) [] []]
        1 1 false None 0 [] [] [] [].

(** The instance after [init]. *)
Definition tape_mul : MXFunctionInternal :=
  Eval vm_compute in
    match init heap_mul fun_mul with
    | Ok r => r.2
    | _ => fun_mul
    end.

Definition scalar (x : double) : DMatrix := mkMatrix (dense 1 1) [x].

Local Open Scope float_scope.

(** [a = 3], [b = 4]; forward seed on [a]; adjoint seed on [a * b]. *)
Definition tape_mul_seeded : MXFunctionInternal :=
  set_output_
    (set_input_ tape_mul
       [mkIO (scalar 3) [scalar 1] [scalar 0]; mkIO (scalar 4) [scalar 0] [scalar 0]])
    [mkIO (scalar 0) [scalar 0] [scalar 1]; mkIO (scalar 0) [scalar 0] [scalar 0]].

Local Close Scope float_scope.

(** [x] is declared, [y] is not; the output is [x * y].  The last node is
    a seed for [x], with one column. *)
Definition heap_free : Heap :=
  [symbolic_leaf 2 1; symbolic_leaf 2 1; product 2 1 0 1; zeros_node 2 1].

Definition fun_free : MXFunctionInternal :=
  mkFun [Some 0%nat] [Some 2%nat]
        [mkIO (Matrix_of (dense 2 1)) [] []] [mkIO (Matrix_of (dense 2 1)) [] []]
        1 1 false None 0 [] [] [] [].

Definition tape_free : MXFunctionInternal :=
  Eval vm_compute in
    match init heap_free fun_free with
    | Ok r => r.2
    | _ => fun_free
    end.

(** A differentiation rule that stores one node, shaped like a tangent of
    its node with as many columns as its first seed has. *)
Definition sample_adFwd (h : Heap) (n : MXNode) (seed : list MX) : list MXNode * MX :=
  let ncol := match head seed with
              | Some (Some p) => from_option (fun m => sp_size2 (sparsity m)) 0 (h !! p)
              | _ => 0
              end in
  ([mkNode false false (isNonLinear n) (dense (sp_numel (sparsity n)) ncol) seed 0 no_evaluate],
   Some (length h)).

(** [x] is declared and [c] is a constant; the output is [x * c].  The
    last node is a seed for [x], with three columns. *)
Definition heap_const : Heap :=
  [symbolic_leaf 2 1; constant_leaf 2 1; product 2 1 0 1; zeros_node 2 3].

Definition tape_const : MXFunctionInternal :=
  Eval vm_compute in
    match init heap_const fun_free with
    | Ok r => r.2
    | _ => fun_free
    end.

(** [x] is declared and [c] is a constant with two rows and two columns;
    the outputs are [c * x] and [c] itself.  The last node is a seed for
    [x], with three columns. *)
Definition heap_square : Heap :=
  [symbolic_leaf 2 1; constant_leaf 2 2; product 2 1 1 0; zeros_node 2 3].

Definition fun_square : MXFunctionInternal :=
  mkFun [Some 0%nat] [Some 2%nat; Some 1%nat]
        [mkIO (Matrix_of (dense 2 1)) [] []]
        [mkIO (Matrix_of (dense 2 1)) [] []; mkIO (Matrix_of (dense 2 2)) [] []]
        1 1 false None 0 [] [] [] [].

Definition tape_square : MXFunctionInternal :=
  Eval vm_compute in
    match init heap_square fun_square with
    | Ok r => r.2
    | _ => fun_square
    end.

(** A lifting callback that adds one to every element of the buffer. *)
Definition sample_liftfun : LiftingFunction :=
  fun v _ _ => (fun x => PrimFloat.add x 1%float) <$> v.

Definition tape_mul_lifted : MXFunctionInternal :=
  setLiftingFunction (Some sample_liftfun) 7 tape_mul_seeded.

(** * Specifications

    The predicates and invariants the theorems below are stated with. *)

(** Two heaps hold the same nodes up to the transient field. *)
Definition heap_sim (h h' : Heap) : Prop :=
  forall p, set_temp 0 <$> h !! p = set_temp 0 <$> h' !! p.

(** Every transient field is neutral. *)
Definition heap_neutral (h : Heap) : Prop :=
  forall p n, h !! p = Some n -> temp n = 0.

(** The loop invariant of the sort, relative to the heap [h0] it started
    from: the nodes are unchanged but for the marker, the marker is set
    exactly on the appended nodes, no node is appended twice, and every
    dependency of an appended node was appended before it. *)
Record sort_inv (h0 h : Heap) (nodes : list nat) : Prop := {
  inv_sim : heap_sim h0 h;
  inv_mark : forall p n, h !! p = Some n -> temp n = if bool_decide (p ∈ nodes) then 1 else 0;
  inv_nodup : NoDup nodes;
  inv_range : forall p, p ∈ nodes -> is_Some (h0 !! p);
  inv_deps : forall k p n q, nodes !! k = Some p -> h0 !! p = Some n ->
               Some q ∈ dep n -> is_Some (h0 !! q) ->
               exists j, (j < k)%nat /\ nodes !! j = Some q
}.

(** Dependencies are built before the nodes that use them: a handle held
    by a node points to a lower address. *)
Definition acyclic (h : Heap) : Prop :=
  forall p n q, h !! p = Some n -> Some q ∈ dep n -> (q < p)%nat.

(** The addresses of the nodes not yet appended. *)
Definition pending (h : Heap) : list nat :=
  filter (fun p => visited h p = false) (seq 0 (length h)).

(** The run of not yet appended nodes on top of the stack, with addresses
    growing from the top down: the nodes pushed for the node under them. *)
Fixpoint chain (h : Heap) (s : list nat) : list nat :=
  match s with
  | [] => []
  | t :: s' =>
      if visited h t then []
      else t :: match s' with
                | t' :: _ => if (t <? t')%nat then chain h s' else []
                | [] => []
                end
  end.

(** Each turn of the loop lowers this quantity by one at least. *)
Definition potential (h : Heap) (s : list nat) : Z :=
  2 * Z.of_nat (length (pending h)) + Z.of_nat (length s)
  - 2 * Z.of_nat (length (chain h s)).

(** What one resolved dependency slot looks like for the entry at index
    [ii]: the sentinel for a null reference, and otherwise an index below
    [ii]. *)
Definition slot_ok (ii : nat) (d : MX) (c : Z) : Prop :=
  (d = None /\ c = -1) \/ (d <> None /\ 0 <= c < Z.of_nat ii).

(** Every node of the heap has a stored entry: its buffers are not
    empty. *)
Definition stored (h : Heap) : Prop :=
  forall p n, h !! p = Some n -> (0 < sp_size (sparsity n))%nat.

(** Every declared input and output is a handle on a node of the heap. *)
Definition rooted (h : Heap) (f : MXFunctionInternal) : Prop :=
  Forall (fun m => exists p, m = Some p /\ (p < length h)%nat) (inputv f ++ outputv f).

(** A handle is null or points to a node of the heap. *)
Definition valid_handle (h : Heap) (m : MX) : Prop :=
  match m with
  | None => True
  | Some p => is_Some (h !! p)
  end.

(** The two ways in which argument [i] of [l] can be rejected. *)
Definition null_at (l : list MX) (i : nat) : Prop := l !! i = Some None.

Definition not_symbolic_at (h : Heap) (l : list MX) (i : nat) : Prop :=
  exists p n, l !! i = Some (Some p) /\ h !! p = Some n /\ isSymbolic n = false.

Definition rejected_at (h : Heap) (l : list MX) (i : nat) : Prop :=
  null_at l i \/ not_symbolic_at h l i.

(** A port sized to the sparsity of the expression it stands for. *)
Definition port_for (h : Heap) (m : MX) (io : FunctionIO) : Prop :=
  exists n, deref h m = Ok n /\ data io = Matrix_of (sparsity n)
            /\ length (m_data (data io)) = sp_size (sparsity n).

(** The claim on construction, as the specification words it. *)
Definition construct_spec (h : Heap) (ins outs : list MX) : Prop :=
  ((exists msg, construct h ins outs = Throw (CasadiException msg))
     <-> exists i, rejected_at h ins i)
  /\ (forall msg, construct h ins outs = Throw (CasadiException msg) ->
        exists i, (forall j, (j < i)%nat -> ~ rejected_at h ins j)
                  /\ ((null_at ins i /\ msg = null_message i)
                      \/ (not_symbolic_at h ins i /\ msg = not_symbolic_message i)))
  /\ ((forall i, ~ rejected_at h ins i) ->
        exists f, construct h ins outs = Ok f
                  /\ Forall2 (port_for h) ins (input_ f)
                  /\ Forall2 (port_for h) outs (output_ f)).

(** The layout of a tape entry and of a port: the node, and the numbers
    of forward and adjoint direction buffers. *)
Definition entry_shape (e : AlgEl) : MX * nat * nat :=
  (mx e, length (dataF (val e)), length (dataA (val e))).

Definition port_shape (io : FunctionIO) : nat * nat :=
  (length (dataF io), length (dataA io)).

(** The members [evaluate] never writes. *)
Definition frame (f : MXFunctionInternal) :=
  (inputv f, outputv f, nfdir_ f, nadir_ f, is_init_ f, liftfun_ f, liftfun_ud_ f,
   inputv_ind f, outputv_ind f).

(** The frame, and the layout of the tape and of the ports: which node
    each entry stands for and how many direction buffers everything has. *)
Definition skeleton (f : MXFunctionInternal) :=
  (frame f, entry_shape <$> alg f, port_shape <$> input_ f, port_shape <$> output_ f).

(** A node's [evaluate] writes into buffers; it cannot move or resize the
    entries of the tape. *)
Definition keeps_shape (n : MXNode) : Prop :=
  forall el nf na a, entry_shape <$> node_evaluate n el nf na a = entry_shape <$> a.

(** An instance on which [evaluate(nfdir, nadir)] can run: every port is
    mapped to a slot of the tape, every entry stands for a node of the heap
    and, like every port, has buffers for the requested directions. *)
Record ready (h : Heap) (nfdir nadir : Z) (f : MXFunctionInternal) : Prop := {
  ready_inputs : forall ind, (ind < length (input_ f))%nat ->
    exists slot, inputv_ind f !! ind = Some slot /\ 0 <= slot < Z.of_nat (length (alg f));
  ready_outputs : forall ind, (ind < length (outputv f))%nat ->
    (ind < length (output_ f))%nat /\
    exists slot, outputv_ind f !! ind = Some slot /\ 0 <= slot < Z.of_nat (length (alg f));
  ready_entries : forall el e, alg f !! el = Some e ->
    nfdir <= Z.of_nat (length (dataF (val e))) /\
    nadir <= Z.of_nat (length (dataA (val e))) /\
    exists n, deref h (mx e) = Ok n /\ keeps_shape n;
  ready_in_ports : forall ind io, input_ f !! ind = Some io ->
    nfdir <= Z.of_nat (length (dataF io)) /\ nadir <= Z.of_nat (length (dataA io));
  ready_out_ports : forall ind io, output_ f !! ind = Some io ->
    nfdir <= Z.of_nat (length (dataF io)) /\ nadir <= Z.of_nat (length (dataA io))
}.

Definition all_zero (m : DMatrix) : Prop := Forall (fun x => x = 0%float) (m_data m).

(** The sensitivity buffer of entry [el] for direction [dir] holds zeros. *)
Definition adj_zeroed (f : MXFunctionInternal) (el dir : nat) : Prop :=
  exists e m, alg f !! el = Some e /\ dataA (val e) !! dir = Some m /\ all_zero m.

(** Every entry's sensitivity buffer is zero for every requested direction. *)
Definition all_adj_zero (nadir : Z) (f : MXFunctionInternal) : Prop :=
  forall el dir, (el < length (alg f))%nat -> Z.of_nat dir < nadir -> adj_zeroed f el dir.

(** The call of the lifting callback that follows the evaluation of entry
    [el], whose node is [n], on the tape [a] the evaluation left: none
    unless a callback is registered and the node is nonlinear. *)
Definition lift_events (f : MXFunctionInternal) (n : MXNode) (el : nat) (a : list AlgEl)
  : list Event :=
  match liftfun_ f with
  | Some _ =>
      if isNonLinear n
      then [EvLift el (primal a el) (Z.of_nat (sp_size (sparsity n))) (liftfun_ud_ f)]
      else []
  | None => []
  end.

(** What the turn of the forward loop for entry [el], whose node is [n],
    does after the evaluation of the entry has left the tape [a], when
    [liftfun] is the callback and [ud] the user data that were registered:
    if the callback is not null and the node is nonlinear, the callback is
    called once, on the output buffer of the entry, with the number of
    stored elements of the node and with [ud], and the buffer is then as
    the callback leaves it; otherwise nothing is called and the tape stays
    as it is. *)
Definition lift_turn (liftfun : option LiftingFunction) (ud : Z) (n : MXNode) (el : nat)
  (a : list AlgEl) : list Event * list AlgEl :=
  match liftfun with
  | Some g =>
      if isNonLinear n then
        let v := primal a el in
        let sz := Z.of_nat (sp_size (sparsity n)) in
        ([EvLift el v sz ud], alter (with_val (with_data (set_m (g v sz ud)))) el a)
      else ([], a)
  | None => ([], a)
  end.

(** The turn of the forward loop for entry [el], on an instance [f] on
    which [liftfun] and [ud] were registered: the entry is evaluated on
    the state [f_el] left by the turns before it, the callback, if it is
    called, comes right after, and the turn leaves the tape as the
    evaluation and the callback left it. *)
Definition step_calls (h : Heap) (nfdir : Z) (liftfun : option LiftingFunction) (ud : Z)
  (f : MXFunctionInternal) (el : nat) (calls : list Event) : Prop :=
  exists f_el f_next e n,
    forM (eval_forward h nfdir) (seq 0 el) f = Ok f_el /\
    eval_forward h nfdir el f_el = Ok f_next /\
    alg f_el !! el = Some e /\ deref h (mx e) = Ok n /\
    calls = EvEvaluate el nfdir 0
              :: (lift_turn liftfun ud n el (node_evaluate n el nfdir 0 (alg f_el))).1 /\
    alg f_next = (lift_turn liftfun ud n el (node_evaluate n el nfdir 0 (alg f_el))).2.

(** The node behind input port [ind]: [alg[inputv_ind[ind]].mx]. *)
Definition input_node (h : Heap) (f : MXFunctionInternal) (ind : nat) : Outcome MXNode :=
  se <- mapped_slot (inputv_ind f) (alg f) ind ;; deref h (mx se.2).

(** Its row count: [alg[inputv_ind[ind]].mx.size1()]. *)
Definition input_rows (h : Heap) (f : MXFunctionInternal) (ind : nat) : Z :=
  match input_node h f ind with
  | Ok n => sp_size1 (sparsity n)
  | _ => 0
  end.

(** The seed [jac(iind)] makes for input port [ind]. *)
Definition jac_seed_node (h : Heap) (f : MXFunctionInternal) (iind : Z) (ind : nat) : MXNode :=
  if Z.of_nat ind =? iind then eye_node (input_rows h f (Z.to_nat iind))
  else zeros_node (input_rows h f ind) (input_rows h f (Z.to_nat iind)).

(** Every input port is mapped to an entry that stands for a node. *)
Definition has_input_nodes (h : Heap) (f : MXFunctionInternal) : Prop :=
  forall ind, (ind < length (input_ f))%nat -> exists n, input_node h f ind = Ok n.

(** A tape on which the differentiator can run: the ports are mapped to
    slots of the tape, every entry stands for a node of the heap, and its
    dependency slots lie below it, as [init] builds them. *)
Record tape_ok (h : Heap) (f : MXFunctionInternal) : Prop := {
  tape_inputs : forall ind, (ind < length (input_ f))%nat ->
    exists slot, inputv_ind f !! ind = Some slot /\ 0 <= slot < Z.of_nat (length (alg f));
  tape_outputs : forall ind, (ind < length (outputv f))%nat ->
    exists slot, outputv_ind f !! ind = Some slot /\ 0 <= slot < Z.of_nat (length (alg f));
  tape_entries : forall el e, alg f !! el = Some e ->
    (exists n, deref h (mx e) = Ok n) /\ Forall (fun c => c < Z.of_nat el) (ch e)
}.

(** An entry of the tape whose memo slot is null, whose node is not a
    constant and which has no dependency. *)
Definition orphan (h : Heap) (f : MXFunctionInternal) (derwork : list MX) (el : nat) : Prop :=
  exists e n, derwork !! el = Some None /\ alg f !! el = Some e /\ deref h (mx e) = Ok n
              /\ isConstant n = false /\ ch e = [].

(** The two assertions of [adFwd] that can fail after [isInit()]. *)
Definition seed_assertion : Exn := CasadiAssertion seed_message.
Definition columns_assertion : Exn := CasadiAssertion columns_message.

(** Some seed has a column count other than that of the first seed. *)
Definition columns_differ (h : Heap) (fseed : list MX) : Prop :=
  exists i m m0, fseed !! 0%nat = Some m0 /\ fseed !! i = Some m
                 /\ MX_size2 h m <> MX_size2 h m0.

(** The column count of a seed that is not null. *)
Definition seed_columns (h : Heap) (m : MX) : Z :=
  match deref h m with
  | Ok n => sp_size2 (sparsity n)
  | _ => 0
  end.

Definition has_node (h : Heap) (m : MX) : Prop := exists n, deref h m = Ok n.

(** The claim on the column check of [adFwd], as the specification words
    it: the consistency error is raised exactly when some seed differs
    from the first in its column count, it is raised by the check that
    comes before anything is built, and with equal column counts the call
    completes. *)
Definition adFwd_spec (rule : Heap -> MXNode -> list MX -> list MXNode * MX)
  (h : Heap) (fseed : list MX) (f : MXFunctionInternal) : Prop :=
  (adFwd rule h fseed f = Throw columns_assertion <-> columns_differ h fseed)
  /\ (columns_differ h fseed -> adFwd_columns h fseed = Throw columns_assertion)
  /\ (~ columns_differ h fseed -> exists r, adFwd rule h fseed f = Ok r).

(** The claim on constant nodes of the walk, as the specification words
    it: when the walk is over, the slot of a constant node that had no
    seed holds a zero expression with the shape of that node, but for its
    column count, which is that of the seeds. *)
Definition constant_zero_spec (rule : Heap -> MXNode -> list MX -> list MXNode * MX)
  (h : Heap) (fseed : list MX) (f : MXFunctionInternal) (ncol : Z) : Prop :=
  forall derwork derwork' h' el e n,
    adFwd_seed_memo f fseed = Ok derwork -> derwork !! el = Some None ->
    alg f !! el = Some e -> deref h (mx e) = Ok n -> isConstant n = true ->
    adFwd_fill rule f ncol derwork h = Ok (derwork', h') ->
    exists z, deref h' (default None (derwork' !! el)) = Ok z
              /\ isConstant z = true
              /\ sp_size1 (sparsity z) = sp_size1 (sparsity n)
              /\ sp_size2 (sparsity z) = ncol.

(** ** Further specifications *)

(** What the caller hands to [evaluate] through the ports: the values and
    forward seeds of the inputs and the adjoint seeds of the outputs. *)
Definition caller_data (f : MXFunctionInternal) :=
  (data <$> input_ f, dataF <$> input_ f, dataA <$> output_ f).

(** [g] differs from [f] at most in buffers that [evaluate] may write. *)
Definition untouched (f g : MXFunctionInternal) : Prop :=
  frame g = frame f /\ caller_data g = caller_data f.

(** Output port [ind] of [f] holds the value stored in the tape [a] at
    the slot the port is mapped to. *)
Definition output_read (a : list AlgEl) (f : MXFunctionInternal) (ind : nat) : Prop :=
  exists slot io, outputv_ind f !! ind = Some slot /\ 0 <= slot
    /\ output_ f !! ind = Some io
    /\ m_data (data io) = primal a (Z.to_nat slot).

(** Its buffer for forward direction [dir] holds the tangent stored there. *)
Definition fwd_sens_read (a : list AlgEl) (f : MXFunctionInternal) (dir ind : nat) : Prop :=
  exists slot io m, outputv_ind f !! ind = Some slot /\ 0 <= slot
    /\ output_ f !! ind = Some io /\ dataF io !! dir = Some m
    /\ m_data m = tangent a (Z.to_nat slot) dir.

(** The buffer of input port [ind] for adjoint direction [dir] holds the
    sensitivity stored in the tape at the slot the port is mapped to. *)
Definition adj_sens_read (a : list AlgEl) (f : MXFunctionInternal) (ind dir : nat) : Prop :=
  exists slot io m, inputv_ind f !! ind = Some slot /\ 0 <= slot
    /\ input_ f !! ind = Some io /\ dataA io !! dir = Some m
    /\ m_data m = adjoint a (Z.to_nat slot) dir.

(** The name [print] gives to a dependency of the entry at index [ii]:
    the empty-bracket marker for a null reference, and otherwise the name
    of an earlier line. *)
Definition name_ok (ii : nat) (d : MX) (name : string) : Prop :=
  (d = None /\ name = "[]"%string)
  \/ (d <> None /\ exists k, (k < ii)%nat /\ name = ("i_" ++ show_int k)%string).

(** The text of a list of lines. *)
Definition text (lines : list string) : string := foldr String.append EmptyString lines.

(** A dependency slot of the entry at index [ii] of the tape [a] that is
    wired to the dependency [d]: the sentinel for a null reference, and
    otherwise the index of an earlier entry, which stands for the node
    [d] points to. *)
Definition slot_links (a : list AlgEl) (ii : nat) (d : MX) (c : Z) : Prop :=
  match d with
  | None => c = -1
  | Some q => 0 <= c < Z.of_nat ii /\ mx <$> a !! Z.to_nat c = Some (Some q)
  end.

(** No other port is mapped by [x_ind] to the slot of port [ind]. *)
Definition own_slot (x_ind : list Z) (ind : nat) : Prop :=
  forall i', i' <> ind -> x_ind !! i' <> x_ind !! ind.

(** The tape [a] holds, at the slot input port [ind] of [f] is mapped to,
    the value of the port; its forward seed for direction [dir]. *)
Definition input_loaded (f : MXFunctionInternal) (a : list AlgEl) (ind : nat) : Prop :=
  exists slot io, inputv_ind f !! ind = Some slot /\ 0 <= slot
    /\ input_ f !! ind = Some io
    /\ primal a (Z.to_nat slot) = m_data (data io).

Definition fwd_seed_loaded (f : MXFunctionInternal) (a : list AlgEl) (dir ind : nat) : Prop :=
  exists slot io m, inputv_ind f !! ind = Some slot /\ 0 <= slot
    /\ input_ f !! ind = Some io /\ dataF io !! dir = Some m
    /\ tangent a (Z.to_nat slot) dir = m_data m.

(** The tape [a] holds, at the slot output port [ind] of [f] is mapped
    to, the adjoint seed of the port for direction [dir]. *)
Definition adj_seed_loaded (f : MXFunctionInternal) (a : list AlgEl) (ind dir : nat) : Prop :=
  exists slot io m, outputv_ind f !! ind = Some slot /\ 0 <= slot
    /\ output_ f !! ind = Some io /\ dataA io !! dir = Some m
    /\ adjoint a (Z.to_nat slot) dir = m_data m.

(** No later port is mapped by [x_ind] to the slot of port [ind]: what
    the loop over the ports writes there for [ind] is not overwritten. *)
Definition last_on_slot (x_ind : list Z) (ind : nat) : Prop :=
  forall i', (ind < i')%nat -> x_ind !! i' <> x_ind !! ind.

(** [it->mx->evaluate(..., nfdir, nadir)] on the tape [a], for the entry
    at index [el]. *)
Definition run_entry (h : Heap) (nfdir nadir : Z) (a : list AlgEl) (el : nat) : list AlgEl :=
  match a !! el with
  | Some e => match deref h (mx e) with
              | Ok n => node_evaluate n el nfdir nadir a
              | _ => a
              end
  | None => a
  end.

(** The adjoint part of [evaluate], in the words of the specification:
    the call completes; when [nadir > 0] the four steps run one after the
    other on the state [f1] left by the forward pass:
    (1) every sensitivity buffer of the tape is zero for every requested
        direction;
    (2) then the caller's adjoint seed of every output port is in the
        port's slot (the seed of the last port, if several ports are
        mapped to the slot), and the entries that are the slot of no
        output port still hold zeros;
    (3) then the tape is what the adjoint rules of its entries, run one
        after the other from the last entry to the first, make of it;
    (4) then every input port holds, for every requested direction, the
        sensitivity the tape holds at the port's slot;
    the calls made are those of [adjoint_events]; and when [nadir <= 0]
    the state left by the forward pass is the result. *)
Definition adjoint_pass_spec (h : Heap) (nfdir nadir : Z) (f : MXFunctionInternal) : Prop :=
  exists f1 f',
    forward_pass h nfdir f = Ok f1 /\ evaluate h nfdir nadir f = Ok f' /\
    (0 < nadir ->
       exists fa fb fc,
         clear_adjoint nadir f1 = Ok fa /\ all_adj_zero nadir fa /\
         pass_adjoint_seeds nadir fa = Ok fb /\
         (forall ind dir, (ind < length (outputv f))%nat -> Z.of_nat dir < nadir ->
            last_on_slot (outputv_ind f) ind -> adj_seed_loaded f (alg fb) ind dir) /\
         (forall el dir, (el < length (alg f))%nat -> Z.of_nat dir < nadir ->
            (forall ind, (ind < length (outputv f))%nat ->
                         outputv_ind f !! ind <> Some (Z.of_nat el)) ->
            adj_zeroed fb el dir) /\
         adjoint_sweep h nadir fb = Ok fc /\
         alg fc = foldl (run_entry h 0 nadir) (alg fb) (rev (entries fb)) /\
         get_adjoint_sens nadir fc = Ok f' /\
         alg f' = alg fc /\
         (forall ind dir, (ind < length (input_ f))%nat -> Z.of_nat dir < nadir ->
            adj_sens_read (alg fc) f' ind dir) /\
         trace f' = trace f1 ++ adjoint_events f1 nadir) /\
    (nadir <= 0 -> f' = f1).

(** * Proofs *)

(** ** Generic facts about outcomes and loops *)

Lemma bind_Ok {A B : Type} (m : Outcome A) (k : A -> Outcome B) (b : B) :
  bind m k = Ok b -> exists a, m = Ok a /\ k a = Ok b.
Proof. destruct m; simpl; intros H; try discriminate; eauto. Qed.

Lemma mapM_Ok_Forall2 {A B : Type} (f : A -> Outcome B) (l : list A) (l' : list B) :
  mapM f l = Ok l' -> Forall2 (fun a b => f a = Ok b) l l'.
Proof.
  revert l'; induction l as [|a l IH]; intros l' H; simpl in H.
  - injection H as <-. constructor.
  - apply bind_Ok in H as (b & Hb & H).
    apply bind_Ok in H as (bs & Hbs & H).
    injection H as <-. constructor; auto.
Qed.

Lemma mapM_Ok_lookup {A B : Type} (f : A -> Outcome B) (l : list A) (l' : list B) i b :
  mapM f l = Ok l' -> l' !! i = Some b -> exists a, l !! i = Some a /\ f a = Ok b.
Proof.
  intros H Hb. apply mapM_Ok_Forall2 in H.
  destruct (Forall2_lookup_r _ _ _ _ _ H Hb) as (a & Ha & Hf). eauto.
Qed.

Lemma mapM_length {A B : Type} (g : A -> Outcome B) (l : list A) (l' : list B) :
  mapM g l = Ok l' -> length l' = length l.
Proof. intros H. apply mapM_Ok_Forall2 in H. symmetry. by eapply Forall2_length. Qed.

Lemma forM_app {A S : Type} (g : A -> S -> Outcome S) (l1 l2 : list A) (s : S) :
  forM g (l1 ++ l2) s = (s' <- forM g l1 s ;; forM g l2 s').
Proof.
  revert s. induction l1 as [|a l1 IH]; intros s; simpl; [done|].
  destruct (g a s); simpl; auto.
Qed.

Lemma vec_get_nat {A : Type} (v : list A) i x : v !! i = Some x -> vec_get v (Z.of_nat i) = Ok x.
Proof.
  intros H. unfold vec_get. destruct (Z.ltb_spec (Z.of_nat i) 0); [lia|].
  by rewrite Nat2Z.id, H.
Qed.

Lemma vec_get_inv {A : Type} (v : list A) (i : nat) x :
  vec_get v (Z.of_nat i) = Ok x -> v !! i = Some x.
Proof.
  unfold vec_get. destruct (Z.of_nat i <? 0); [discriminate|]. rewrite Nat2Z.id.
  destruct (v !! i); [|discriminate]. by intros [= ->].
Qed.

Lemma vec_get_Zpos {A : Type} (v : list A) (i : Z) x :
  0 <= i -> v !! Z.to_nat i = Some x -> vec_get v i = Ok x.
Proof.
  intros Hi Hx. unfold vec_get. destruct (Z.ltb_spec i 0); [lia|]. by rewrite Hx.
Qed.

Lemma mapM_snoc {A B : Type} (g : A -> Outcome B) (l : list A) x es e :
  mapM g l = Ok es -> g x = Ok e -> mapM g (l ++ [x]) = Ok (es ++ [e]).
Proof.
  revert es. induction l as [|a l IH]; intros es H Hx; simpl in *.
  - injection H as <-. by rewrite Hx.
  - apply bind_Ok in H as (b & Hb & H). apply bind_Ok in H as (bs & Hbs & H).
    injection H as <-. rewrite Hb. simpl. by rewrite (IH _ Hbs Hx).
Qed.

Lemma forM_unit {A : Type} (g : A -> unit -> Outcome unit) (l : list A) :
  (forall a, a ∈ l -> g a tt = Ok tt) -> forM g l tt = Ok tt.
Proof.
  induction l as [|a l IH]; intros Hg; simpl; [done|].
  rewrite Hg by (by left). simpl. apply IH. intros b Hb. apply Hg. by right.
Qed.

Lemma mapM_total {A B : Type} (g : A -> Outcome B) (l : list A) :
  Forall (fun a => exists b, g a = Ok b) l -> exists l', mapM g l = Ok l'.
Proof.
  induction l as [|a l IH]; intros H; simpl; [eauto|].
  apply Forall_cons in H as [[b Hb] H]. destruct (IH H) as (l' & Hl').
  rewrite Hb, Hl'. simpl. eauto.
Qed.

(** ** The sort and the tape build *)

Lemma heap_sim_refl h : heap_sim h h.
Proof. intros p. reflexivity. Qed.

Lemma heap_sim_trans h1 h2 h3 : heap_sim h1 h2 -> heap_sim h2 h3 -> heap_sim h1 h3.
Proof. intros H1 H2 p. rewrite H1. apply H2. Qed.

Lemma heap_sim_alter h t v : heap_sim h (alter (set_temp v) t h).
Proof.
  intros p. rewrite list_lookup_alter. destruct (decide (t = p)) as [->|]; [|done].
  destruct (h !! p); reflexivity.
Qed.

Lemma heap_sim_lookup h h' p n :
  heap_sim h h' -> h !! p = Some n ->
  exists n', h' !! p = Some n' /\ dep n' = dep n /\ sparsity n' = sparsity n
             /\ isSymbolic n' = isSymbolic n /\ isConstant n' = isConstant n
             /\ isNonLinear n' = isNonLinear n /\ node_evaluate n' = node_evaluate n.
Proof.
  intros Hs Hp. specialize (Hs p). rewrite Hp in Hs.
  destruct (h' !! p) as [n'|]; simpl in Hs; [|discriminate].
  exists n'. split; [done|]. destruct n, n'. simpl in *. injection Hs. intros. by subst.
Qed.

Lemma heap_sim_sym h h' : heap_sim h h' -> heap_sim h' h.
Proof. intros H p. symmetry. apply H. Qed.

Lemma heap_sim_reset nodes h : heap_sim h (reset_temp nodes h).
Proof.
  unfold reset_temp. revert h. induction nodes as [|p nodes IH]; intros h; simpl.
  - apply heap_sim_refl.
  - eapply heap_sim_trans; [apply heap_sim_alter | apply IH].
Qed.

Lemma heap_sim_assign nodes i h : heap_sim h (assign_order i nodes h).
Proof.
  revert i h. induction nodes as [|p nodes IH]; intros i h; simpl.
  - apply heap_sim_refl.
  - eapply heap_sim_trans; [apply heap_sim_alter | apply IH].
Qed.

Lemma first_pending_None h ds q :
  first_pending h ds = None -> Some q ∈ ds -> visited h q = true.
Proof.
  induction ds as [|d ds IH]; intros Hf Hin.
  - by apply elem_of_nil in Hin.
  - apply elem_of_cons in Hin. simpl in Hf. destruct d as [q'|].
    + destruct (visited h q') eqn:Hv; [|discriminate].
      destruct Hin as [Heq|Hin]; [by injection Heq as -> | auto].
    + destruct Hin as [Heq|Hin]; [discriminate | auto].
Qed.

Lemma sort_inv_init h : heap_neutral h -> sort_inv h h [].
Proof.
  intros Hn. split.
  - apply heap_sim_refl.
  - intros p n Hp. rewrite bool_decide_eq_false_2; [eauto | apply not_elem_of_nil].
  - constructor.
  - intros p Hp. by apply elem_of_nil in Hp.
  - intros k p n q Hk. by rewrite lookup_nil in Hk.
Qed.

Lemma sort_inv_append h0 h nodes t n :
  sort_inv h0 h nodes -> h !! t = Some n -> temp n = 0 ->
  first_pending h (dep n) = None ->
  sort_inv h0 (alter (set_temp 1) t h) (nodes ++ [t]).
Proof.
  intros [Hsim Hmark Hnd Hrange Hdeps] Ht Htemp Hfp.
  assert (Hnotin : t ∉ nodes).
  { intros Hin. specialize (Hmark _ _ Ht). rewrite bool_decide_eq_true_2 in Hmark by done. lia. }
  split.
  - eapply heap_sim_trans; [exact Hsim | apply heap_sim_alter].
  - intros p m Hp. rewrite list_lookup_alter in Hp.
    destruct (decide (t = p)) as [->|Hne].
    + rewrite Ht in Hp. injection Hp as <-. simpl.
      rewrite bool_decide_eq_true_2; [done | apply elem_of_app; right; apply list_elem_of_singleton; done].
    + rewrite (Hmark _ _ Hp).
      assert (bool_decide (p ∈ nodes ++ [t]) = bool_decide (p ∈ nodes)) as ->; [|done].
      apply bool_decide_ext. rewrite elem_of_app, list_elem_of_singleton. intuition congruence.
  - apply NoDup_app. split; [done|]. split; [|apply NoDup_singleton].
    intros x Hx Hx'. apply list_elem_of_singleton in Hx'. by subst.
  - intros p Hp. apply elem_of_app in Hp as [Hp|Hp]; [auto|].
    apply list_elem_of_singleton in Hp as ->.
    destruct (heap_sim_lookup _ _ _ _ (heap_sim_sym _ _ Hsim) Ht) as (n0 & Hn0 & _). eauto.
  - intros k p m q Hk Hp Hq Hsome.
    destruct (decide (k < length nodes)%nat) as [Hlt|Hge].
    + rewrite lookup_app_l in Hk by done.
      destruct (Hdeps _ _ _ _ Hk Hp Hq Hsome) as (j & Hj & Hjq).
      exists j. split; [done|]. rewrite lookup_app_l; [done | lia].
    + rewrite lookup_app_r in Hk by lia.
      destruct (k - length nodes)%nat as [|k'] eqn:Hk'; [|by rewrite lookup_cons, lookup_nil in Hk].
      simpl in Hk. injection Hk as <-.
      destruct (heap_sim_lookup _ _ _ _ Hsim Hp) as (n' & Hn' & Hdep & _).
      rewrite Ht in Hn'. injection Hn' as <-.
      rewrite <- Hdep in Hq. pose proof (first_pending_None _ _ _ Hfp Hq) as Hv.
      unfold visited in Hv. destruct Hsome as [nq Hnq].
      destruct (heap_sim_lookup _ _ _ _ Hsim Hnq) as (nq' & Hnq' & _).
      rewrite Hnq' in Hv. specialize (Hmark _ _ Hnq').
      destruct (bool_decide (q ∈ nodes)) eqn:Hb.
      * apply bool_decide_eq_true_1 in Hb. apply list_elem_of_lookup in Hb as [j Hj].
        exists j. split; [apply lookup_lt_Some in Hj; lia|]. by rewrite lookup_app_l by (by eapply lookup_lt_Some).
      * rewrite Hmark in Hv. discriminate.
Qed.

Lemma sort_loop_inv h0 fuel : forall h s nodes h' nodes',
  sort_inv h0 h nodes ->
  sort_loop fuel h s nodes = Ok (h', nodes') ->
  sort_inv h0 h' nodes'.
Proof.
  induction fuel as [|fuel IH]; intros h s nodes h' nodes' Hinv Hrun;
    destruct s as [|t s]; simpl in Hrun; try discriminate.
  - by injection Hrun as <- <-.
  - by injection Hrun as <- <-.
  - destruct (h !! t) as [n|] eqn:Ht; [|discriminate].
    destruct (temp n =? 0) eqn:Htemp; simpl in Hrun.
    + apply Z.eqb_eq in Htemp.
      destruct (first_pending h (dep n)) as [d|] eqn:Hfp.
      * eapply IH; eauto.
      * eapply IH; [|exact Hrun]. eapply sort_inv_append; eauto.
    + eapply IH; eauto.
Qed.

Lemma assign_order_notin nodes : forall i h p,
  p ∉ nodes -> assign_order i nodes h !! p = h !! p.
Proof.
  induction nodes as [|p0 nodes IH]; intros i h p Hp; simpl; [done|].
  apply not_elem_of_cons in Hp as [Hne Hp].
  rewrite IH by done. by apply list_lookup_alter_ne.
Qed.

Lemma assign_order_lookup nodes : forall i h k p n,
  NoDup nodes -> nodes !! k = Some p -> h !! p = Some n ->
  assign_order i nodes h !! p = Some (set_temp (Z.of_nat (i + k)) n).
Proof.
  induction nodes as [|p0 nodes IH]; intros i h k p n Hnd Hk Hp; [by rewrite lookup_nil in Hk|].
  apply NoDup_cons in Hnd as [Hnotin Hnd]. destruct k as [|k]; simpl in *.
  - injection Hk as ->. rewrite assign_order_notin by done.
    rewrite list_lookup_alter_eq, Hp. simpl. do 2 f_equal. lia.
  - assert (p0 <> p) as Hne.
    { intros ->. apply Hnotin. eapply list_elem_of_lookup_2; eauto. }
    rewrite (IH (S i) _ k p n); try done.
    + do 2 f_equal. lia.
    + by rewrite list_lookup_alter_ne.
Qed.

(** ** Termination of the sort *)

Lemma visited_false_lt h p : visited h p = false -> (p < length h)%nat.
Proof.
  unfold visited. destruct (h !! p) eqn:Hp; [|done]. intros _. by eapply lookup_lt_Some.
Qed.

Lemma visited_mark_ne h t v x : t <> x -> visited (alter (set_temp v) t h) x = visited h x.
Proof. intros Hne. unfold visited. by rewrite list_lookup_alter_ne. Qed.

Lemma visited_mark_eq h t n : h !! t = Some n -> visited (alter (set_temp 1) t h) t = true.
Proof. intros Ht. unfold visited. by rewrite list_lookup_alter_eq, Ht. Qed.

Lemma first_pending_Some h ds d :
  first_pending h ds = Some d -> Some d ∈ ds /\ visited h d = false.
Proof.
  induction ds as [|[q|] ds IH]; simpl; [done| |].
  - destruct (visited h q) eqn:Hq.
    + intros H. destruct (IH H). split; [by right | done].
    + intros [= ->]. split; [by left | done].
  - intros H. destruct (IH H). split; [by right | done].
Qed.

Lemma chain_ge h s : forall t rest x, s = t :: rest -> x ∈ chain h s -> (t <= x)%nat.
Proof.
  induction s as [|t0 s IH]; intros t rest x Hs Hx; [done|].
  injection Hs as -> ->. simpl in Hx. destruct (visited h t); [by apply elem_of_nil in Hx|].
  apply elem_of_cons in Hx as [->|Hx]; [lia|].
  destruct rest as [|t' rest']; [by apply elem_of_nil in Hx|].
  destruct (Nat.ltb_spec t t'); [|by apply elem_of_nil in Hx].
  specialize (IH t' rest' x eq_refl Hx). lia.
Qed.

Lemma chain_NoDup h s : NoDup (chain h s).
Proof.
  induction s as [|t s IH]; simpl; [constructor|].
  destruct (visited h t); [constructor|].
  destruct s as [|t' s']; [apply NoDup_singleton|].
  destruct (Nat.ltb_spec t t'); [|apply NoDup_singleton].
  constructor; [|done]. intros Hin.
  pose proof (chain_ge h (t' :: s') t' s' t eq_refl Hin). lia.
Qed.

Lemma chain_pending h s x : x ∈ chain h s -> x ∈ pending h.
Proof.
  induction s as [|t s IH]; simpl; [intros H; by apply elem_of_nil in H|].
  destruct (visited h t) eqn:Ht; [intros H; by apply elem_of_nil in H|].
  intros Hx. apply elem_of_cons in Hx as [->|Hx].
  - apply list_elem_of_filter. split; [done|]. apply elem_of_seq.
    pose proof (visited_false_lt _ _ Ht). lia.
  - destruct s as [|t' s']; [by apply elem_of_nil in Hx|].
    destruct (t <? t')%nat; [auto | by apply elem_of_nil in Hx].
Qed.

Lemma chain_le_pending h s : (length (chain h s) <= length (pending h))%nat.
Proof.
  apply submseteq_length, NoDup_submseteq; [apply chain_NoDup|].
  intros x. apply chain_pending.
Qed.

Lemma pending_mark h t n :
  h !! t = Some n -> visited h t = false ->
  (S (length (pending (alter (set_temp 1) t h))) <= length (pending h))%nat.
Proof.
  intros Ht Hv. change (S (length (pending (alter (set_temp 1) t h))))
    with (length (t :: pending (alter (set_temp 1) t h))).
  apply submseteq_length, NoDup_submseteq.
  - constructor; [|apply NoDup_filter, NoDup_seq].
    intros Hin. apply list_elem_of_filter in Hin as [Hin _].
    rewrite (visited_mark_eq _ _ _ Ht) in Hin. discriminate.
  - intros x Hx. apply list_elem_of_filter. apply elem_of_cons in Hx as [->|Hx].
    + split; [done|]. apply elem_of_seq. pose proof (visited_false_lt _ _ Hv). lia.
    + apply list_elem_of_filter in Hx as [Hx Hr]. rewrite length_alter in Hr.
      split; [|done]. destruct (decide (t = x)) as [->|Hne].
      * rewrite (visited_mark_eq _ _ _ Ht) in Hx. discriminate.
      * by rewrite visited_mark_ne in Hx.
Qed.

Lemma chain_mark h t s :
  (forall t' rest, s = t' :: rest -> (t < t')%nat) ->
  chain (alter (set_temp 1) t h) s = chain h s.
Proof.
  induction s as [|t' s IH]; intros Hhead; simpl; [done|].
  pose proof (Hhead t' s eq_refl) as Hlt.
  rewrite visited_mark_ne by lia. destruct (visited h t'); [done|]. f_equal.
  destruct s as [|t'' s']; [done|].
  destruct (Nat.ltb_spec t' t''); [|done]. apply IH.
  intros u rest [= <- <-]. lia.
Qed.

Lemma acyclic_alter h t v : acyclic h -> acyclic (alter (set_temp v) t h).
Proof.
  intros Hac p n q Hp Hq. rewrite list_lookup_alter in Hp.
  destruct (decide (t = p)) as [->|Hne]; [|eauto].
  destruct (h !! p) as [n0|] eqn:Hp0; [|discriminate]. injection Hp as <-. eauto.
Qed.

(** The sort comes to an end on an acyclic heap: with the stack inside
    the heap, fuel for [potential h s] turns is enough. *)
Lemma sort_loop_terminates fuel : forall h s nodes,
  acyclic h -> Forall (fun t => (t < length h)%nat) s ->
  potential h s <= Z.of_nat fuel ->
  exists r, sort_loop fuel h s nodes = Ok r.
Proof.
  induction fuel as [|fuel IH]; intros h s nodes Hac Hin Hpot;
    (destruct s as [|t s]; [simpl; eauto|]).
  - exfalso. unfold potential in Hpot. pose proof (chain_le_pending h (t :: s)).
    rewrite length_cons in Hpot. lia.
  - apply Forall_cons in Hin as [Ht Hin].
    destruct (lookup_lt_is_Some_2 h t Ht) as [n Hn]. simpl. rewrite Hn.
    assert (Hvis : visited h t = negb (temp n =? 0)) by (unfold visited; by rewrite Hn).
    pose proof (chain_le_pending h s) as Hle.
    destruct (temp n =? 0) eqn:Htemp; simpl in *.
    + destruct (first_pending h (dep n)) as [d|] eqn:Hfp.
      * destruct (first_pending_Some _ _ _ Hfp) as [Hd Hdv].
        pose proof (Hac _ _ _ Hn Hd) as Hlt.
        apply IH; [done| |].
        { constructor; [by apply visited_false_lt|]. by constructor. }
        unfold potential in *. simpl chain. simpl chain in Hpot.
        rewrite Hdv, Hvis. rewrite Hvis in Hpot.
        destruct (Nat.ltb_spec d t); [|lia]. simpl length in *. lia.
      * apply IH; [by apply acyclic_alter| |].
        { rewrite length_alter. done. }
        pose proof (pending_mark h t n Hn Hvis) as Hpm.
        unfold potential in *. simpl chain in Hpot. rewrite Hvis in Hpot.
        simpl length in Hpot.
        destruct s as [|t' s']; [simpl in *; lia|].
        destruct (Nat.ltb_spec t t') as [Hlt|Hge].
        -- rewrite chain_mark; [rewrite length_cons in *; lia|].
           intros u rest [= <- <-]. done.
        -- simpl length in Hpot.
           pose proof (chain_le_pending (alter (set_temp 1) t h) (t' :: s')).
           rewrite length_cons. lia.
    + apply IH; [done|done|]. unfold potential in *. simpl chain in Hpot.
      rewrite Hvis in Hpot. simpl length in Hpot. lia.
Qed.

Lemma pending_le h : (length (pending h) <= length h)%nat.
Proof.
  unfold pending. etransitivity; [apply length_filter|]. by rewrite length_seq.
Qed.

Lemma sort_depth_first_total h s :
  acyclic h -> Forall (fun t => (t < length h)%nat) s ->
  exists r, sort_depth_first h s = Ok r.
Proof.
  intros Hac Hin. unfold sort_depth_first.
  destruct (sort_loop_terminates (sort_fuel h s) h s [] Hac Hin) as (r & ->).
  - unfold potential, sort_fuel. pose proof (pending_le h). lia.
  - simpl. eauto.
Qed.

(** ** What [init] leaves behind *)

Lemma sort_loop_roots h0 fuel : forall h s nodes h' nodes',
  sort_inv h0 h nodes ->
  sort_loop fuel h s nodes = Ok (h', nodes') ->
  forall t, t ∈ s \/ t ∈ nodes -> t ∈ nodes'.
Proof.
  induction fuel as [|fuel IH]; intros h s nodes h' nodes' Hinv Hrun t Ht;
    destruct s as [|t0 s]; simpl in Hrun; try discriminate.
  - injection Hrun as <- <-. destruct Ht as [Ht|Ht]; [by apply elem_of_nil in Ht | done].
  - injection Hrun as <- <-. destruct Ht as [Ht|Ht]; [by apply elem_of_nil in Ht | done].
  - destruct (h !! t0) as [n|] eqn:Ht0; [|discriminate].
    destruct (temp n =? 0) eqn:Htemp; simpl in Hrun.
    + apply Z.eqb_eq in Htemp. destruct (first_pending h (dep n)) as [d|] eqn:Hfp.
      * eapply IH; [exact Hinv | exact Hrun |]. destruct Ht as [Ht|Ht]; [left; by right | by right].
      * eapply IH; [eapply sort_inv_append; eauto | exact Hrun |].
        destruct Ht as [Ht|Ht]; [|right; apply elem_of_app; by left].
        apply elem_of_cons in Ht as [->|Ht]; [|by left].
        right. apply elem_of_app. right. by apply list_elem_of_singleton.
    + eapply IH; [exact Hinv | exact Hrun |]. destruct Ht as [Ht|Ht]; [|by right].
      apply elem_of_cons in Ht as [->|Ht]; [|by left]. right.
      pose proof (inv_mark _ _ _ Hinv _ _ Ht0) as Hm.
      destruct (bool_decide (t0 ∈ nodes)) eqn:Hb; [by apply bool_decide_eq_true_1 in Hb|].
      apply Z.eqb_neq in Htemp. done.
Qed.

Lemma set_temp_neutral n : temp n = 0 -> set_temp 0 n = n.
Proof. destruct n. simpl. by intros ->. Qed.

Lemma heap_neutral_erase h p : heap_neutral h -> set_temp 0 <$> h !! p = h !! p.
Proof.
  intros Hn. destruct (h !! p) as [n|] eqn:Hp; [|done]. simpl.
  by rewrite (set_temp_neutral n (Hn _ _ Hp)).
Qed.

Lemma reset_temp_lookup nodes : forall h p,
  reset_temp nodes h !! p
  = if bool_decide (p ∈ nodes) then set_temp 0 <$> h !! p else h !! p.
Proof.
  unfold reset_temp. induction nodes as [|a nodes IH]; intros h p; simpl; [done|].
  rewrite IH, list_lookup_alter.
  destruct (decide (a = p)) as [->|Hne].
  - rewrite (bool_decide_eq_true_2 (p ∈ p :: nodes)) by (by left).
    destruct (bool_decide (p ∈ nodes)); by destruct (h !! p).
  - assert (bool_decide (p ∈ a :: nodes) = bool_decide (p ∈ nodes)) as ->; [|done].
    apply bool_decide_ext. rewrite elem_of_cons. intuition congruence.
Qed.

(** On a neutral heap the sort hands the heap back as it found it. *)
Lemma sort_depth_first_spec h s h' nodes :
  heap_neutral h -> sort_depth_first h s = Ok (h', nodes) ->
  h' = h /\ NoDup nodes /\ (forall t, t ∈ s -> t ∈ nodes)
  /\ (forall p, p ∈ nodes -> is_Some (h !! p))
  /\ (forall k p n q, nodes !! k = Some p -> h !! p = Some n -> Some q ∈ dep n ->
        is_Some (h !! q) -> exists j, (j < k)%nat /\ nodes !! j = Some q).
Proof.
  intros Hn Hs. unfold sort_depth_first in Hs.
  apply bind_Ok in Hs as ([hs ns] & Hloop & Hs). simpl in Hs. injection Hs as <- <-.
  pose proof (sort_loop_inv h _ _ _ _ _ _ (sort_inv_init h Hn) Hloop) as Hinv.
  pose proof (sort_loop_roots h _ _ _ _ _ _ (sort_inv_init h Hn) Hloop) as Hroots.
  destruct Hinv as [Hsim Hmark Hnd Hrange Hdeps].
  split; [|split; [done|split; [|split; [done|done]]]].
  - apply list_eq. intros p. rewrite reset_temp_lookup.
    destruct (bool_decide (p ∈ ns)) eqn:Hb.
    + by rewrite <- (Hsim p), heap_neutral_erase.
    + rewrite <- (heap_neutral_erase h p Hn), (Hsim p).
      destruct (hs !! p) as [n|] eqn:Hp; [|done]. simpl.
      specialize (Hmark _ _ Hp). rewrite Hb in Hmark. by rewrite set_temp_neutral.
  - intros t Ht. apply Hroots. by left.
Qed.

(** ** The tape-building loop *)

Lemma link_entry_inv nf na a ii e a' : link_entry nf na a ii e = Ok a' -> a' = <[ii := e]> a.
Proof.
  intros H. unfold link_entry in H. apply bind_Ok in H as (u & _ & H).
  apply bind_Ok in H as (v & _ & H). by injection H as <-.
Qed.

Lemma build_tape_prefix nf na h nodes : forall k a,
  (k <= length nodes)%nat ->
  forM (build_step nf na h nodes) (seq 0 k) (replicate (length nodes) AlgEl_default) = Ok a ->
  exists es, mapM (build_entry nf na h) (take k nodes) = Ok es
             /\ a = es ++ replicate (length nodes - k) AlgEl_default.
Proof.
  induction k as [|k IH]; intros a Hk H.
  - simpl in H. injection H as <-. exists []. simpl. by rewrite Nat.sub_0_r.
  - rewrite seq_S, forM_app in H. apply bind_Ok in H as (ak & Hak & H). simpl in H.
    apply bind_Ok in H as (a' & Hstep & H). injection H as <-.
    destruct (IH ak) as (es & Hes & ->); [lia|done|].
    unfold build_step in Hstep. apply bind_Ok in Hstep as (p & Hp & Hstep).
    apply bind_Ok in Hstep as (e & He & Hstep). apply vec_get_inv in Hp.
    apply link_entry_inv in Hstep as ->.
    exists (es ++ [e]). split.
    + rewrite (take_S_r _ _ _ Hp). by apply mapM_snoc.
    + assert (Hlen : length es = k).
      { rewrite (mapM_length _ _ _ Hes), length_take. lia. }
      rewrite insert_app_r_alt by lia. rewrite Hlen, Nat.sub_diag.
      replace (length nodes - k)%nat with (S (length nodes - S k)) by lia.
      simpl. by rewrite <- app_assoc.
Qed.

(** When the loop completes, the tape holds the entries of the sorted
    nodes, in order. *)
Lemma build_tape_entries nf na h nodes a :
  build_tape nf na h nodes = Ok a -> mapM (build_entry nf na h) nodes = Ok a.
Proof.
  intros H. destruct (build_tape_prefix nf na h nodes (length nodes) a) as (es & Hes & ->);
    [done|done|].
  rewrite firstn_all in Hes. by rewrite Nat.sub_diag, app_nil_r.
Qed.

Lemma raw_views_init sp nf na :
  (0 < sp_size sp)%nat -> raw_views nf na (FunctionIO_init sp nf na) = Ok tt.
Proof.
  intros Hsp.
  assert (Hview : raw_view (Matrix_of sp) = Ok tt).
  { unfold raw_view, Matrix_of, vec_get. simpl. destruct (sp_size sp); [lia|done]. }
  unfold raw_views, FunctionIO_init. simpl. rewrite Hview. simpl.
  rewrite forM_unit.
  - simpl. apply forM_unit. intros d Hd. apply elem_of_seq in Hd.
    rewrite (vec_get_nat _ _ (Matrix_of sp)); [done|]. apply lookup_replicate_2. lia.
  - intros d Hd. apply elem_of_seq in Hd.
    rewrite (vec_get_nat _ _ (Matrix_of sp)); [done|]. apply lookup_replicate_2. lia.
Qed.

(** The loop completes when the views of every entry can be taken and
    every dependency slot points below its entry. *)
Lemma build_tape_total nf na h nodes a :
  mapM (build_entry nf na h) nodes = Ok a ->
  (forall ii e, a !! ii = Some e ->
     raw_views nf na (val e) = Ok tt /\ Forall (fun c => c < Z.of_nat ii) (ch e)) ->
  build_tape nf na h nodes = Ok a.
Proof.
  intros Ha Hok. pose proof (mapM_length _ _ _ Ha) as Hlen.
  assert (Hpre : forall k, (k <= length nodes)%nat ->
            forM (build_step nf na h nodes) (seq 0 k)
                 (replicate (length nodes) AlgEl_default)
            = Ok (take k a ++ replicate (length nodes - k) AlgEl_default)).
  { induction k as [|k IH]; intros Hk.
    - simpl. by rewrite Nat.sub_0_r.
    - rewrite seq_S, forM_app, IH by lia. simpl.
      destruct (lookup_lt_is_Some_2 nodes k) as [p Hp]; [lia|].
      apply mapM_Ok_Forall2 in Ha.
      destruct (Forall2_lookup_l _ _ _ _ _ Ha Hp) as (e & He & Hbuild).
      destruct (Hok k e He) as [Hviews Hch].
      unfold build_step. rewrite (vec_get_nat _ _ _ Hp). simpl. rewrite Hbuild. simpl.
      assert (Hins : <[k := e]> (take k a ++ replicate (length nodes - k) AlgEl_default)
                     = take (S k) a ++ replicate (length nodes - S k) AlgEl_default).
      { rewrite insert_app_r_alt by (rewrite length_take; lia).
        rewrite length_take, Nat.min_l, Nat.sub_diag by lia.
        replace (length nodes - k)%nat with (S (length nodes - S k)) by lia.
        simpl. by rewrite (take_S_r _ _ _ He), <- app_assoc. }
      unfold link_entry. rewrite Hins. rewrite forM_unit.
      + simpl. rewrite Hviews. done.
      + intros c Hc. destruct (Z.leb_spec 0 c); [|done].
        pose proof (proj1 (Forall_forall _ _) Hch c Hc) as Hlt. simpl in Hlt.
        destruct (lookup_lt_is_Some_2 a (Z.to_nat c)) as [t Ht]; [lia|].
        assert (Hlook : (take (S k) a ++ replicate (length nodes - S k) AlgEl_default)
                          !! Z.to_nat c = Some t).
        { rewrite lookup_app_l by (rewrite length_take; lia).
          rewrite lookup_take_lt by lia. done. }
        rewrite (vec_get_Zpos _ _ _ H Hlook). simpl. by destruct (Hok _ _ Ht). }
  unfold build_tape. rewrite Hpre by done.
  by rewrite <- Hlen, firstn_all, Nat.sub_diag, app_nil_r.
Qed.

Lemma init_inversion h f h' f' :
  heap_neutral h -> init h f = Ok (h', f') ->
  exists nodes,
    h' = h /\ NoDup nodes /\ (forall t, t ∈ root_stack f -> t ∈ nodes)
    /\ (forall k p n q, nodes !! k = Some p -> h !! p = Some n -> Some q ∈ dep n ->
          is_Some (h !! q) -> exists j, (j < k)%nat /\ nodes !! j = Some q)
    /\ mapM (temp_of (assign_order 0 nodes h)) (inputv f) = Ok (inputv_ind f')
    /\ mapM (temp_of (assign_order 0 nodes h)) (outputv f) = Ok (outputv_ind f')
    /\ mapM (build_entry (nfdir_ f) (nadir_ f) (assign_order 0 nodes h)) nodes = Ok (alg f')
    /\ f' = set_tape (base_init f) (inputv_ind f') (outputv_ind f') (alg f').
Proof.
  intros Hn Hinit. unfold init in Hinit.
  apply bind_Ok in Hinit as ([hs nodes] & Hsort & Hinit). simpl in Hinit.
  apply bind_Ok in Hinit as (iv & Hiv & Hinit).
  apply bind_Ok in Hinit as (ov & Hov & Hinit).
  apply bind_Ok in Hinit as (a & Ha & Hinit). apply build_tape_entries in Ha.
  injection Hinit as <- <-.
  destruct (sort_depth_first_spec _ _ _ _ Hn Hsort) as (-> & Hnd & Hroots & Hrange & Hdeps).
  exists nodes. simpl. repeat (split; [done|]). split; [|done].
  apply list_eq. intros p. rewrite reset_temp_lookup.
  destruct (bool_decide (p ∈ nodes)) eqn:Hb.
  - by rewrite <- (heap_sim_assign nodes 0 h p), heap_neutral_erase.
  - apply assign_order_notin. by apply bool_decide_eq_false_1 in Hb.
Qed.

(** The entry built for the node at position [ii] of the sorted nodes. *)
Lemma build_entry_slots h nodes nf na ii p e :
  NoDup nodes ->
  (forall k p n q, nodes !! k = Some p -> h !! p = Some n -> Some q ∈ dep n ->
     is_Some (h !! q) -> exists j, (j < k)%nat /\ nodes !! j = Some q) ->
  nodes !! ii = Some p ->
  build_entry nf na (assign_order 0 nodes h) p = Ok e ->
  exists n, h !! p = Some n /\ mx e = Some p
            /\ val e = FunctionIO_init (sparsity n) nf na
            /\ Forall2 (slot_ok ii) (dep n) (ch e).
Proof.
  intros Hnd Hdeps Hp Hbuild. set (h1 := assign_order 0 nodes h) in *.
  assert (Hsim1 : heap_sim h1 h) by apply heap_sim_sym, heap_sim_assign.
  unfold build_entry in Hbuild.
  apply bind_Ok in Hbuild as (m & Hm & Hbuild).
  apply bind_Ok in Hbuild as (c & Hc & Hbuild). injection Hbuild as <-. simpl.
  simpl in Hm. destruct (h1 !! p) as [m'|] eqn:Hh1p; [|discriminate]. injection Hm as ->.
  destruct (heap_sim_lookup _ _ _ _ Hsim1 Hh1p) as (n & Hhp & Hdep & Hsp & _).
  exists n. split; [done|]. split; [done|]. split; [by rewrite Hsp|]. rewrite Hdep.
  apply mapM_Ok_Forall2 in Hc.
  apply Forall2_same_length_lookup. split; [by eapply Forall2_length|].
  intros i d z Hd Hz.
  pose proof (proj2 (proj1 (Forall2_same_length_lookup _ _ _) Hc) i d z Hd Hz) as Hres.
  unfold resolve_dep in Hres. destruct d as [q|]; simpl in Hres.
  - right. split; [done|]. unfold temp_of in Hres.
    apply bind_Ok in Hres as (nq & Hnq & Hres). injection Hres as <-.
    simpl in Hnq. destruct (h1 !! q) as [nq'|] eqn:Hh1q; [|discriminate]. injection Hnq as ->.
    destruct (heap_sim_lookup _ _ _ _ Hsim1 Hh1q) as (nq0 & Hhq & _).
    assert (Hin : Some q ∈ dep n).
    { rewrite Hdep. eapply list_elem_of_lookup_2; eauto. }
    destruct (Hdeps ii p n q Hp Hhp Hin (ex_intro _ _ Hhq)) as (j & Hj & Hjq).
    unfold h1 in Hh1q. rewrite (assign_order_lookup _ 0 _ j q nq0 Hnd Hjq Hhq) in Hh1q.
    injection Hh1q as <-. simpl. lia.
  - left. split; [done|]. by injection Hres as <-.
Qed.

(** C1.  On a heap whose transient fields are neutral, every entry of a
    tape built by [init] refers to a node of the heap, and each of its
    resolved dependency slots is the sentinel -1 exactly when the
    dependency reference is null, and is otherwise a non-negative index
    strictly below the entry's own index. *)
Theorem init_topological (h : Heap) (f : MXFunctionInternal) h' f' :
  heap_neutral h ->
  init h f = Ok (h', f') ->
  forall ii e, alg f' !! ii = Some e ->
    exists n, deref h (mx e) = Ok n /\ Forall2 (slot_ok ii) (dep n) (ch e).
Proof.
  intros Hn Hinit ii e He.
  destruct (init_inversion _ _ _ _ Hn Hinit) as (nodes & _ & Hnd & _ & Hdeps & _ & _ & Ha & _).
  destruct (mapM_Ok_lookup _ _ _ _ _ Ha He) as (p & Hp & Hbuild).
  destruct (build_entry_slots _ _ _ _ _ _ _ Hnd Hdeps Hp Hbuild) as (n & Hhp & Hmx & _ & Hch).
  exists n. rewrite Hmx. simpl. by rewrite Hhp.
Qed.

Lemma assign_order_length nodes : forall i h, length (assign_order i nodes h) = length h.
Proof.
  induction nodes as [|p nodes IH]; intros i h; simpl; [done|].
  by rewrite IH, length_alter.
Qed.

Lemma root_stack_elem f t : t ∈ root_stack f <-> Some t ∈ inputv f ++ outputv f.
Proof.
  unfold root_stack. rewrite list_elem_of_In, <- in_rev, <- list_elem_of_In.
  rewrite list_elem_of_omap. split.
  - intros ([x|] & Hx & Hid); simpl in Hid; [|discriminate]. by injection Hid as ->.
  - intros H. by exists (Some t).
Qed.

Lemma slot_ok_below ii ds cs :
  Forall2 (slot_ok ii) ds cs -> Forall (fun c => c < Z.of_nat ii) cs.
Proof.
  induction 1 as [|d c ds cs Hdc _ IH]; constructor; [|done].
  destruct Hdc as [[_ ->]|[_ ?]]; lia.
Qed.

(** [init] completes on a neutral, acyclic heap whose nodes have stored
    entries when every declared input and output is a handle on a node. *)
Lemma init_total h f :
  heap_neutral h -> acyclic h -> stored h -> rooted h f -> exists r, init h f = Ok r.
Proof.
  intros Hn Hac Hst Hroot. unfold init.
  destruct (sort_depth_first_total h (root_stack (base_init f)) Hac) as ([hs nodes] & Hsort).
  { apply Forall_forall. intros t Ht. apply root_stack_elem in Ht. simpl in Ht.
    destruct (proj1 (Forall_forall _ _) Hroot _ Ht) as (p & [= <-] & Hp). done. }
  rewrite Hsort. simpl.
  destruct (sort_depth_first_spec _ _ _ _ Hn Hsort) as (-> & Hnd & _ & Hrange & Hdeps).
  set (h1 := assign_order 0 nodes h).
  assert (Hlen : length h1 = length h) by apply assign_order_length.
  assert (Htemp : forall m, m ∈ inputv f ++ outputv f -> exists z, temp_of h1 m = Ok z).
  { intros m Hm. destruct (proj1 (Forall_forall _ _) Hroot _ Hm) as (p & -> & Hp).
    destruct (lookup_lt_is_Some_2 h1 p) as [n Hnp]; [lia|].
    exists (temp n). unfold temp_of. simpl. by rewrite Hnp. }
  destruct (mapM_total (temp_of h1) (inputv f)) as (iv & ->).
  { apply Forall_forall. intros m Hm. apply Htemp, elem_of_app. by left. }
  destruct (mapM_total (temp_of h1) (outputv f)) as (ov & ->).
  { apply Forall_forall. intros m Hm. apply Htemp, elem_of_app. by right. }
  destruct (mapM_total (build_entry (nfdir_ f) (nadir_ f) h1) nodes) as (a & Ha).
  2:{ rewrite (build_tape_total _ _ _ _ _ Ha); [simpl; eauto|].
      intros ii e He. destruct (mapM_Ok_lookup _ _ _ _ _ Ha He) as (p & Hp & Hbuild).
      destruct (build_entry_slots _ _ _ _ _ _ _ Hnd Hdeps Hp Hbuild)
        as (n & Hhp & _ & -> & Hch).
      split; [by apply raw_views_init, (Hst p) | by eapply slot_ok_below]. }
  apply Forall_forall. intros p Hp. destruct (Hrange p Hp) as [n0 Hn0].
  destruct (heap_sim_lookup _ _ _ _ (heap_sim_assign nodes 0 h) Hn0) as (n & Hnp & Hdep & _).
  fold h1 in Hnp. unfold build_entry. simpl. rewrite Hnp. simpl.
  destruct (mapM_total (resolve_dep h1) (dep n)) as (c & ->); [|simpl; eauto].
  apply Forall_forall. intros d Hd. unfold resolve_dep. destruct d as [q|]; simpl; [|eauto].
  rewrite Hdep in Hd. pose proof (Hac _ _ _ Hn0 Hd) as Hq.
  apply lookup_lt_Some in Hn0.
  destruct (lookup_lt_is_Some_2 h1 q) as [nq Hnq]; [lia|].
  exists (temp nq). unfold temp_of. simpl. by rewrite Hnq.
Qed.

(** ** Construction *)

Lemma check_inputs_spec h : forall l i0,
  Forall (valid_handle h) l ->
  (check_inputs h i0 l = Ok tt /\ forall j, ~ rejected_at h l j)
  \/ (exists j, (forall j', (j' < j)%nat -> ~ rejected_at h l j') /\
        ((null_at l j /\
          check_inputs h i0 l = Throw (CasadiException (null_message (i0 + j))))
         \/ (not_symbolic_at h l j /\
          check_inputs h i0 l = Throw (CasadiException (not_symbolic_message (i0 + j)))))).
Proof.
  induction l as [|m l IH]; intros i0 Hv.
  - left. split; [done|]. intros j [Hj|(p & n & Hj & _)]; unfold null_at in *;
      by rewrite lookup_nil in Hj.
  - apply Forall_cons in Hv as [Hm Hv]. simpl.
    destruct m as [p|]; simpl.
    + destruct Hm as [n Hn]. rewrite Hn. simpl.
      destruct (isSymbolic n) eqn:Hsym; simpl.
      * assert (H0 : ~ rejected_at h (Some p :: l) 0).
        { intros [H|(p' & n' & H & Hn' & Hs)]; [discriminate|].
          injection H as <-. rewrite Hn in Hn'. injection Hn' as <-. congruence. }
        destruct (IH (S i0) Hv) as [[Hok Hnone]|(j & Hmin & Hj)].
        -- left. split; [done|]. intros [|j]; [done|]. exact (Hnone j).
        -- right. exists (S j). split.
           { intros [|j'] Hlt; [done|]. apply (Hmin j'). lia. }
           replace (i0 + S j)%nat with (S i0 + j)%nat by lia. exact Hj.
      * right. exists 0%nat. split; [intros j' Hlt; lia|]. right.
        rewrite Nat.add_0_r. split; [|done]. by exists p, n.
    + right. exists 0%nat. split; [intros j' Hlt; lia|]. left.
      rewrite Nat.add_0_r. done.
Qed.

Lemma alloc_ports_Ok h l :
  Forall (fun m => valid_handle h m /\ m <> None) l ->
  exists ps, alloc_ports h l = Ok ps /\ Forall2 (port_for h) l ps.
Proof.
  induction l as [|m l IH]; intros Hv; simpl.
  - exists []. split; [done|constructor].
  - apply Forall_cons in Hv as [[Hm Hnn] Hv]. destruct (IH Hv) as (ps & -> & Hps).
    destruct m as [p|]; [|done]. destruct Hm as [n Hn]. simpl. rewrite Hn. simpl.
    eexists. split; [done|]. constructor; [|done].
    exists n. simpl. rewrite Hn. split; [done|]. split; [done|]. apply length_replicate.
Qed.

Lemma alloc_ports_not_Throw h l e : alloc_ports h l <> Throw e.
Proof.
  induction l as [|m l IH]; simpl; [done|].
  destruct m as [p|]; simpl; [|done]. destruct (h !! p); simpl; [|done].
  destruct (alloc_ports h l); simpl; congruence.
Qed.

Lemma accepted_not_null h l :
  Forall (valid_handle h) l -> (forall i, ~ rejected_at h l i) ->
  Forall (fun m => valid_handle h m /\ m <> None) l.
Proof.
  intros Hv Hacc. apply Forall_lookup. intros i m Hm. split.
  - by eapply (proj1 (Forall_lookup _ _) Hv).
  - intros ->. apply (Hacc i). by left.
Qed.

(** C7, as amended.  With handles that are null or point into the heap:
    construction raises a construction error if and only if some declared
    input is null or is not a symbolic leaf; the message then names the
    first offending argument number and the kind of violation found there; and
    when no input is rejected and no declared output is null, construction
    succeeds with one port per declared input and output, sized to the
    sparsity of its expression. *)
Theorem construct_validation (h : Heap) (ins outs : list MX) :
  Forall (valid_handle h) ins ->
  Forall (valid_handle h) outs ->
  ((exists msg, construct h ins outs = Throw (CasadiException msg))
     <-> exists i, rejected_at h ins i)
  /\ (forall msg, construct h ins outs = Throw (CasadiException msg) ->
        exists i, (forall j, (j < i)%nat -> ~ rejected_at h ins j)
                  /\ ((null_at ins i /\ msg = null_message i)
                      \/ (not_symbolic_at h ins i /\ msg = not_symbolic_message i)))
  /\ ((forall i, ~ rejected_at h ins i) -> Forall (fun m => m <> None) outs ->
        exists f, construct h ins outs = Ok f
                  /\ Forall2 (port_for h) ins (input_ f)
                  /\ Forall2 (port_for h) outs (output_ f)).
Proof.
  intros Hins Houts. unfold construct.
  destruct (check_inputs_spec h ins 0 Hins) as [[Hok Hnone]|(j & Hmin & Hj)].
  - rewrite Hok. simpl.
    destruct (alloc_ports_Ok h ins (accepted_not_null _ _ Hins Hnone)) as (ps & Hps & Hports).
    rewrite Hps. simpl.
    assert (Hno : forall msg,
      (outs0 <- alloc_ports h outs ;;
       Ok (mkFun ins outs ps outs0 default_ndir default_ndir false None 0 [] [] [] []))
      <> Throw (CasadiException msg)).
    { intros msg. pose proof (alloc_ports_not_Throw h outs) as Hnt.
      destruct (alloc_ports h outs) as [qs|e| |]; simpl; try congruence.
      by destruct (Hnt e). }
    split; [|split].
    + split; [intros [msg Hmsg]; by apply Hno in Hmsg | intros [i Hi]; by apply Hnone in Hi].
    + intros msg Hmsg. by apply Hno in Hmsg.
    + intros _ Hnn.
      destruct (alloc_ports_Ok h outs) as (qs & Hqs & Hq).
      { apply Forall_lookup. intros i m Hm. split.
        - by eapply (proj1 (Forall_lookup _ _) Houts).
        - by eapply (proj1 (Forall_lookup _ _) Hnn). }
      rewrite Hqs. simpl. eexists. split; [done|]. simpl. done.
  - simpl in Hj. split; [|split].
    + split; [intros _|intros _].
      * exists j. destruct Hj as [[Hj _]|[Hj _]]; [by left | by right].
      * destruct Hj as [[_ ->]|[_ ->]]; simpl; eauto.
    + intros msg Hmsg. exists j. split; [exact Hmin|].
      destruct Hj as [[Hj Hc]|[Hj Hc]]; rewrite Hc in Hmsg; simpl in Hmsg;
        injection Hmsg as <-; [left | right]; done.
    + intros Hnone. exfalso. apply (Hnone j).
      destruct Hj as [[Hj _]|[Hj _]]; [by left | by right].
Qed.

(** ** Evaluation: what a sweep leaves unchanged *)

Lemma fmap_eq_lookup {A B : Type} (F : A -> B) (l l' : list A) i x :
  F <$> l = F <$> l' -> l !! i = Some x -> exists y, l' !! i = Some y /\ F y = F x.
Proof.
  intros Heq Hx. assert (H : (F <$> l') !! i = Some (F x)).
  { rewrite <- Heq, list_lookup_fmap, Hx. done. }
  rewrite list_lookup_fmap in H. destruct (l' !! i) as [y|]; [|discriminate].
  exists y. split; [done|]. by injection H.
Qed.

Lemma fmap_eq_length {A B : Type} (F : A -> B) (l l' : list A) :
  F <$> l = F <$> l' -> length l = length l'.
Proof. intros H. apply (f_equal length) in H. by rewrite !length_fmap in H. Qed.

Lemma ready_skeleton h nfdir nadir f f' :
  skeleton f' = skeleton f -> ready h nfdir nadir f -> ready h nfdir nadir f'.
Proof.
  intros Hsk [Hi Ho He Hip Hop]. unfold skeleton, frame in Hsk.
  injection Hsk as Hiv Hov _ _ _ _ _ Hii Hoi Halg Hin Hout.
  pose proof (fmap_eq_length _ _ _ Halg) as Hlen.
  pose proof (fmap_eq_length _ _ _ Hin) as Hlin.
  pose proof (fmap_eq_length _ _ _ Hout) as Hlout.
  split.
  - intros ind Hind. rewrite Hii, Hlen. apply Hi. lia.
  - intros ind Hind. rewrite Hoi, Hlen, Hlout. apply Ho. by rewrite <- Hov.
  - intros el e Hel. destruct (fmap_eq_lookup _ _ _ _ _ Halg Hel) as (e0 & He0 & Hs).
    unfold entry_shape in Hs. injection Hs as Hmx HF HA.
    rewrite <- Hmx, <- HF, <- HA. eauto.
  - intros ind io Hio. destruct (fmap_eq_lookup _ _ _ _ _ Hin Hio) as (io0 & Hio0 & Hs).
    unfold port_shape in Hs. injection Hs as HF HA. rewrite <- HF, <- HA. eauto.
  - intros ind io Hio. destruct (fmap_eq_lookup _ _ _ _ _ Hout Hio) as (io0 & Hio0 & Hs).
    unfold port_shape in Hs. injection Hs as HF HA. rewrite <- HF, <- HA. eauto.
Qed.

Lemma fmap_alter_same {A B : Type} (F : A -> B) (g : A -> A) i (l : list A) :
  (forall x, F (g x) = F x) -> F <$> alter g i l = F <$> l.
Proof.
  intros Hg. revert i. induction l as [|x l IH]; intros [|i]; simpl; try done.
  - by rewrite Hg.
  - f_equal. apply IH.
Qed.

Lemma entry_shape_with_data g e : entry_shape (with_val (with_data g) e) = entry_shape e.
Proof. reflexivity. Qed.

Lemma entry_shape_with_dataF d g e : entry_shape (with_val (with_dataF d g) e) = entry_shape e.
Proof. unfold entry_shape. simpl. by rewrite length_alter. Qed.

Lemma entry_shape_with_dataA d g e : entry_shape (with_val (with_dataA d g) e) = entry_shape e.
Proof. unfold entry_shape. simpl. by rewrite length_alter. Qed.

Lemma port_shape_with_data g io : port_shape (with_data g io) = port_shape io.
Proof. reflexivity. Qed.

Lemma port_shape_with_dataF d g io : port_shape (with_dataF d g io) = port_shape io.
Proof. unfold port_shape. simpl. by rewrite length_alter. Qed.

Lemma port_shape_with_dataA d g io : port_shape (with_dataA d g io) = port_shape io.
Proof. unfold port_shape. simpl. by rewrite length_alter. Qed.

Lemma vec_at_nat {A : Type} (v : list A) i x : v !! i = Some x -> vec_at v (Z.of_nat i) = Ok x.
Proof.
  intros H. unfold vec_at. destruct (Z.ltb_spec (Z.of_nat i) 0); [lia|].
  by rewrite Nat2Z.id, H.
Qed.

Lemma vec_at_lt {A : Type} (v : list A) (i : nat) (n : Z) :
  Z.of_nat i < n -> n <= Z.of_nat (length v) -> exists x, v !! i = Some x /\ vec_at v (Z.of_nat i) = Ok x.
Proof.
  intros Hi Hn. destruct (lookup_lt_is_Some_2 v i) as [x Hx]; [lia|].
  exists x. split; [done|]. by apply vec_at_nat.
Qed.

Lemma mapped_slot_Ok (x_ind : list Z) (a : list AlgEl) ind slot :
  x_ind !! ind = Some slot -> 0 <= slot < Z.of_nat (length a) ->
  exists e, a !! Z.to_nat slot = Some e /\ mapped_slot x_ind a ind = Ok (Z.to_nat slot, e).
Proof.
  intros Hs Hr. destruct (lookup_lt_is_Some_2 a (Z.to_nat slot)) as [e He]; [lia|].
  exists e. split; [done|]. unfold mapped_slot. rewrite (vec_get_nat _ _ _ Hs). simpl.
  unfold vec_get. destruct (Z.ltb_spec slot 0); [lia|]. by rewrite He.
Qed.

Lemma upto_lt (n : Z) (d : nat) : d ∈ upto n -> Z.of_nat d < n.
Proof. unfold upto. rewrite elem_of_seq. lia. Qed.

(** ** Evaluation: loops *)

(** A loop whose every turn succeeds and keeps [I] succeeds and keeps [I]. *)
Lemma forM_inv {A S : Type} (I : S -> Prop) (g : A -> S -> Outcome S) (l : list A) :
  (forall a s, a ∈ l -> I s -> exists s', g a s = Ok s' /\ I s') ->
  forall s, I s -> exists s', forM g l s = Ok s' /\ I s'.
Proof.
  induction l as [|a l IH]; intros Hg s Hs; simpl; [eauto|].
  destruct (Hg a s) as (s1 & -> & Hs1); [apply list_elem_of_here | done |]. simpl.
  apply IH; [|done]. intros b s' Hb. apply Hg. by apply list_elem_of_further.
Qed.

(** The calls of a loop are the calls of its turns, in order. *)
Lemma forM_trace {A : Type} (g : A -> MXFunctionInternal -> Outcome MXFunctionInternal)
  (ev : A -> list Event) (l : list A) :
  (forall a f f', g a f = Ok f' -> trace f' = trace f ++ ev a) ->
  forall f f', forM g l f = Ok f' -> trace f' = trace f ++ concat (ev <$> l).
Proof.
  intros Hg. induction l as [|a l IH]; intros f f' H; simpl in *.
  - injection H as <-. by rewrite app_nil_r.
  - apply bind_Ok in H as (f1 & H1 & H). rewrite (IH _ _ H), (Hg _ _ _ H1).
    by rewrite <- app_assoc.
Qed.

(** A property that every turn keeps is kept by the loop. *)
Lemma forM_keeps {A S : Type} (Q : S -> Prop) (g : A -> S -> Outcome S) (l : list A) :
  (forall a s s', g a s = Ok s' -> Q s -> Q s') ->
  forall s s', forM g l s = Ok s' -> Q s -> Q s'.
Proof.
  intros Hg. induction l as [|a l IH]; intros s s' H Hs; simpl in H.
  - by injection H as <-.
  - apply bind_Ok in H as (s1 & H1 & H). eauto.
Qed.

(** What turn [a] establishes, and no later turn undoes, holds at the end
    for every [a] of the list. *)
Lemma forM_establish {A S : Type} (P : A -> S -> Prop) (g : A -> S -> Outcome S) (l : list A) :
  (forall a s s', g a s = Ok s' -> P a s') ->
  (forall a b s s', g a s = Ok s' -> P b s -> P b s') ->
  forall s s', forM g l s = Ok s' -> forall a, a ∈ l -> P a s'.
Proof.
  intros Hest Hkeep. induction l as [|b l IH]; intros s s' H a Ha; simpl in H.
  - by apply elem_of_nil in Ha.
  - apply bind_Ok in H as (s1 & H1 & H). apply elem_of_cons in Ha as [->|Ha].
    + eapply (forM_keeps (P b)); [|exact H|eauto]. intros c t t'. apply Hkeep.
    + eauto.
Qed.

(** ** Evaluation: the single steps *)

Ltac invert_step H :=
  repeat (let x := fresh "x" in let Hx := fresh "Hx" in
          apply bind_Ok in H as (x & Hx & H)).

Ltac one_event H := invert_step H; injection H as <-; reflexivity.

Lemma pass_input_trace ind f f' :
  pass_input ind f = Ok f' -> trace f' = trace f ++ [EvSetInput ind].
Proof. intros H. unfold pass_input in H. one_event H. Qed.

Lemma pass_fwd_seed_trace dir ind f f' :
  pass_fwd_seed dir ind f = Ok f' -> trace f' = trace f ++ [EvSetFwdSeed ind dir].
Proof. intros H. unfold pass_fwd_seed in H. one_event H. Qed.

Lemma get_output_trace ind f f' :
  get_output ind f = Ok f' -> trace f' = trace f ++ [EvGetOutput ind].
Proof. intros H. unfold get_output in H. one_event H. Qed.

Lemma get_fwd_sens_trace dir ind f f' :
  get_fwd_sens dir ind f = Ok f' -> trace f' = trace f ++ [EvGetFwdSens ind dir].
Proof. intros H. unfold get_fwd_sens in H. one_event H. Qed.

Lemma clear_adj_trace el dir f f' :
  clear_adj el dir f = Ok f' -> trace f' = trace f ++ [EvClearAdj el dir].
Proof. intros H. unfold clear_adj in H. one_event H. Qed.

Lemma pass_adj_seed_trace ind dir f f' :
  pass_adj_seed ind dir f = Ok f' -> trace f' = trace f ++ [EvSetAdjSeed ind dir].
Proof. intros H. unfold pass_adj_seed in H. one_event H. Qed.

Lemma eval_adjoint_trace h nadir el f f' :
  eval_adjoint h nadir el f = Ok f' -> trace f' = trace f ++ [EvEvaluate el 0 nadir].
Proof. intros H. unfold eval_adjoint in H. one_event H. Qed.

Lemma get_adj_sens_trace ind dir f f' :
  get_adj_sens ind dir f = Ok f' -> trace f' = trace f ++ [EvGetAdjSens ind dir].
Proof. intros H. unfold get_adj_sens in H. one_event H. Qed.

Ltac same_skeleton :=
  unfold skeleton, frame; simpl;
  rewrite ?fmap_alter_same; [reflexivity | intros; simpl; auto using
    entry_shape_with_data, entry_shape_with_dataF, entry_shape_with_dataA,
    port_shape_with_data, port_shape_with_dataF, port_shape_with_dataA ..].

Section Steps.
Variables (h : Heap) (nfdir nadir : Z) (f : MXFunctionInternal).
Hypothesis Hready : ready h nfdir nadir f.

Lemma pass_input_ok ind :
  (ind < length (input_ f))%nat ->
  exists f', pass_input ind f = Ok f' /\ skeleton f' = skeleton f.
Proof.
  intros Hind. destruct (ready_inputs _ _ _ _ Hready ind Hind) as (slot & Hslot & Hr).
  destruct (mapped_slot_Ok _ _ _ _ Hslot Hr) as (e & He & Hm).
  destruct (lookup_lt_is_Some_2 (input_ f) ind Hind) as [p Hp].
  unfold pass_input. rewrite Hm, (vec_at_nat _ _ _ Hp). simpl.
  eexists. split; [done|]. same_skeleton.
Qed.

Lemma pass_fwd_seed_ok dir ind :
  Z.of_nat dir < nfdir -> (ind < length (input_ f))%nat ->
  exists f', pass_fwd_seed dir ind f = Ok f' /\ skeleton f' = skeleton f.
Proof.
  intros Hdir Hind. destruct (ready_inputs _ _ _ _ Hready ind Hind) as (slot & Hslot & Hr).
  destruct (mapped_slot_Ok _ _ _ _ Hslot Hr) as (e & He & Hm).
  destruct (lookup_lt_is_Some_2 (input_ f) ind Hind) as [p Hp].
  destruct (ready_entries _ _ _ _ Hready _ _ He) as (HF & _).
  destruct (ready_in_ports _ _ _ _ Hready _ _ Hp) as (HpF & _).
  destruct (vec_at_lt _ _ _ Hdir HF) as (m & _ & Hm1).
  destruct (vec_at_lt _ _ _ Hdir HpF) as (src & _ & Hm2).
  unfold pass_fwd_seed. rewrite Hm. simpl. rewrite Hm1, (vec_at_nat _ _ _ Hp). simpl.
  rewrite Hm2. simpl. eexists. split; [done|]. same_skeleton.
Qed.

Lemma get_output_ok ind :
  (ind < length (outputv f))%nat ->
  exists f', get_output ind f = Ok f' /\ skeleton f' = skeleton f.
Proof.
  intros Hind. destruct (ready_outputs _ _ _ _ Hready ind Hind) as (Hlt & slot & Hslot & Hr).
  destruct (mapped_slot_Ok _ _ _ _ Hslot Hr) as (e & He & Hm).
  destruct (lookup_lt_is_Some_2 (output_ f) ind Hlt) as [p Hp].
  unfold get_output. rewrite Hm, (vec_at_nat _ _ _ Hp). simpl.
  eexists. split; [done|]. same_skeleton.
Qed.

Lemma get_fwd_sens_ok dir ind :
  Z.of_nat dir < nfdir -> (ind < length (outputv f))%nat ->
  exists f', get_fwd_sens dir ind f = Ok f' /\ skeleton f' = skeleton f.
Proof.
  intros Hdir Hind. destruct (ready_outputs _ _ _ _ Hready ind Hind) as (Hlt & slot & Hslot & Hr).
  destruct (mapped_slot_Ok _ _ _ _ Hslot Hr) as (e & He & Hm).
  destruct (lookup_lt_is_Some_2 (output_ f) ind Hlt) as [p Hp].
  destruct (ready_entries _ _ _ _ Hready _ _ He) as (HF & _).
  destruct (ready_out_ports _ _ _ _ Hready _ _ Hp) as (HpF & _).
  destruct (vec_at_lt _ _ _ Hdir HF) as (m & _ & Hm1).
  destruct (vec_at_lt _ _ _ Hdir HpF) as (src & _ & Hm2).
  unfold get_fwd_sens. rewrite Hm. simpl. rewrite Hm1, (vec_at_nat _ _ _ Hp). simpl.
  rewrite Hm2. simpl. eexists. split; [done|]. same_skeleton.
Qed.

Lemma clear_adj_ok el dir :
  (el < length (alg f))%nat -> Z.of_nat dir < nadir ->
  exists f', clear_adj el dir f = Ok f' /\ skeleton f' = skeleton f.
Proof.
  intros Hel Hdir. destruct (lookup_lt_is_Some_2 (alg f) el Hel) as [e He].
  destruct (ready_entries _ _ _ _ Hready _ _ He) as (_ & HA & _).
  destruct (vec_at_lt _ _ _ Hdir HA) as (m & _ & Hm1).
  unfold clear_adj. rewrite (vec_get_nat _ _ _ He). simpl. rewrite Hm1. simpl.
  eexists. split; [done|]. same_skeleton.
Qed.

Lemma pass_adj_seed_ok ind dir :
  (ind < length (outputv f))%nat -> Z.of_nat dir < nadir ->
  exists f', pass_adj_seed ind dir f = Ok f' /\ skeleton f' = skeleton f.
Proof.
  intros Hind Hdir. destruct (ready_outputs _ _ _ _ Hready ind Hind) as (Hlt & slot & Hslot & Hr).
  destruct (mapped_slot_Ok _ _ _ _ Hslot Hr) as (e & He & Hm).
  destruct (lookup_lt_is_Some_2 (output_ f) ind Hlt) as [p Hp].
  destruct (ready_entries _ _ _ _ Hready _ _ He) as (_ & HA & _).
  destruct (ready_out_ports _ _ _ _ Hready _ _ Hp) as (_ & HpA).
  destruct (vec_at_lt _ _ _ Hdir HA) as (m & _ & Hm1).
  destruct (vec_at_lt _ _ _ Hdir HpA) as (src & _ & Hm2).
  unfold pass_adj_seed. rewrite Hm. simpl. rewrite Hm1, (vec_at_nat _ _ _ Hp). simpl.
  rewrite Hm2. simpl. eexists. split; [done|]. same_skeleton.
Qed.

Lemma get_adj_sens_ok ind dir :
  (ind < length (input_ f))%nat -> Z.of_nat dir < nadir ->
  exists f', get_adj_sens ind dir f = Ok f' /\ skeleton f' = skeleton f.
Proof.
  intros Hind Hdir. destruct (ready_inputs _ _ _ _ Hready ind Hind) as (slot & Hslot & Hr).
  destruct (mapped_slot_Ok _ _ _ _ Hslot Hr) as (e & He & Hm).
  destruct (lookup_lt_is_Some_2 (input_ f) ind Hind) as [p Hp].
  destruct (ready_entries _ _ _ _ Hready _ _ He) as (_ & HA & _).
  destruct (ready_in_ports _ _ _ _ Hready _ _ Hp) as (_ & HpA).
  destruct (vec_at_lt _ _ _ Hdir HA) as (m & _ & Hm1).
  destruct (vec_at_lt _ _ _ Hdir HpA) as (src & _ & Hm2).
  unfold get_adj_sens. rewrite Hm. simpl. rewrite Hm1, (vec_at_nat _ _ _ Hp). simpl.
  rewrite Hm2. simpl. eexists. split; [done|]. same_skeleton.
Qed.

Lemma eval_adjoint_ok el :
  (el < length (alg f))%nat ->
  exists f', eval_adjoint h nadir el f = Ok f' /\ skeleton f' = skeleton f.
Proof.
  intros Hel. destruct (lookup_lt_is_Some_2 (alg f) el Hel) as [e He].
  destruct (ready_entries _ _ _ _ Hready _ _ He) as (_ & _ & n & Hn & Hkeep).
  unfold eval_adjoint. rewrite (vec_get_nat _ _ _ He). simpl. rewrite Hn. simpl.
  eexists. split; [done|]. unfold skeleton, frame. simpl. by rewrite Hkeep.
Qed.

Lemma eval_forward_ok el :
  (el < length (alg f))%nat ->
  exists f', eval_forward h nfdir el f = Ok f' /\ skeleton f' = skeleton f.
Proof.
  intros Hel. destruct (lookup_lt_is_Some_2 (alg f) el Hel) as [e He].
  destruct (ready_entries _ _ _ _ Hready _ _ He) as (_ & _ & n & Hn & Hkeep).
  unfold eval_forward. rewrite (vec_get_nat _ _ _ He). simpl. rewrite Hn. simpl.
  assert (Hsk : skeleton (log (EvEvaluate el nfdir 0)
                   (set_alg f (node_evaluate n el nfdir 0 (alg f)))) = skeleton f).
  { unfold skeleton, frame. simpl. by rewrite Hkeep. }
  destruct (liftfun_ f) as [liftfun|]; [|eauto].
  destruct (isNonLinear n); [|eauto].
  destruct (lookup_lt_is_Some_2 (node_evaluate n el nfdir 0 (alg f)) el) as [e' He'].
  { rewrite <- (fmap_eq_length _ _ _ (Hkeep el nfdir 0 (alg f))) in Hel. done. }
  rewrite (vec_get_nat _ _ _ He'). simpl. eexists. split; [done|].
  unfold skeleton, frame. simpl. rewrite fmap_alter_same; [by rewrite Hkeep|].
  intros x. apply entry_shape_with_data.
Qed.
End Steps.

(** ** Evaluation: the phases *)

Lemma skeleton_lengths f f' :
  skeleton f' = skeleton f ->
  ports f' = ports f /\ outports f' = outports f /\ entries f' = entries f.
Proof.
  unfold skeleton, frame. intros Hsk. injection Hsk as _ Hov _ _ _ _ _ _ _ Halg Hin _.
  unfold ports, outports, entries.
  by rewrite (fmap_eq_length _ _ _ Halg), (fmap_eq_length _ _ _ Hin), Hov.
Qed.

Lemma in_ports f ind : ind ∈ ports f -> (ind < length (input_ f))%nat.
Proof. unfold ports. rewrite elem_of_seq. lia. Qed.

Lemma in_outports f ind : ind ∈ outports f -> (ind < length (outputv f))%nat.
Proof. unfold outports. rewrite elem_of_seq. lia. Qed.

Lemma in_entries f el : el ∈ entries f -> (el < length (alg f))%nat.
Proof. unfold entries. rewrite elem_of_seq. lia. Qed.

Lemma in_rev_entries f el : el ∈ rev (entries f) -> (el < length (alg f))%nat.
Proof. rewrite list_elem_of_In, <- in_rev, <- list_elem_of_In. apply in_entries. Qed.

Lemma same_in_ports f g f0 ind :
  skeleton f = skeleton f0 -> skeleton g = skeleton f0 ->
  ind ∈ ports f -> (ind < length (input_ g))%nat.
Proof.
  intros Hf Hg Hin. apply in_ports.
  destruct (skeleton_lengths _ _ Hf) as (Hp & _), (skeleton_lengths _ _ Hg) as (Hq & _).
  congruence.
Qed.

Lemma same_in_outports f g f0 ind :
  skeleton f = skeleton f0 -> skeleton g = skeleton f0 ->
  ind ∈ outports f -> (ind < length (outputv g))%nat.
Proof.
  intros Hf Hg Hin. apply in_outports.
  destruct (skeleton_lengths _ _ Hf) as (_ & Hp & _), (skeleton_lengths _ _ Hg) as (_ & Hq & _).
  congruence.
Qed.

Lemma same_in_entries f g f0 el :
  skeleton f = skeleton f0 -> skeleton g = skeleton f0 ->
  el ∈ entries f \/ el ∈ rev (entries f) -> (el < length (alg g))%nat.
Proof.
  intros Hf Hg Hin.
  destruct (skeleton_lengths _ _ Hf) as (_ & _ & Hp), (skeleton_lengths _ _ Hg) as (_ & _ & Hq).
  destruct Hin as [Hin|Hin]; [apply in_entries | apply in_rev_entries]; congruence.
Qed.

(** A loop, or a loop nest, over steps that succeed on every instance laid
    out like [f0] and keep its layout. *)
Lemma loop_ok {A : Type} (g : A -> MXFunctionInternal -> Outcome MXFunctionInternal)
  (l : list A) (f0 : MXFunctionInternal) :
  (forall a f, a ∈ l -> skeleton f = skeleton f0 ->
     exists f', g a f = Ok f' /\ skeleton f' = skeleton f0) ->
  forall f, skeleton f = skeleton f0 ->
    exists f', forM g l f = Ok f' /\ skeleton f' = skeleton f0.
Proof. intros Hg. apply (forM_inv (fun f => skeleton f = skeleton f0)). exact Hg. Qed.

Lemma nest_ok {A B : Type} (g : A -> B -> MXFunctionInternal -> Outcome MXFunctionInternal)
  (l1 : list A) (l2 : list B) (f0 : MXFunctionInternal) :
  (forall a b f, a ∈ l1 -> b ∈ l2 -> skeleton f = skeleton f0 ->
     exists f', g a b f = Ok f' /\ skeleton f' = skeleton f0) ->
  forall f, skeleton f = skeleton f0 ->
    exists f', forM (fun a => forM (g a) l2) l1 f = Ok f' /\ skeleton f' = skeleton f0.
Proof.
  intros Hg. apply loop_ok. intros a f Ha. apply loop_ok. intros b f' Hb. by apply Hg.
Qed.

Lemma nest_trace {A B : Type} (g : A -> B -> MXFunctionInternal -> Outcome MXFunctionInternal)
  (ev : A -> B -> list Event) (l1 : list A) (l2 : list B) :
  (forall a b f f', g a b f = Ok f' -> trace f' = trace f ++ ev a b) ->
  forall f f', forM (fun a => forM (g a) l2) l1 f = Ok f' ->
    trace f' = trace f ++ for_each l1 (fun a => for_each l2 (ev a)).
Proof.
  intros Hg. apply forM_trace. intros a. apply forM_trace. apply Hg.
Qed.

Section Phases.
Variables (h : Heap) (nfdir nadir : Z) (f0 : MXFunctionInternal).
Hypothesis Hready : ready h nfdir nadir f0.

Let same (f : MXFunctionInternal) : Prop := skeleton f = skeleton f0.

Lemma same_ready f : same f -> ready h nfdir nadir f.
Proof. intros Hs. by apply (ready_skeleton _ _ _ f0). Qed.

Lemma forward_sweep_ok f :
  same f -> exists f', forward_sweep h nfdir f = Ok f' /\ same f'.
Proof.
  intros Hs. unfold forward_sweep.
  destruct (loop_ok (eval_forward h nfdir) (entries f) f0) with (f := f) as (f' & Hf' & Hs');
    [|done|eauto].
  intros el f1 Hel Hs1.
  destruct (eval_forward_ok h nfdir nadir f1 (same_ready _ Hs1) el) as (f2 & Hf2 & Hs2).
  - eapply (same_in_entries _ _ f0); [exact Hs | exact Hs1 | by left].
  - exists f2. split; [done|]. unfold same in *. congruence.
Qed.

Lemma forward_pass_ok f :
  same f -> exists f', forward_pass h nfdir f = Ok f' /\ same f'.
Proof.
  intros Hs. unfold forward_pass.
  destruct (loop_ok pass_input (ports f) f0) with (f := f) as (f1 & -> & Hs1); [|done|].
  { intros ind g Hind Hg.
    destruct (pass_input_ok h nfdir nadir g (same_ready _ Hg) ind) as (g' & Hg' & Hsg).
    - eapply (same_in_ports _ _ f0); [exact Hs | exact Hg | done].
    - exists g'. split; [done|]. unfold same in *. congruence. }
  simpl.
  destruct (nest_ok pass_fwd_seed (upto nfdir) (ports f1) f0)
    with (f := f1) as (f2 & -> & Hs2); [|done|].
  { intros dir ind g Hdir Hind Hg.
    destruct (pass_fwd_seed_ok h nfdir nadir g (same_ready _ Hg) dir ind) as (g' & Hg' & Hsg).
    - by apply upto_lt.
    - eapply (same_in_ports _ _ f0); [exact Hs1 | exact Hg | done].
    - exists g'. split; [done|]. unfold same in *. congruence. }
  simpl. destruct (forward_sweep_ok f2 Hs2) as (f3 & -> & Hs3). simpl.
  destruct (loop_ok get_output (outports f3) f0) with (f := f3) as (f4 & -> & Hs4); [|done|].
  { intros ind g Hind Hg.
    destruct (get_output_ok h nfdir nadir g (same_ready _ Hg) ind) as (g' & Hg' & Hsg).
    - eapply (same_in_outports _ _ f0); [exact Hs3 | exact Hg | done].
    - exists g'. split; [done|]. unfold same in *. congruence. }
  simpl.
  destruct (nest_ok get_fwd_sens (upto nfdir) (outports f4) f0)
    with (f := f4) as (f5 & -> & Hs5); [|done|eauto].
  intros dir ind g Hdir Hind Hg.
  destruct (get_fwd_sens_ok h nfdir nadir g (same_ready _ Hg) dir ind) as (g' & Hg' & Hsg).
  - by apply upto_lt.
  - eapply (same_in_outports _ _ f0); [exact Hs4 | exact Hg | done].
  - exists g'. split; [done|]. unfold same in *. congruence.
Qed.

Lemma clear_adjoint_ok f :
  same f -> exists f', clear_adjoint nadir f = Ok f' /\ same f'.
Proof.
  intros Hs. unfold clear_adjoint.
  destruct (nest_ok clear_adj (entries f) (upto nadir) f0) with (f := f)
    as (f' & Hf' & Hs'); [|done|eauto].
  intros el dir g Hel Hdir Hg.
  destruct (clear_adj_ok h nfdir nadir g (same_ready _ Hg) el dir) as (g' & Hg' & Hsg).
  - eapply (same_in_entries _ _ f0); [exact Hs | exact Hg | by left].
  - by apply upto_lt.
  - exists g'. split; [done|]. unfold same in *. congruence.
Qed.

Lemma pass_adjoint_seeds_ok f :
  same f -> exists f', pass_adjoint_seeds nadir f = Ok f' /\ same f'.
Proof.
  intros Hs. unfold pass_adjoint_seeds.
  destruct (nest_ok pass_adj_seed (outports f) (upto nadir) f0) with (f := f)
    as (f' & Hf' & Hs'); [|done|eauto].
  intros ind dir g Hind Hdir Hg.
  destruct (pass_adj_seed_ok h nfdir nadir g (same_ready _ Hg) ind dir) as (g' & Hg' & Hsg).
  - eapply (same_in_outports _ _ f0); [exact Hs | exact Hg | done].
  - by apply upto_lt.
  - exists g'. split; [done|]. unfold same in *. congruence.
Qed.

Lemma adjoint_sweep_ok f :
  same f -> exists f', adjoint_sweep h nadir f = Ok f' /\ same f'.
Proof.
  intros Hs. unfold adjoint_sweep.
  destruct (loop_ok (eval_adjoint h nadir) (rev (entries f)) f0) with (f := f)
    as (f' & Hf' & Hs'); [|done|eauto].
  intros el g Hel Hg.
  destruct (eval_adjoint_ok h nfdir nadir g (same_ready _ Hg) el) as (g' & Hg' & Hsg).
  - eapply (same_in_entries _ _ f0); [exact Hs | exact Hg | by right].
  - exists g'. split; [done|]. unfold same in *. congruence.
Qed.

Lemma get_adjoint_sens_ok f :
  same f -> exists f', get_adjoint_sens nadir f = Ok f' /\ same f'.
Proof.
  intros Hs. unfold get_adjoint_sens.
  destruct (nest_ok get_adj_sens (ports f) (upto nadir) f0) with (f := f)
    as (f' & Hf' & Hs'); [|done|eauto].
  intros ind dir g Hind Hdir Hg.
  destruct (get_adj_sens_ok h nfdir nadir g (same_ready _ Hg) ind dir) as (g' & Hg' & Hsg).
  - eapply (same_in_ports _ _ f0); [exact Hs | exact Hg | done].
  - by apply upto_lt.
  - exists g'. split; [done|]. unfold same in *. congruence.
Qed.
End Phases.

(** ** Evaluation: the adjoint pass *)

Lemma vec_at_inv {A : Type} (v : list A) (i : nat) x :
  vec_at v (Z.of_nat i) = Ok x -> v !! i = Some x.
Proof.
  unfold vec_at. destruct (Z.of_nat i <? 0); [discriminate|]. rewrite Nat2Z.id.
  destruct (v !! i); [|discriminate]. by intros [= ->].
Qed.

Lemma all_zero_fill m : all_zero (fill_m 0%float m).
Proof. unfold all_zero, fill_m. simpl. by apply Forall_replicate. Qed.

Lemma clear_adj_zeroes el dir f f' :
  clear_adj el dir f = Ok f' -> adj_zeroed f' el dir.
Proof.
  intros H. unfold clear_adj in H. invert_step H. injection H as <-.
  apply vec_get_inv in Hx. apply vec_at_inv in Hx0.
  exists (with_val (with_dataA dir (fill_m 0%float)) x), (fill_m 0%float x0). simpl.
  rewrite list_lookup_alter_eq, Hx. split; [done|].
  rewrite list_lookup_alter_eq, Hx0. split; [done|]. apply all_zero_fill.
Qed.

Lemma clear_adj_keeps_zeroed el dir el' dir' f f' :
  clear_adj el dir f = Ok f' -> adj_zeroed f el' dir' -> adj_zeroed f' el' dir'.
Proof.
  intros H (e & m & He & Hm & Hz). unfold clear_adj in H. invert_step H. injection H as <-.
  unfold adj_zeroed. simpl. rewrite list_lookup_alter.
  destruct (decide (el = el')) as [->|Hne]; [|by exists e, m].
  rewrite He. simpl. destruct (decide (dir = dir')) as [->|Hnd].
  - eexists _, (fill_m 0%float m). split; [done|]. simpl.
    rewrite list_lookup_alter_eq, Hm. split; [done|]. apply all_zero_fill.
  - eexists _, m. split; [done|]. simpl. by rewrite list_lookup_alter_ne.
Qed.

Lemma clear_adj_length el dir f f' :
  clear_adj el dir f = Ok f' -> length (alg f') = length (alg f).
Proof.
  intros H. unfold clear_adj in H. invert_step H. injection H as <-. simpl.
  apply length_alter.
Qed.

Lemma clear_adjoint_zeroes nadir f f' :
  clear_adjoint nadir f = Ok f' -> all_adj_zero nadir f'.
Proof.
  intros H el dir Hel Hdir. unfold clear_adjoint in H.
  assert (Hlen : length (alg f') = length (alg f)).
  { refine (forM_keeps (fun s => length (alg s) = length (alg f)) _ _ _ _ _ H eq_refl).
    intros a s s' Hs.
    refine (forM_keeps (fun s => length (alg s) = length (alg f)) _ _ _ _ _ Hs).
    intros d t t' Ht Hl.
    by rewrite (clear_adj_length _ _ _ _ Ht). }
  pose proof (forM_establish
    (fun el s => forall dir, dir ∈ upto nadir -> adj_zeroed s el dir)
    (fun el => forM (clear_adj el) (upto nadir)) (entries f)) as Hall.
  refine (Hall _ _ f f' H el _ dir _).
  - intros a s s' Hs.
    refine (forM_establish (fun d s => adj_zeroed s a d) (clear_adj a) (upto nadir) _ _ s s' Hs).
    + intros d t t'. apply clear_adj_zeroes.
    + intros d d' t t'. apply clear_adj_keeps_zeroed.
  - intros a b s s' Hs Hb d Hd.
    refine (forM_keeps (fun s => adj_zeroed s b d) _ _ _ _ _ Hs (Hb d Hd)).
    intros d' t t'. apply clear_adj_keeps_zeroed.
  - unfold entries. rewrite elem_of_seq. lia.
  - unfold upto. rewrite elem_of_seq. lia.
Qed.

Lemma clear_adjoint_trace nadir f f' :
  clear_adjoint nadir f = Ok f' ->
  trace f' = trace f
    ++ for_each (entries f) (fun el => for_each (upto nadir) (fun dir => [EvClearAdj el dir])).
Proof. apply nest_trace. apply clear_adj_trace. Qed.

Lemma pass_adjoint_seeds_trace nadir f f' :
  pass_adjoint_seeds nadir f = Ok f' ->
  trace f' = trace f
    ++ for_each (outports f) (fun ind => for_each (upto nadir) (fun dir => [EvSetAdjSeed ind dir])).
Proof. apply nest_trace. apply pass_adj_seed_trace. Qed.

Lemma adjoint_sweep_trace h nadir f f' :
  adjoint_sweep h nadir f = Ok f' ->
  trace f' = trace f ++ for_each (rev (entries f)) (fun el => [EvEvaluate el 0 nadir]).
Proof. apply forM_trace. apply eval_adjoint_trace. Qed.

Lemma get_adjoint_sens_trace nadir f f' :
  get_adjoint_sens nadir f = Ok f' ->
  trace f' = trace f
    ++ for_each (ports f) (fun ind => for_each (upto nadir) (fun dir => [EvGetAdjSens ind dir])).
Proof. apply nest_trace. apply get_adj_sens_trace. Qed.

(** ** Evaluation: the lifting callback *)

Lemma eval_forward_calls h nfdir el f f' :
  eval_forward h nfdir el f = Ok f' ->
  liftfun_ f' = liftfun_ f /\ liftfun_ud_ f' = liftfun_ud_ f /\
  exists e n, alg f !! el = Some e /\ deref h (mx e) = Ok n /\
    trace f' = trace f ++ EvEvaluate el nfdir 0
                 :: lift_events f n el (node_evaluate n el nfdir 0 (alg f)).
Proof.
  intros H. unfold eval_forward in H.
  apply bind_Ok in H as (e & He & H). apply bind_Ok in H as (n & Hn & H).
  apply vec_get_inv in He. unfold lift_events.
  destruct (liftfun_ f) as [liftfun|] eqn:Hl.
  - destruct (isNonLinear n) eqn:Hnl.
    + apply bind_Ok in H as (e' & He' & H). apply vec_get_inv in He'.
      injection H as <-. simpl. repeat (split; [done|]). exists e, n.
      repeat (split; [done|]). unfold primal. rewrite He', Hnl. simpl.
      by rewrite <- app_assoc.
    + injection H as <-. simpl. repeat (split; [done|]). exists e, n. by rewrite Hnl.
  - injection H as <-. simpl. repeat (split; [done|]). by exists e, n.
Qed.

(** One turn: its calls and what it leaves in the tape. *)
Lemma eval_forward_turn h nfdir el f f' :
  eval_forward h nfdir el f = Ok f' ->
  liftfun_ f' = liftfun_ f /\ liftfun_ud_ f' = liftfun_ud_ f /\
  exists e n, alg f !! el = Some e /\ deref h (mx e) = Ok n /\
    trace f' = trace f ++ EvEvaluate el nfdir 0
                 :: (lift_turn (liftfun_ f) (liftfun_ud_ f) n el
                       (node_evaluate n el nfdir 0 (alg f))).1 /\
    alg f' = (lift_turn (liftfun_ f) (liftfun_ud_ f) n el
                (node_evaluate n el nfdir 0 (alg f))).2.
Proof.
  intros H. unfold eval_forward in H.
  apply bind_Ok in H as (e & He & H). apply bind_Ok in H as (n & Hn & H).
  apply vec_get_inv in He. unfold lift_turn.
  destruct (liftfun_ f) as [liftfun|] eqn:Hl.
  - destruct (isNonLinear n) eqn:Hnl.
    + apply bind_Ok in H as (e' & He' & H). apply vec_get_inv in He'.
      injection H as <-. simpl. repeat (split; [done|]). exists e, n.
      rewrite Hnl. simpl. repeat (split; [done|]). unfold primal. rewrite He'. simpl.
      split; [by rewrite <- app_assoc | done].
    + injection H as <-. simpl. repeat (split; [done|]). exists e, n. by rewrite Hnl.
  - injection H as <-. simpl. repeat (split; [done|]). by exists e, n.
Qed.

Lemma forward_prefix_turns h nfdir f : forall k fk,
  forM (eval_forward h nfdir) (seq 0 k) f = Ok fk ->
  liftfun_ fk = liftfun_ f /\ liftfun_ud_ fk = liftfun_ud_ f /\
  exists calls, trace fk = trace f ++ concat calls
                /\ Forall2 (step_calls h nfdir (liftfun_ f) (liftfun_ud_ f) f) (seq 0 k) calls.
Proof.
  induction k as [|k IH]; intros fk Hk.
  - simpl in Hk. injection Hk as <-. repeat (split; [done|]).
    exists []. simpl. rewrite app_nil_r. split; [done|constructor].
  - rewrite seq_S, forM_app in Hk. simpl in Hk.
    apply bind_Ok in Hk as (f1 & Hf1 & Hk). apply bind_Ok in Hk as (f2 & Hf2 & Hk).
    injection Hk as <-.
    destruct (IH _ Hf1) as (Hl & Hud & calls & Htr & Hcalls).
    destruct (eval_forward_turn _ _ _ _ _ Hf2)
      as (Hl2 & Hud2 & e & n & He & Hn & Htr2 & Halg).
    rewrite Hl, Hud in Htr2, Halg.
    split; [congruence|]. split; [congruence|].
    eexists (calls ++ [_]). split.
    + rewrite Htr2, Htr, concat_app. simpl. by rewrite app_nil_r, <- app_assoc.
    + rewrite seq_S. apply Forall2_app; [done|]. constructor; [|constructor].
      by exists f1, f2, e, n.
Qed.


(** On a ready instance the whole sweep completes, with these calls. *)
Corollary forward_sweep_lifting_ready (h : Heap) (nfdir nadir : Z) (f : MXFunctionInternal) :
  ready h nfdir nadir f ->
  exists f' calls, forward_sweep h nfdir f = Ok f'
    /\ trace f' = trace f ++ concat calls
    /\ Forall2 (step_calls h nfdir (liftfun_ f) (liftfun_ud_ f) f) (entries f) calls.
Proof.
  intros Hready.
  destruct (forward_sweep_ok h nfdir nadir f Hready f eq_refl) as (f' & Hf' & _).
  destruct (forward_prefix_turns _ _ _ _ _ Hf') as (_ & _ & calls & Htr & Hcalls).
  by exists f', calls.
Qed.

(** ** Evaluation before initialisation *)

Lemma forM_empty_nest {A B S : Type} (g : A -> B -> S -> Outcome S) (l : list A) (s : S) :
  forM (fun a => forM (g a) []) l s = Ok s.
Proof. induction l as [|a l IH]; simpl; auto. Qed.

Lemma forM_idle {A S : Type} (l : list A) (s : S) :
  forM (fun _ s' => Ok s') l s = Ok s.
Proof. induction l as [|a l IH]; simpl; auto. Qed.

Lemma evaluate_empty (h : Heap) (nfdir nadir : Z) (f : MXFunctionInternal) :
  input_ f = [] -> outputv f = [] -> alg f = [] -> evaluate h nfdir nadir f = Ok f.
Proof.
  intros Hi Ho Ha. unfold evaluate, forward_pass, forward_sweep, ports, outports, entries.
  repeat (first [rewrite Hi | rewrite Ho | rewrite Ha | rewrite forM_empty_nest
                 | rewrite forM_idle]; simpl).
  destruct (0 <? nadir); [|done].
  unfold adjoint_pass, clear_adjoint, pass_adjoint_seeds, adjoint_sweep, get_adjoint_sens,
    ports, outports, entries.
  by repeat (first [rewrite Hi | rewrite Ho | rewrite Ha | rewrite forM_empty_nest
                 | rewrite forM_idle]; simpl).
Qed.

(** C3 fails on the code.  [evaluate] does not look at [isInit()]: on an
    instance built from no inputs and no outputs and never initialised it
    runs through its (empty) loops and returns normally, whatever the
    direction counts. *)
Theorem evaluate_without_init (h : Heap) (nfdir nadir : Z) :
  exists f, construct h [] [] = Ok f /\ isInit f = false
            /\ evaluate h nfdir nadir f = Ok f.
Proof.
  eexists. split; [reflexivity|]. split; [reflexivity|]. by apply evaluate_empty.
Qed.

(** [jac] and [adFwd] do look at [isInit()], and refuse. *)
Lemma adFwd_requires_init rule (h : Heap) (fseed : list MX) (f : MXFunctionInternal) :
  isInit f = false -> adFwd rule h fseed f = Throw (CasadiAssertion "isInit()").
Proof. intros Hinit. unfold adFwd. by rewrite Hinit. Qed.

Lemma jac_requires_init rule (h : Heap) (iind : Z) (f : MXFunctionInternal) :
  isInit f = false -> jac rule h iind f = Throw (CasadiAssertion "isInit()").
Proof. intros Hinit. unfold jac. by rewrite Hinit. Qed.

(** With a declared input the same call indexes the empty [inputv_ind]:
    undefined behaviour, and still no assertion. *)
Lemma evaluate_without_init_input (nfdir nadir : Z) :
  exists f, construct heap_mul [Some 0%nat] [] = Ok f /\ isInit f = false
            /\ evaluate heap_mul nfdir nadir f = Undefined.
Proof. eexists. split; [reflexivity|]. split; reflexivity. Qed.

(** ** Symbolic differentiation: the seeds *)

Lemma deref_app h ext m n : deref h m = Ok n -> deref (h ++ ext) m = Ok n.
Proof.
  destruct m as [p|]; simpl; [|done].
  destruct (h !! p) as [n'|] eqn:Hp; [|done]. intros [= ->].
  by rewrite (lookup_app_l_Some _ _ _ _ Hp).
Qed.

Section SeedProofs.
Variable MXNode_adFwd : Heap -> MXNode -> list MX -> list MXNode * MX.

(** C9.  On an initialised instance [adFwd] applied to an empty list of
    seeds has undefined behaviour: the column count of the first seed is
    read before anything looks at the length of the list. *)
Theorem adFwd_empty_seeds (h : Heap) (f : MXFunctionInternal) :
  isInit f = true -> adFwd MXNode_adFwd h [] f = Undefined.
Proof. intros Hinit. unfold adFwd. by rewrite Hinit. Qed.

(** A function without declared inputs has no seed to offer: [jac] then
    indexes the empty [inputv_ind]. *)
Lemma jac_no_inputs (h : Heap) (f : MXFunctionInternal) (iind : Z) :
  isInit f = true -> inputv_ind f = [] -> jac MXNode_adFwd h iind f = Undefined.
Proof.
  intros Hinit Hind. unfold jac, jac_seeds, vec_get. rewrite Hinit, Hind. simpl.
  by destruct (iind <? 0).
Qed.

Lemma jac_seeds_prefix h f iind ncol :
  has_input_nodes h f ->
  forall k, (k <= length (input_ f))%nat ->
    forM (jac_seed f iind ncol) (seq 0 k) ([], h)
    = Ok ((fun ind => Some (length h + ind)%nat) <$> seq 0 k,
          h ++ ((fun ind => if Z.of_nat ind =? iind then eye_node ncol
                            else zeros_node (input_rows h f ind) ncol) <$> seq 0 k)).
Proof.
  intros Hnodes. induction k as [|k IH]; intros Hk.
  - simpl. by rewrite app_nil_r.
  - rewrite seq_S, forM_app, IH by lia. simpl.
    destruct (Hnodes k) as [n Hn]; [lia|].
    assert (Hrows : input_rows h f k = sp_size1 (sparsity n)).
    { unfold input_rows. by rewrite Hn. }
    unfold input_node in Hn. apply bind_Ok in Hn as (se & Hse & Hn).
    unfold jac_seed. rewrite Hse. simpl. unfold MX_size1.
    rewrite (deref_app _ _ _ _ Hn). simpl.
    rewrite !fmap_app. simpl. rewrite Hrows.
    destruct (Z.of_nat k =? iind); unfold MX_eye, MX_zeros, alloc; simpl;
      by rewrite length_app, length_fmap, length_seq, <- app_assoc.
Qed.

(** C5.  On an initialised instance whose input ports are mapped to
    entries of the tape, and for an input index [iind] in range,
    [jac(iind)] stores one new seed node per declared input, in port
    order, and returns what [adFwd] returns for these seeds: the seed
    of port [iind] is an identity with as many rows and columns as input
    [iind] has rows, and the seed of any other port is a zero matrix
    with that port's row count and that same column count. *)
Theorem jac_builds_seeds (h : Heap) (f : MXFunctionInternal) (iind : Z) :
  isInit f = true ->
  has_input_nodes h f ->
  0 <= iind < Z.of_nat (length (input_ f)) ->
  let fseed := (fun ind => Some (length h + ind)%nat) <$> ports f in
  let h1 := h ++ (jac_seed_node h f iind <$> ports f) in
  jac MXNode_adFwd h iind f = adFwd MXNode_adFwd h1 fseed f
  /\ length fseed = length (input_ f)
  /\ (forall ind, (ind < length (input_ f))%nat ->
        jac_seed_node h f iind ind
        = if decide (Z.of_nat ind = iind)
          then eye_node (input_rows h f (Z.to_nat iind))
          else zeros_node (input_rows h f ind) (input_rows h f (Z.to_nat iind)))
  /\ (forall ind, (ind < length (input_ f))%nat ->
        deref h1 (default None (fseed !! ind)) = Ok (jac_seed_node h f iind ind))
  /\ sp_size1 (sparsity (eye_node (input_rows h f (Z.to_nat iind))))
     = input_rows h f (Z.to_nat iind)
  /\ sp_size2 (sparsity (eye_node (input_rows h f (Z.to_nat iind))))
     = input_rows h f (Z.to_nat iind).
Proof.
  intros Hinit Hnodes Hiind fseed h1.
  assert (Hseeds : jac_seeds h iind f = Ok (fseed, h1)).
  { unfold jac_seeds. destruct (Hnodes (Z.to_nat iind)) as [n Hn]; [lia|].
    assert (Hrows : input_rows h f (Z.to_nat iind) = sp_size1 (sparsity n)).
    { unfold input_rows. by rewrite Hn. }
    unfold input_node, mapped_slot in Hn. rewrite Z2Nat.id in Hn by lia.
    apply bind_Ok in Hn as (se & Hse & Hn).
    apply bind_Ok in Hse as (slot & Hslot & Hse).
    apply bind_Ok in Hse as (e & He & Hse). injection Hse as <-. simpl in Hn.
    rewrite Hslot. simpl. rewrite He. simpl. unfold MX_size1. rewrite Hn. simpl.
    unfold ports. rewrite (jac_seeds_prefix h f iind _ Hnodes) by lia.
    unfold fseed, h1, ports, jac_seed_node. by rewrite Hrows. }
  split; [|split; [|split; [|split; [|split]]]].
  - unfold jac. rewrite Hinit. simpl. by rewrite Hseeds.
  - unfold fseed, ports. by rewrite length_fmap, length_seq.
  - intros ind Hind. unfold jac_seed_node.
    destruct (Z.eqb_spec (Z.of_nat ind) iind); by destruct (decide _).
  - intros ind Hind. unfold fseed, h1, ports.
    rewrite list_lookup_fmap, lookup_seq_lt by done. simpl.
    rewrite lookup_app_r by lia.
    replace (length h + ind - length h)%nat with ind by lia.
    by rewrite list_lookup_fmap, lookup_seq_lt.
  - reflexivity.
  - reflexivity.
Qed.
End SeedProofs.

(** ** Symbolic differentiation: the walk *)

Lemma vec_get_not_Throw {A : Type} (v : list A) i e : vec_get v i <> Throw e.
Proof. unfold vec_get. destruct (i <? 0); [done|]. by destruct (v !! Z.to_nat i). Qed.

Lemma vec_get_Z_inv {A : Type} (v : list A) (i : Z) x :
  vec_get v i = Ok x -> 0 <= i /\ v !! Z.to_nat i = Some x.
Proof.
  unfold vec_get. destruct (Z.ltb_spec i 0); [discriminate|].
  destruct (v !! Z.to_nat i); [|discriminate]. intros [= ->]. by split.
Qed.

Lemma vec_get_Z {A : Type} (v : list A) (i : Z) x :
  0 <= i -> v !! Z.to_nat i = Some x -> vec_get v i = Ok x.
Proof.
  intros Hi Hx. unfold vec_get. destruct (Z.ltb_spec i 0); [lia|]. by rewrite Hx.
Qed.

Lemma mapM_Throw {A B : Type} (g : A -> Outcome B) (l : list A) e :
  mapM g l = Throw e -> exists a, a ∈ l /\ g a = Throw e.
Proof.
  induction l as [|a l IH]; simpl; [done|]. intros H.
  destruct (g a) as [b|e'| |] eqn:Hg; simpl in H; try discriminate.
  - destruct (mapM g l) as [bs|e'| |]; simpl in H; try discriminate.
    destruct IH as (a' & Ha' & Hg'); [done|]. exists a'. split; [by right | done].
  - exists a. split; [by left | congruence].
Qed.

Lemma forM_Throw {A S : Type} (g : A -> S -> Outcome S) (l : list A) e : forall s,
  forM g l s = Throw e -> exists a s', a ∈ l /\ g a s' = Throw e.
Proof.
  induction l as [|a l IH]; intros s H; simpl in H; [done|].
  destruct (g a s) as [s1|e'| |] eqn:Hg; simpl in H; try discriminate.
  - destruct (IH _ H) as (a' & s' & Ha' & Hg'). exists a', s'. split; [by right | done].
  - exists a, s. split; [by left | congruence].
Qed.

Section WalkProofs.
Variable MXNode_adFwd : Heap -> MXNode -> list MX -> list MXNode * MX.
Variables (f : MXFunctionInternal) (ncol : Z).

Let step := adFwd_step MXNode_adFwd f ncol.

(** What one turn of the walk does to the memo and to the heap. *)
Lemma adFwd_step_inv el dw hk dw' hk' :
  step el (dw, hk) = Ok (dw', hk') ->
  length dw' = length dw /\ (exists ext, hk' = hk ++ ext)
  /\ (forall j, j <> el -> dw' !! j = dw !! j)
  /\ (forall s, dw !! el = Some (Some s) -> dw' !! el = Some (Some s))
  /\ (dw !! el = Some None ->
      forall e n, alg f !! el = Some e -> deref hk (mx e) = Ok n -> isConstant n = true ->
        dw' !! el = Some (Some (length hk))
        /\ hk' = hk ++ [zeros_node (sp_numel (sparsity n)) ncol]).
Proof.
  intros H. unfold step, adFwd_step in H. simpl in H.
  apply bind_Ok in H as (d & Hd & H). apply vec_get_inv in Hd.
  destruct d as [s|]; simpl in H.
  - injection H as <- <-. split; [done|]. split; [by exists []; rewrite app_nil_r|].
    split; [done|]. split; [done|]. intros Hnone. congruence.
  - apply bind_Ok in H as (e & He & H). apply vec_get_inv in He.
    apply bind_Ok in H as (n & Hn & H).
    assert (Hlt : (el < length dw)%nat) by (by eapply lookup_lt_Some).
    destruct (isConstant n) eqn:Hc.
    + injection H as <- <-. split; [apply length_insert|].
      split; [by eexists|]. split; [intros j Hj; by apply list_lookup_insert_ne|].
      split; [intros s Hs; congruence|].
      intros _ e' n' He' Hn' _. rewrite He in He'. injection He' as <-.
      rewrite Hn in Hn'. injection Hn' as <-.
      split; [|done]. by rewrite list_lookup_insert_eq.
    + apply bind_Ok in H as (u & _ & H). apply bind_Ok in H as (seed & _ & H).
      injection H as <- <-. split; [apply length_insert|].
      split; [by eexists|]. split; [intros j Hj; by apply list_lookup_insert_ne|].
      split; [intros s Hs; congruence|].
      intros _ e' n' He' Hn' Hc'. rewrite He in He'. injection He' as <-.
      rewrite Hn in Hn'. injection Hn' as <-. congruence.
Qed.

Lemma adFwd_steps_inv l : forall dw hk dw' hk',
  forM step l (dw, hk) = Ok (dw', hk') ->
  length dw' = length dw /\ (exists ext, hk' = hk ++ ext)
  /\ (forall j, j ∉ l -> dw' !! j = dw !! j)
  /\ (forall j s, dw !! j = Some (Some s) -> dw' !! j = Some (Some s)).
Proof.
  induction l as [|a l IH]; intros dw hk dw' hk' H; simpl in H.
  - injection H as <- <-. split; [done|]. split; [by exists []; rewrite app_nil_r|]. done.
  - apply bind_Ok in H as ([dw1 hk1] & H1 & H).
    destruct (adFwd_step_inv _ _ _ _ _ H1) as (Hl1 & [ext1 ->] & Hne1 & Hkeep1 & _).
    destruct (IH _ _ _ _ H) as (Hl & [ext ->] & Hne & Hkeep).
    split; [congruence|]. split; [exists (ext1 ++ ext); by rewrite app_assoc|].
    split.
    + intros j Hj. apply not_elem_of_cons in Hj as [Hja Hj]. rewrite Hne, Hne1; done.
    + intros j s Hs. apply Hkeep. destruct (decide (j = a)) as [->|Hja]; [auto|].
      by rewrite Hne1.
Qed.

(** The turn of the walk for a slot of the memo that is null and whose
    entry stands for a constant node: when the walk has passed the
    entries before it, the turn completes and stores in the slot a new
    zero expression with as many rows as the node has elements and [ncol]
    columns; and when the walk completes, the slot still holds it. *)
Lemma adFwd_constant_turn (h : Heap) (derwork : list MX) el e n :
  derwork !! el = Some None ->
  alg f !! el = Some e -> deref h (mx e) = Ok n -> isConstant n = true ->
  let z := zeros_node (sp_numel (sparsity n)) ncol in
  sp_size1 (sparsity z) = sp_numel (sparsity n) /\ sp_size2 (sparsity z) = ncol
  /\ (forall dw1 h1,
        forM (adFwd_step MXNode_adFwd f ncol) (seq 0 el) (derwork, h) = Ok (dw1, h1) ->
        adFwd_step MXNode_adFwd f ncol el (dw1, h1)
        = Ok (<[el := Some (length h1)]> dw1, h1 ++ [z]))
  /\ (forall derwork' h',
        adFwd_fill MXNode_adFwd f ncol derwork h = Ok (derwork', h') ->
        deref h' (default None (derwork' !! el)) = Ok z).
Proof.
  intros Hnull He Hn Hc z.
  assert (Hlt : (el < length derwork)%nat) by (by eapply lookup_lt_Some).
  assert (Hstep : forall dw1 h1,
    forM step (seq 0 el) (derwork, h) = Ok (dw1, h1) ->
    step el (dw1, h1) = Ok (<[el := Some (length h1)]> dw1, h1 ++ [z])).
  { intros dw1 h1 H1.
    destruct (adFwd_steps_inv _ _ _ _ _ H1) as (_ & [ext1 ->] & Hne1 & _).
    unfold step, adFwd_step. simpl.
    rewrite (vec_get_nat _ _ None) by (rewrite Hne1; [done|]; rewrite elem_of_seq; lia).
    simpl. rewrite (vec_get_nat _ _ _ He). simpl.
    rewrite (deref_app _ _ _ _ Hn). simpl. by rewrite Hc. }
  split; [done|]. split; [done|]. split; [exact Hstep|].
  intros derwork' h' Hfill. unfold adFwd_fill in Hfill.
  assert (Hsplit : seq 0 (length derwork)
                   = seq 0 el ++ [el] ++ seq (S el) (length derwork - S el)).
  { replace (length derwork) with (el + S (length derwork - S el))%nat at 1 by lia.
    by rewrite seq_app. }
  rewrite Hsplit, forM_app in Hfill.
  apply bind_Ok in Hfill as ([dw1 h1] & H1 & Hfill). simpl in Hfill.
  fold step in H1, Hfill. rewrite (Hstep _ _ H1) in Hfill. simpl in Hfill.
  destruct (adFwd_steps_inv _ _ _ _ _ Hfill) as (_ & [ext ->] & _ & Hkeep).
  assert (Hlt1 : (el < length dw1)%nat).
  { destruct (adFwd_steps_inv _ _ _ _ _ H1) as (-> & _). done. }
  rewrite (Hkeep el (length h1)) by (by apply list_lookup_insert_eq). simpl.
  rewrite lookup_app_l by (rewrite !length_app; simpl; lia).
  by rewrite lookup_app_r, Nat.sub_diag by lia.
Qed.
End WalkProofs.

(** ** Symbolic differentiation: outcome of the walk *)

Section OutcomeProofs.
Variable MXNode_adFwd : Heap -> MXNode -> list MX -> list MXNode * MX.
Variables (h : Heap) (f : MXFunctionInternal) (ncol : Z).
Hypothesis Htape : tape_ok h f.

Let step := adFwd_step MXNode_adFwd f ncol.

(** A turn of the walk either completes or fails the assertion on an
    orphan; it has no other outcome. *)
Lemma adFwd_step_cases el dw ext :
  length dw = length (alg f) -> (el < length dw)%nat ->
  (exists st, step el (dw, h ++ ext) = Ok st /\ ~ orphan h f dw el)
  \/ (step el (dw, h ++ ext) = Throw seed_assertion /\ orphan h f dw el).
Proof.
  intros Hlen Hel. unfold step, adFwd_step. simpl.
  destruct (lookup_lt_is_Some_2 dw el Hel) as [d Hd].
  rewrite (vec_get_nat _ _ _ Hd). simpl.
  destruct d as [s|]; simpl.
  { left. eexists. split; [done|]. intros (e & n & Hnull & _). congruence. }
  destruct (lookup_lt_is_Some_2 (alg f) el) as [e He]; [lia|].
  rewrite (vec_get_nat _ _ _ He). simpl.
  destruct (tape_entries _ _ Htape _ _ He) as ([n Hn] & Hch).
  rewrite (deref_app _ _ _ _ Hn). simpl.
  destruct (isConstant n) eqn:Hc.
  { left. eexists. split; [done|]. intros (e' & n' & _ & He' & Hn' & Hc' & _).
    rewrite He in He'. injection He' as <-. congruence. }
  destruct (ch e) as [|c cs] eqn:Hche; simpl.
  { right. split; [done|]. exists e, n. done. }
  left. destruct (mapM_total (collect_seed dw) (c :: cs)) as (seed & Hseed).
  { eapply Forall_impl; [exact Hch|]. intros x Hx. simpl in Hx. unfold collect_seed.
    destruct (Z.leb_spec 0 x); [|by eexists].
    destruct (lookup_lt_is_Some_2 dw (Z.to_nat x)) as [y Hy]; [lia|].
    exists y. by apply vec_get_Z. }
  simpl in Hseed. rewrite Hseed. simpl. eexists. split; [done|].
  intros (e' & n' & _ & He' & _ & _ & Hch'). rewrite He in He'. injection He' as <-.
  congruence.
Qed.

(** A slot the turn for [a] does not own keeps its orphan status. *)
Lemma orphan_other a el dw ext dw' hk' :
  step a (dw, h ++ ext) = Ok (dw', hk') -> a <> el ->
  (orphan h f dw' el <-> orphan h f dw el).
Proof.
  intros Hs Hne. destruct (adFwd_step_inv _ _ _ _ _ _ _ _ Hs) as (_ & _ & Hother & _).
  unfold orphan. by rewrite Hother.
Qed.

Lemma adFwd_steps_outcome l : forall dw ext,
  length dw = length (alg f) -> NoDup l -> (forall el, el ∈ l -> (el < length dw)%nat) ->
  ((exists st, forM step l (dw, h ++ ext) = Ok st)
     /\ forall el, el ∈ l -> ~ orphan h f dw el)
  \/ (forM step l (dw, h ++ ext) = Throw seed_assertion
      /\ exists el, el ∈ l /\ orphan h f dw el).
Proof.
  induction l as [|a l IH]; intros dw ext Hlen Hnd Hin; simpl.
  - left. split; [eauto|]. intros el Hel. by apply elem_of_nil in Hel.
  - apply NoDup_cons in Hnd as [Ha Hnd].
    destruct (adFwd_step_cases a dw ext Hlen) as [([dw1 hk1] & Hs & Hno)|[Hs Horph]].
    { apply Hin. by left. }
    + rewrite Hs. simpl.
      destruct (adFwd_step_inv _ _ _ _ _ _ _ _ Hs) as (Hl1 & [ext1 ->] & _).
      rewrite <- app_assoc.
      destruct (IH dw1 (ext ++ ext1)) as [[Hok Hnone]|[Hthrow (el & Hel & Horph)]];
        [congruence | done | | |].
      * intros el Hel. rewrite Hl1. apply Hin. by right.
      * left. split; [done|]. intros el Hel. apply elem_of_cons in Hel as [->|Hel]; [done|].
        rewrite <- (orphan_other a el dw ext dw1 _ Hs); [by apply Hnone|].
        intros ->. done.
      * right. split; [done|]. exists el. split; [by right|].
        rewrite <- (orphan_other a el dw ext dw1 _ Hs); [done|]. intros ->. done.
    + rewrite Hs. simpl. right. split; [done|]. exists a. split; [by left | done].
Qed.

(** The memo after the seeds are passed: one slot per entry, and null
    wherever no input port is mapped. *)
Lemma adFwd_seed_memo_ok (fseed : list MX) :
  (length (input_ f) <= length fseed)%nat ->
  exists dw, adFwd_seed_memo f fseed = Ok dw /\ length dw = length (alg f)
    /\ forall el, (el < length (alg f))%nat ->
         (forall ind, (ind < length (input_ f))%nat ->
                      inputv_ind f !! ind <> Some (Z.of_nat el)) ->
         dw !! el = Some None.
Proof.
  intros Hseeds. unfold adFwd_seed_memo.
  pose (I := fun dw : list MX => length dw = length (alg f) /\
    forall el, (el < length (alg f))%nat ->
      (forall ind, (ind < length (input_ f))%nat -> inputv_ind f !! ind <> Some (Z.of_nat el)) ->
      dw !! el = Some None).
  destruct (forM_inv I (adFwd_pass_seed f fseed) (ports f)) with
    (s := replicate (length (alg f)) (@None nat)) as (dw & Hdw & HI).
  - intros ind dw Hind [Hlen Hnull]. apply in_ports in Hind.
    destruct (tape_inputs _ _ Htape ind Hind) as (slot & Hslot & Hr).
    destruct (lookup_lt_is_Some_2 fseed ind) as [s Hs]; [lia|].
    destruct (lookup_lt_is_Some_2 dw (Z.to_nat slot)) as [d Hd]; [lia|].
    unfold adFwd_pass_seed. rewrite (vec_get_nat _ _ _ Hslot). simpl.
    rewrite (vec_get_nat _ _ _ Hs). simpl. rewrite (vec_get_Z _ _ _ (proj1 Hr) Hd). simpl.
    eexists. split; [done|]. split; [by rewrite length_insert|].
    intros el Hel Hun. rewrite list_lookup_insert_ne; [by apply Hnull|].
    intros Heq. apply (Hun ind Hind). rewrite Hslot. f_equal. lia.
  - split; [apply length_replicate|]. intros el Hel _. by apply lookup_replicate_2.
  - exists dw. by destruct HI.
Qed.

Lemma adFwd_collect_ok (dw : list MX) :
  length dw = length (alg f) -> exists ret, adFwd_collect f dw = Ok ret.
Proof.
  intros Hlen. unfold adFwd_collect. apply mapM_total. apply Forall_forall.
  intros ind Hind. apply in_outports in Hind.
  destruct (tape_outputs _ _ Htape ind Hind) as (slot & Hslot & Hr).
  destruct (lookup_lt_is_Some_2 dw (Z.to_nat slot)) as [d Hd]; [lia|].
  exists d. rewrite (vec_get_nat _ _ _ Hslot). simpl. apply vec_get_Z; [lia|done].
Qed.

(** C10.  On an initialised instance with a well-formed tape, seeds
    that passed the column check and one seed per declared input:
    a turn of the walk that finds the memo slot null and a node that is
    not a constant asserts that the entry has a dependency; so if some
    entry of the tape has no dependency, stands for a node that is not a
    constant and is not the slot of any input port, [adFwd] fails that
    assertion instead of returning derivatives. *)
Theorem adFwd_orphan_fails (fseed : list MX) el e n :
  isInit f = true ->
  adFwd_columns h fseed = Ok ncol ->
  (length (input_ f) <= length fseed)%nat ->
  alg f !! el = Some e -> deref h (mx e) = Ok n ->
  isConstant n = false -> ch e = [] ->
  (forall ind, (ind < length (input_ f))%nat -> inputv_ind f !! ind <> Some (Z.of_nat el)) ->
  (forall dw ext, length dw = length (alg f) -> dw !! el = Some None ->
     adFwd_step MXNode_adFwd f ncol el (dw, h ++ ext) = Throw seed_assertion)
  /\ adFwd MXNode_adFwd h fseed f = Throw seed_assertion.
Proof.
  intros Hinit Hcols Hseeds He Hn Hc Hch Hun.
  assert (Hel : (el < length (alg f))%nat) by (by eapply lookup_lt_Some).
  split.
  - intros dw ext Hlen Hnull.
    destruct (adFwd_step_cases el dw ext Hlen) as [(st & _ & Hno)|[Hthrow _]];
      [lia | | done].
    exfalso. apply Hno. by exists e, n.
  - unfold adFwd, adFwd_walk. rewrite Hinit, Hcols. simpl.
    destruct (adFwd_seed_memo_ok fseed Hseeds) as (dw & -> & Hlen & Hnull). simpl.
    unfold adFwd_fill.
    destruct (adFwd_steps_outcome (seq 0 (length dw)) dw []) as [[_ Hnone]|[Hthrow _]].
    + done.
    + apply NoDup_seq.
    + intros j. rewrite elem_of_seq. lia.
    + exfalso. apply (Hnone el); [rewrite elem_of_seq; lia|].
      exists e, n. split; [by apply Hnull|done].
    + rewrite app_nil_r in Hthrow. fold step. by rewrite Hthrow.
Qed.

(** Without an orphan in the seeded memo the rest of [adFwd] completes. *)
Lemma adFwd_walk_completes (fseed : list MX) :
  (length (input_ f) <= length fseed)%nat ->
  (forall dw el, adFwd_seed_memo f fseed = Ok dw -> ~ orphan h f dw el) ->
  exists r, adFwd_walk MXNode_adFwd h ncol fseed f = Ok r.
Proof.
  intros Hseeds Hno. unfold adFwd_walk.
  destruct (adFwd_seed_memo_ok fseed Hseeds) as (dw & Hdw & Hlen & _). rewrite Hdw. simpl.
  unfold adFwd_fill.
  destruct (adFwd_steps_outcome (seq 0 (length dw)) dw []) as [[[[dw' h'] Hok] _]|[_ Hex]].
  - done.
  - apply NoDup_seq.
  - intros j. rewrite elem_of_seq. lia.
  - rewrite app_nil_r in Hok. fold step. rewrite Hok. simpl.
    destruct (adFwd_steps_inv _ _ _ _ _ _ _ _ Hok) as (Hl' & _).
    destruct (adFwd_collect_ok dw') as (ret & ->); [congruence|]. simpl. eauto.
  - destruct Hex as (el & _ & Horph). exfalso. by apply (Hno dw el).
Qed.

(** The rest of [adFwd] never raises the error of the column check. *)
Lemma adFwd_walk_not_columns (fseed : list MX) :
  adFwd_walk MXNode_adFwd h ncol fseed f <> Throw columns_assertion.
Proof.
  unfold adFwd_walk. intros H.
  destruct (adFwd_seed_memo f fseed) as [dw|e| |] eqn:Hm; simpl in H; try discriminate.
  2:{ injection H as ->. unfold adFwd_seed_memo in Hm.
      apply forM_Throw in Hm as (ind & dw & _ & Hm). unfold adFwd_pass_seed in Hm.
      destruct (vec_get (inputv_ind f) (Z.of_nat ind)) eqn:E1; simpl in Hm; try discriminate.
      - destruct (vec_get fseed (Z.of_nat ind)) eqn:E2; simpl in Hm; try discriminate.
        + destruct (vec_get dw a) eqn:E3; simpl in Hm; try discriminate.
          by apply vec_get_not_Throw in E3.
        + by apply vec_get_not_Throw in E2.
      - by apply vec_get_not_Throw in E1. }
  destruct (adFwd_fill MXNode_adFwd f ncol dw h) as [st|e| |] eqn:Hf; simpl in H;
    try discriminate.
  2:{ injection H as ->. unfold adFwd_fill in Hf.
      apply forM_Throw in Hf as (el & [dw1 h1] & _ & Hf). unfold adFwd_step in Hf.
      simpl in Hf.
      destruct (vec_get dw1 (Z.of_nat el)) as [d|e| |] eqn:E1; simpl in Hf; try discriminate.
      2:{ by apply vec_get_not_Throw in E1. }
      destruct (isNull d); simpl in Hf; [|discriminate].
      destruct (vec_get (alg f) (Z.of_nat el)) as [e|e| |] eqn:E2; simpl in Hf;
        try discriminate.
      2:{ by apply vec_get_not_Throw in E2. }
      destruct (deref h1 (mx e)) as [n|e'| |] eqn:E3; simpl in Hf; try discriminate.
      2:{ destruct (mx e) as [p|]; simpl in E3; [|discriminate].
          destruct (h1 !! p); discriminate. }
      destruct (isConstant n); [discriminate|].
      destruct (negb (length (ch e) =? 0)%nat); simpl in Hf; [|discriminate].
      destruct (mapM (collect_seed dw1) (ch e)) as [seed|e'| |] eqn:E4; simpl in Hf;
        try discriminate.
      apply mapM_Throw in E4 as (c & _ & E4). unfold collect_seed in E4.
      destruct (0 <=? c); [|discriminate]. by apply vec_get_not_Throw in E4. }
  destruct (adFwd_collect f st.1) as [ret|e| |] eqn:Hc; simpl in H; try discriminate.
  injection H as ->. unfold adFwd_collect in Hc.
  apply mapM_Throw in Hc as (ind & _ & Hc).
  destruct (vec_get (outputv_ind f) (Z.of_nat ind)) eqn:E1; simpl in Hc; try discriminate.
  - by apply vec_get_not_Throw in Hc.
  - by apply vec_get_not_Throw in E1.
Qed.
End OutcomeProofs.

(** ** Symbolic differentiation: the column check *)

Lemma MX_size2_columns h m : has_node h m -> MX_size2 h m = Ok (seed_columns h m).
Proof. intros [n Hn]. unfold MX_size2, seed_columns. by rewrite Hn. Qed.

Lemma check_columns_loop h ncol (l : list MX) :
  Forall (has_node h) l ->
  (Forall (fun m => seed_columns h m = ncol) l ->
     forM (fun it (_ : unit) => c <- MX_size2 h it ;;
                                casadi_assert (ncol =? c) columns_message) l tt = Ok tt)
  /\ (Exists (fun m => seed_columns h m <> ncol) l ->
     forM (fun it (_ : unit) => c <- MX_size2 h it ;;
                                casadi_assert (ncol =? c) columns_message) l tt
     = Throw columns_assertion).
Proof.
  induction l as [|m l IH]; intros Hn.
  - split; [done|]. intros H. by apply Exists_nil in H.
  - apply Forall_cons in Hn as [Hm Hn]. destruct (IH Hn) as [IHok IHno]. simpl.
    rewrite (MX_size2_columns _ _ Hm). simpl. unfold casadi_assert.
    destruct (Z.eqb_spec ncol (seed_columns h m)) as [Heq|Hne]; simpl.
    + split.
      * intros H. apply Forall_cons in H as [_ H]. auto.
      * intros H. apply Exists_cons in H as [H|H]; [congruence | auto].
    + split; [|done]. intros H. apply Forall_cons in H as [H _]. congruence.
Qed.

Lemma columns_differ_Exists h m0 (l : list MX) :
  Forall (has_node h) (m0 :: l) ->
  columns_differ h (m0 :: l)
  <-> Exists (fun m => seed_columns h m <> seed_columns h m0) (m0 :: l).
Proof.
  intros Hn. split.
  - intros (i & m & m0' & H0 & Hi & Hne). simpl in H0. injection H0 as <-.
    apply Exists_exists. exists m. split; [by eapply list_elem_of_lookup_2|].
    rewrite !MX_size2_columns in Hne; [congruence|..].
    + by apply Forall_cons in Hn as [? _].
    + eapply (proj1 (Forall_lookup _ _) Hn); eauto.
  - intros H. apply Exists_exists in H as (m & Hm & Hne).
    apply list_elem_of_lookup in Hm as [i Hi]. exists i, m, m0. split; [done|].
    split; [done|]. rewrite !MX_size2_columns; [congruence|..].
    + by apply Forall_cons in Hn as [? _].
    + eapply (proj1 (Forall_lookup _ _) Hn); eauto.
Qed.

Lemma adFwd_columns_cases h (fseed : list MX) :
  fseed <> [] -> Forall (has_node h) fseed ->
  (columns_differ h fseed /\ adFwd_columns h fseed = Throw columns_assertion)
  \/ (~ columns_differ h fseed /\ exists ncol, adFwd_columns h fseed = Ok ncol).
Proof.
  intros Hne Hn. destruct fseed as [|m0 l]; [done|].
  pose proof (columns_differ_Exists h m0 l Hn) as Hiff.
  pose proof Hn as Hn'. apply Forall_cons in Hn' as [Hm0 _].
  destruct (check_columns_loop h (seed_columns h m0) (m0 :: l) Hn) as [Hok Hno].
  unfold adFwd_columns. cbn [head from_option bind].
  rewrite (MX_size2_columns _ _ Hm0). cbn [bind].
  destruct (decide (Exists (fun m => seed_columns h m <> seed_columns h m0) (m0 :: l)))
    as [Hex|Hnex].
  - left. split; [by apply Hiff|]. by rewrite (Hno Hex).
  - right. split; [by rewrite Hiff|]. exists (seed_columns h m0). rewrite Hok; [done|].
    apply Forall_forall. intros m Hm.
    destruct (decide (seed_columns h m = seed_columns h m0)) as [|Hd]; [done|].
    exfalso. apply Hnex. apply Exists_exists. eauto.
Qed.

(** C4, as amended.  On an initialised instance and for a non-empty list
    of non-null seeds, [adFwd] raises the consistency error if and only
    if some seed's column count differs from the first seed's; the error
    comes from the check that precedes the creation of the memo, so that
    nothing has been built; when all column counts agree the check passes,
    and the call completes if the tape is well formed, there is a seed for
    every declared input and no entry is left without a seed, a constant
    node or a dependency. *)
Theorem adFwd_column_check (rule : Heap -> MXNode -> list MX -> list MXNode * MX)
  (h : Heap) (fseed : list MX) (f : MXFunctionInternal) :
  isInit f = true -> fseed <> [] -> Forall (has_node h) fseed ->
  (adFwd rule h fseed f = Throw columns_assertion <-> columns_differ h fseed)
  /\ (columns_differ h fseed -> adFwd_columns h fseed = Throw columns_assertion)
  /\ (~ columns_differ h fseed ->
      exists ncol, adFwd_columns h fseed = Ok ncol /\
        (tape_ok h f -> (length (input_ f) <= length fseed)%nat ->
         (forall dw el, adFwd_seed_memo f fseed = Ok dw -> ~ orphan h f dw el) ->
         exists r, adFwd rule h fseed f = Ok r)).
Proof.
  intros Hinit Hne Hn. unfold adFwd. rewrite Hinit. simpl.
  destruct (adFwd_columns_cases h fseed Hne Hn) as [[Hd Hc]|[Hnd [ncol Hc]]].
  - rewrite Hc. simpl. split; [done|]. split; [done|]. intros Hnd. done.
  - rewrite Hc. simpl. split; [|split].
    + split; [|done]. intros H. by apply adFwd_walk_not_columns in H.
    + intros Hd. done.
    + intros _. exists ncol. split; [done|]. intros Htape Hlen Hno.
      by apply adFwd_walk_completes.
Qed.

(** * Initialised instances *)

Section Initialised.
Variables (h h' : Heap) (f f' : MXFunctionInternal).
Hypothesis Hneutral : heap_neutral h.
Hypothesis Hinit : init h f = Ok (h', f').

(** [init] hands the heap back as it found it. *)
Lemma init_heap : h' = h.
Proof. by destruct (init_inversion _ _ _ _ Hneutral Hinit) as (nodes & -> & _). Qed.

Lemma init_frame :
  isInit f' = true /\ inputv f' = inputv f /\ outputv f' = outputv f
  /\ nfdir_ f' = nfdir_ f /\ nadir_ f' = nadir_ f
  /\ length (input_ f') = length (input_ f) /\ length (output_ f') = length (output_ f).
Proof.
  destruct (init_inversion _ _ _ _ Hneutral Hinit) as (nodes & _ & _ & _ & _ & _ & _ & _ & ->).
  simpl. by rewrite !length_fmap.
Qed.

(** Every entry stands for a node of the heap, has the configured number
    of direction buffers, and has its dependency slots below it. *)
Lemma init_entry el e :
  alg f' !! el = Some e ->
  exists p n, mx e = Some p /\ h !! p = Some n
              /\ val e = FunctionIO_init (sparsity n) (nfdir_ f) (nadir_ f)
              /\ Forall2 (slot_ok el) (dep n) (ch e).
Proof.
  intros He.
  destruct (init_inversion _ _ _ _ Hneutral Hinit) as (nodes & _ & Hnd & _ & Hdeps & _ & _ & Ha & _).
  destruct (mapM_Ok_lookup _ _ _ _ _ Ha He) as (p & Hp & Hbuild).
  destruct (build_entry_slots _ _ _ _ _ _ _ Hnd Hdeps Hp Hbuild) as (n & ? & ? & ? & ?).
  by exists p, n.
Qed.

(** A declared, non-null root is mapped to the entry that stands for it. *)
Lemma init_root_slot (roots : list MX) (inds : list Z) nodes :
  NoDup nodes -> (forall t, Some t ∈ roots -> t ∈ nodes) ->
  mapM (temp_of (assign_order 0 nodes h)) roots = Ok inds ->
  mapM (build_entry (nfdir_ f) (nadir_ f) (assign_order 0 nodes h)) nodes = Ok (alg f') ->
  forall ind, (ind < length roots)%nat ->
    exists slot e, inds !! ind = Some slot /\ 0 <= slot < Z.of_nat (length (alg f'))
                   /\ alg f' !! Z.to_nat slot = Some e /\ roots !! ind = Some (mx e)
                   /\ exists n, deref h (mx e) = Ok n.
Proof.
  intros Hnd Hroots Hinds Ha ind Hind.
  destruct (lookup_lt_is_Some_2 roots ind Hind) as [m Hm].
  apply mapM_Ok_Forall2 in Hinds.
  destruct (Forall2_lookup_l _ _ _ _ _ Hinds Hm) as (slot & Hslot & Htemp).
  unfold temp_of in Htemp. apply bind_Ok in Htemp as (n & Hn & Htemp). injection Htemp as <-.
  destruct m as [p|]; [|discriminate]. simpl in Hn.
  destruct (assign_order 0 nodes h !! p) as [n'|] eqn:Hp1; [|discriminate]. injection Hn as ->.
  assert (Hin : p ∈ nodes). { apply Hroots. by eapply list_elem_of_lookup_2. }
  apply list_elem_of_lookup in Hin as [k Hk].
  destruct (heap_sim_lookup _ _ _ _ (heap_sim_sym _ _ (heap_sim_assign nodes 0 h)) Hp1)
    as (n0 & Hn0 & _).
  rewrite (assign_order_lookup _ 0 _ k p n0 Hnd Hk Hn0) in Hp1. injection Hp1 as <-.
  pose proof (mapM_length _ _ _ Ha) as Hlen.
  pose proof (lookup_lt_Some _ _ _ Hk) as Hklt.
  destruct (lookup_lt_is_Some_2 (alg f') k) as [e He]; [lia|].
  destruct (mapM_Ok_lookup _ _ _ _ _ Ha He) as (p' & Hp' & Hbuild).
  rewrite Hk in Hp'. injection Hp' as <-.
  unfold build_entry in Hbuild. apply bind_Ok in Hbuild as (m & _ & Hbuild).
  apply bind_Ok in Hbuild as (c & _ & Hbuild). injection Hbuild as <-.
  exists (Z.of_nat k), (mkAlgEl (Some p) (FunctionIO_init (sparsity m) (nfdir_ f) (nadir_ f)) c).
  simpl. rewrite Nat2Z.id. split; [done|]. split; [lia|]. split; [done|]. split; [done|].
  exists n0. by rewrite Hn0.
Qed.

Lemma init_input_slot ind :
  (ind < length (inputv f))%nat ->
  exists slot e, inputv_ind f' !! ind = Some slot /\ 0 <= slot < Z.of_nat (length (alg f'))
                 /\ alg f' !! Z.to_nat slot = Some e /\ inputv f !! ind = Some (mx e)
                 /\ exists n, deref h (mx e) = Ok n.
Proof.
  destruct (init_inversion _ _ _ _ Hneutral Hinit)
    as (nodes & _ & Hnd & Hroots & _ & Hiv & _ & Ha & _).
  apply (init_root_slot _ _ nodes Hnd); [|done|done].
  intros t Ht. apply Hroots, root_stack_elem, elem_of_app. by left.
Qed.

Lemma init_output_slot ind :
  (ind < length (outputv f))%nat ->
  exists slot e, outputv_ind f' !! ind = Some slot /\ 0 <= slot < Z.of_nat (length (alg f'))
                 /\ alg f' !! Z.to_nat slot = Some e /\ outputv f !! ind = Some (mx e)
                 /\ exists n, deref h (mx e) = Ok n.
Proof.
  destruct (init_inversion _ _ _ _ Hneutral Hinit)
    as (nodes & _ & Hnd & Hroots & _ & _ & Hov & Ha & _).
  apply (init_root_slot _ _ nodes Hnd); [|done|done].
  intros t Ht. apply Hroots, root_stack_elem, elem_of_app. by right.
Qed.

(** An instance built by the constructor has one port per declared input
    and output. *)
Hypothesis Hin_ports : length (input_ f) = length (inputv f).
Hypothesis Hout_ports : length (output_ f) = length (outputv f).

(** The tape [init] builds is one the differentiator can run on. *)
Lemma init_tape_ok : tape_ok h f'.
Proof.
  destruct init_frame as (_ & Hiv & Hov & _ & _ & Hli & Hlo). split.
  - intros ind Hind. destruct (init_input_slot ind) as (slot & e & ? & ? & _); [lia|]. eauto.
  - intros ind Hind. rewrite Hov in Hind.
    destruct (init_output_slot ind Hind) as (slot & e & ? & ? & _). eauto.
  - intros el e He. destruct (init_entry el e He) as (p & n & Hmx & Hp & _ & Hch).
    split; [|by eapply slot_ok_below]. exists n. rewrite Hmx. simpl. by rewrite Hp.
Qed.

Lemma init_has_input_nodes : has_input_nodes h f'.
Proof.
  destruct init_frame as (_ & _ & _ & _ & _ & Hli & _).
  intros ind Hind. destruct (init_input_slot ind) as (slot & e & Hs & Hr & He & _ & n & Hn); [lia|].
  exists n. unfold input_node, mapped_slot. rewrite (vec_get_nat _ _ _ Hs). simpl.
  rewrite (vec_get_Z _ _ _ (proj1 Hr) He). done.
Qed.

(** With nodes whose [evaluate] keeps the layout of the tape, the
    instance is ready for any direction counts up to the configured ones. *)
Lemma init_ready (nfdir nadir : Z) :
  (forall p n, h !! p = Some n -> keeps_shape n) ->
  nfdir <= Z.of_nat (nfdir_ f) -> nadir <= Z.of_nat (nadir_ f) ->
  ready h nfdir nadir f'.
Proof.
  intros Hkeep Hnf Hna.
  destruct init_frame as (_ & Hiv & Hov & _ & _ & Hli & Hlo). split.
  - intros ind Hind. destruct (init_input_slot ind) as (slot & e & ? & ? & _); [lia|]. eauto.
  - intros ind Hind. rewrite Hov in Hind. split; [lia|].
    destruct (init_output_slot ind Hind) as (slot & e & ? & ? & _). eauto.
  - intros el e He. destruct (init_entry el e He) as (p & n & Hmx & Hp & Hval & _).
    rewrite Hval. simpl. rewrite !length_replicate. split; [done|]. split; [done|].
    exists n. rewrite Hmx. simpl. rewrite Hp. eauto.
  - destruct (init_inversion _ _ _ _ Hneutral Hinit) as (nodes & _ & _ & _ & _ & _ & _ & _ & ->).
    simpl. intros ind io Hio. rewrite list_lookup_fmap in Hio.
    destruct (input_ f !! ind); [|discriminate]. injection Hio as <-. simpl.
    by rewrite !length_replicate.
  - destruct (init_inversion _ _ _ _ Hneutral Hinit) as (nodes & _ & _ & _ & _ & _ & _ & _ & ->).
    simpl. intros ind io Hio. rewrite list_lookup_fmap in Hio.
    destruct (output_ f !! ind); [|discriminate]. injection Hio as <-. simpl.
    by rewrite !length_replicate.
Qed.
End Initialised.

(** * The claims on the example graphs *)

Lemma foldl_keeps_shape {B : Type} (g : list AlgEl -> B -> list AlgEl) (l : list B) :
  (forall a d, entry_shape <$> g a d = entry_shape <$> a) ->
  forall a, entry_shape <$> foldl g a l = entry_shape <$> a.
Proof.
  intros Hg. induction l as [|d l IH]; intros a; simpl; [done|]. by rewrite IH, Hg.
Qed.

Lemma no_evaluate_keeps_shape n : node_evaluate n = no_evaluate -> keeps_shape n.
Proof. intros Hn el nf na a. by rewrite Hn. Qed.

Lemma mul_evaluate_keeps_shape n : node_evaluate n = mul_evaluate -> keeps_shape n.
Proof.
  intros Hn el nf na a. rewrite Hn. unfold mul_evaluate.
  destruct (ch <$> a !! el) as [[|ci [|cj [|]]]|]; try done.
  rewrite foldl_keeps_shape.
  - rewrite foldl_keeps_shape.
    + apply fmap_alter_same. intros x. apply entry_shape_with_data.
    + intros a' d. apply fmap_alter_same. intros x. apply entry_shape_with_dataF.
  - intros a' d. rewrite !fmap_alter_same; [done|..]; intros x; apply entry_shape_with_dataA.
Qed.

Lemma heap_mul_neutral : heap_neutral heap_mul.
Proof. intros [|[|[|[|p]]]] n Hp; simpl in Hp; try discriminate; by injection Hp as <-. Qed.

Lemma init_topological_witness :
  heap_neutral heap_mul
  /\ exists h' f', init heap_mul fun_mul = Ok (h', f')
     /\ forall ii e, alg f' !! ii = Some e ->
          exists n, deref heap_mul (mx e) = Ok n /\ Forall2 (slot_ok ii) (dep n) (ch e).
Proof.
  split; [exact heap_mul_neutral|].
  eexists _, _. split; [vm_compute; reflexivity|].
  eapply (init_topological heap_mul fun_mul); [exact heap_mul_neutral | vm_compute; reflexivity].
Defined.

Lemma tape_mul_ready (f : MXFunctionInternal) :
  skeleton f = skeleton tape_mul_seeded -> ready heap_mul 1 1 f.
Proof.
  intros Hsk. apply (ready_skeleton _ _ _ tape_mul_seeded); [done|]. split.
  - intros [|[|ind]] Hind; simpl in Hind; try lia; eexists; (split; [reflexivity|simpl; lia]).
  - intros [|[|ind]] Hind; simpl in Hind; try lia;
      (split; [simpl; lia|]); eexists; (split; [reflexivity|simpl; lia]).
  - intros [|[|[|[|el]]]] e He; simpl in He; try discriminate; injection He as <-;
      simpl; (split; [lia|]); (split; [lia|]); eexists; (split; [reflexivity|]);
      first [by apply no_evaluate_keeps_shape | by apply mul_evaluate_keeps_shape].
  - intros [|[|ind]] io Hio; simpl in Hio; try discriminate; injection Hio as <-; simpl; lia.
  - intros [|[|ind]] io Hio; simpl in Hio; try discriminate; injection Hio as <-; simpl; lia.
Qed.

(** C2 as the specification words it fails: the instance is initialised
    with room for one adjoint direction, and [evaluate(1, 2)] throws from
    [at(1)] in the clearing loop, before any entry is run backwards. *)
Lemma evaluate_adjoint_pass_counterexample :
  isInit tape_mul_seeded = true
  /\ evaluate heap_mul 1 2 tape_mul_seeded = Throw OutOfRange
  /\ ~ adjoint_pass_spec heap_mul 1 2 tape_mul_seeded.
Proof.
  split; [reflexivity|]. split; [vm_compute; reflexivity|].
  intros (f1 & f' & _ & H & _). vm_compute in H. discriminate.
Qed.

Lemma construct_validation_witness :
  Forall (valid_handle heap_mul) [Some 0%nat; Some 1%nat]
  /\ Forall (valid_handle heap_mul) [Some 2%nat; Some 3%nat]
  /\ exists f, construct heap_mul [Some 0%nat; Some 1%nat] [Some 2%nat; Some 3%nat] = Ok f
     /\ Forall2 (port_for heap_mul) [Some 0%nat; Some 1%nat] (input_ f)
     /\ Forall2 (port_for heap_mul) [Some 2%nat; Some 3%nat] (output_ f).
Proof.
  assert (Hin : Forall (valid_handle heap_mul) [Some 0%nat; Some 1%nat]).
  { repeat constructor; simpl; eauto. }
  assert (Hout : Forall (valid_handle heap_mul) [Some 2%nat; Some 3%nat]).
  { repeat constructor; simpl; eauto. }
  split; [exact Hin|]. split; [exact Hout|].
  apply (construct_validation heap_mul _ _ Hin Hout).
  - intros [|[|i]] [H|(p & n & H & Hn & Hs)]; try discriminate;
      injection H as <-; simpl in Hn; injection Hn as <-; discriminate.
  - repeat constructor; discriminate.
Defined.

(** C7 as the specification words it fails: the only input is a symbolic
    leaf, yet construction does not succeed, because the null output is
    dereferenced when its port is sized. *)
Lemma construct_counterexample :
  construct heap_mul [Some 0%nat] [None] = Undefined
  /\ ~ construct_spec heap_mul [Some 0%nat] [None].
Proof.
  split; [reflexivity|]. intros (_ & _ & H). destruct H as (f & Hf & _); [|discriminate].
  intros [|i] [H|(p & n & H & Hn & Hs)]; try discriminate.
  injection H as <-. simpl in Hn. injection Hn as <-. discriminate.
Qed.


Lemma adFwd_empty_seeds_witness :
  isInit tape_free = true /\ adFwd sample_adFwd heap_free [] tape_free = Undefined.
Proof.
  split; [reflexivity|]. apply (adFwd_empty_seeds sample_adFwd heap_free tape_free).
  reflexivity.
Defined.

Lemma tape_free_ok : tape_ok heap_free tape_free.
Proof.
  split.
  - intros [|ind] Hind; simpl in Hind; try lia. eexists. split; [reflexivity|simpl; lia].
  - intros [|ind] Hind; simpl in Hind; try lia. eexists. split; [reflexivity|simpl; lia].
  - intros [|[|[|el]]] e He; simpl in He; try discriminate; injection He as <-; simpl;
      (split; [eexists; reflexivity|]); repeat constructor; lia.
Qed.

(** C4 as the specification words it fails: the one seed agrees with
    itself on its column count, yet [adFwd] does not complete; the leaf
    [y] is not declared and the walk fails its assertion there. *)
Lemma adFwd_column_check_counterexample :
  adFwd sample_adFwd heap_free [Some 3%nat] tape_free = Throw seed_assertion
  /\ ~ adFwd_spec sample_adFwd heap_free [Some 3%nat] tape_free.
Proof.
  split; [vm_compute; reflexivity|]. intros (_ & _ & H).
  destruct H as (r & Hr); [|vm_compute in Hr; discriminate].
  intros (i & m & m0 & H0 & Hi & Hne). destruct i as [|i]; [|discriminate]. congruence.
Qed.

Lemma tape_mul_input_nodes : has_input_nodes heap_mul tape_mul.
Proof.
  intros [|[|ind]] Hind; simpl in Hind; try lia; eexists; vm_compute; reflexivity.
Qed.

Lemma jac_builds_seeds_witness :
  isInit tape_mul = true /\ has_input_nodes heap_mul tape_mul
  /\ 0 <= 1 < Z.of_nat (length (input_ tape_mul))
  /\ jac sample_adFwd heap_mul 1 tape_mul
     = adFwd sample_adFwd (heap_mul ++ [zeros_node 1 1; eye_node 1])
             [Some 4%nat; Some 5%nat] tape_mul.
Proof.
  split; [reflexivity|]. split; [exact tape_mul_input_nodes|]. split; [simpl; lia|].
  apply (jac_builds_seeds sample_adFwd heap_mul tape_mul 1);
    [reflexivity | exact tape_mul_input_nodes | simpl; lia].
Defined.

Lemma adFwd_orphan_fails_witness :
  tape_ok heap_free tape_free /\ isInit tape_free = true
  /\ adFwd_columns heap_free [Some 3%nat] = Ok 1
  /\ adFwd sample_adFwd heap_free [Some 3%nat] tape_free = Throw seed_assertion.
Proof.
  split; [exact tape_free_ok|]. split; [reflexivity|]. split; [reflexivity|].
  apply (adFwd_orphan_fails sample_adFwd heap_free tape_free 1 tape_free_ok
           [Some 3%nat] 1%nat (mkAlgEl (Some 1%nat) (FunctionIO_init (dense 2 1) 1 1) [])
           (symbolic_leaf 2 1));
    try reflexivity.
  intros [|ind] Hind; vm_compute in Hind; [discriminate | lia].
Defined.

(** The message of the constructor for a null second argument. *)
Example construct_null_message :
  construct heap_mul [Some 0%nat; None] []
  = Throw (CasadiException
      ("MXFunctionInternal::MXFunctionInternal: MXfunction input arguments cannot be null."
       ++ endl ++ "Argument #1 is null." ++ endl)%string).
Proof. reflexivity. Qed.

(** [y = a * b] at [a = 3], [b = 4], with a tangent seed on [a] and an
    adjoint seed on [y]: the value is 12, the tangent 4, and the
    sensitivities with respect to [a] and [b] are 4 and 3. *)
Example evaluate_product :
  exists f, evaluate heap_mul 1 1 tape_mul_seeded = Ok f
    /\ (data <$> output_ f) !! 0%nat = Some (scalar 12%float)
    /\ (dataF <$> output_ f) !! 0%nat = Some [scalar 4%float]
    /\ (dataA <$> input_ f) = [[scalar 4%float]; [scalar 3%float]].
Proof. eexists. split; [vm_compute; reflexivity|]. by vm_compute. Qed.

(** * Further properties *)

(** ** Loops *)

Lemma forM_keeps_in {A S : Type} (Q : S -> Prop) (g : A -> S -> Outcome S) (l : list A) :
  (forall a s s', a ∈ l -> g a s = Ok s' -> Q s -> Q s') ->
  forall s s', forM g l s = Ok s' -> Q s -> Q s'.
Proof.
  induction l as [|a l IH]; intros Hg s s' H Hs; simpl in H.
  - by injection H as <-.
  - apply bind_Ok in H as (s1 & H1 & H). eapply IH; [|exact H|].
    + intros b t t' Hb. apply Hg. by right.
    + eapply Hg; [by left | exact H1 | done].
Qed.

Lemma nest_keeps_in {A B S : Type} (Q : S -> Prop) (g : A -> B -> S -> Outcome S)
  (l1 : list A) (l2 : list B) :
  (forall a b s s', a ∈ l1 -> b ∈ l2 -> g a b s = Ok s' -> Q s -> Q s') ->
  forall s s', forM (fun a => forM (g a) l2) l1 s = Ok s' -> Q s -> Q s'.
Proof.
  intros Hg. apply forM_keeps_in. intros a s s' Ha Hs.
  refine (forM_keeps_in Q (g a) l2 _ s s' Hs). intros b t t' Hb. by apply Hg.
Qed.

(** ** What [evaluate] leaves alone *)

Lemma untouched_refl f : untouched f f.
Proof. by split. Qed.

Lemma untouched_trans f g k : untouched f g -> untouched g k -> untouched f k.
Proof. intros [H1 H2] [H3 H4]. split; congruence. Qed.

Lemma loop_untouched {A : Type} (g : A -> MXFunctionInternal -> Outcome MXFunctionInternal)
  (l : list A) :
  (forall a s s', g a s = Ok s' -> untouched s s') ->
  forall s s', forM g l s = Ok s' -> untouched s s'.
Proof.
  intros Hg. induction l as [|a l IH]; intros s s' H; simpl in H.
  - injection H as <-. apply untouched_refl.
  - apply bind_Ok in H as (s1 & H1 & H). eapply untouched_trans; eauto.
Qed.

Ltac step_untouched H :=
  invert_step H; injection H as <-; split; [reflexivity|];
  unfold caller_data; simpl; rewrite ?fmap_alter_same; [reflexivity | by intros [? ? ?] ..].

Lemma pass_input_untouched ind f f' : pass_input ind f = Ok f' -> untouched f f'.
Proof. intros H. unfold pass_input in H. step_untouched H. Qed.

Lemma pass_fwd_seed_untouched dir ind f f' : pass_fwd_seed dir ind f = Ok f' -> untouched f f'.
Proof. intros H. unfold pass_fwd_seed in H. step_untouched H. Qed.

Lemma get_output_untouched ind f f' : get_output ind f = Ok f' -> untouched f f'.
Proof. intros H. unfold get_output in H. step_untouched H. Qed.

Lemma get_fwd_sens_untouched dir ind f f' : get_fwd_sens dir ind f = Ok f' -> untouched f f'.
Proof. intros H. unfold get_fwd_sens in H. step_untouched H. Qed.

Lemma clear_adj_untouched el dir f f' : clear_adj el dir f = Ok f' -> untouched f f'.
Proof. intros H. unfold clear_adj in H. step_untouched H. Qed.

Lemma pass_adj_seed_untouched ind dir f f' : pass_adj_seed ind dir f = Ok f' -> untouched f f'.
Proof. intros H. unfold pass_adj_seed in H. step_untouched H. Qed.

Lemma eval_adjoint_untouched h nadir el f f' :
  eval_adjoint h nadir el f = Ok f' -> untouched f f'.
Proof. intros H. unfold eval_adjoint in H. step_untouched H. Qed.

Lemma get_adj_sens_untouched ind dir f f' : get_adj_sens ind dir f = Ok f' -> untouched f f'.
Proof. intros H. unfold get_adj_sens in H. step_untouched H. Qed.

Lemma eval_forward_untouched h nfdir el f f' :
  eval_forward h nfdir el f = Ok f' -> untouched f f'.
Proof.
  intros H. unfold eval_forward in H.
  apply bind_Ok in H as (e & _ & H). apply bind_Ok in H as (n & _ & H).
  destruct (liftfun_ f) as [liftfun|]; [destruct (isNonLinear n)|].
  - apply bind_Ok in H as (e' & _ & H). by injection H as <-.
  - by injection H as <-.
  - by injection H as <-.
Qed.

Lemma forward_pass_untouched h nfdir f f' : forward_pass h nfdir f = Ok f' -> untouched f f'.
Proof.
  intros H. unfold forward_pass, forward_sweep in H.
  apply bind_Ok in H as (f1 & H1 & H). apply bind_Ok in H as (f2 & H2 & H).
  apply bind_Ok in H as (f3 & H3 & H). apply bind_Ok in H as (f4 & H4 & H).
  apply loop_untouched in H1; [|apply pass_input_untouched].
  apply loop_untouched in H2;
    [|intros dir; apply loop_untouched; apply pass_fwd_seed_untouched].
  apply loop_untouched in H3; [|apply eval_forward_untouched].
  apply loop_untouched in H4; [|apply get_output_untouched].
  apply loop_untouched in H;
    [|intros dir; apply loop_untouched; apply get_fwd_sens_untouched].
  eauto using untouched_trans.
Qed.

Lemma adjoint_pass_untouched h nadir f f' : adjoint_pass h nadir f = Ok f' -> untouched f f'.
Proof.
  intros H. unfold adjoint_pass, clear_adjoint, pass_adjoint_seeds, adjoint_sweep,
    get_adjoint_sens in H.
  apply bind_Ok in H as (f1 & H1 & H). apply bind_Ok in H as (f2 & H2 & H).
  apply bind_Ok in H as (f3 & H3 & H).
  apply loop_untouched in H1; [|intros el; apply loop_untouched; apply clear_adj_untouched].
  apply loop_untouched in H2;
    [|intros ind; apply loop_untouched; apply pass_adj_seed_untouched].
  apply loop_untouched in H3; [|apply eval_adjoint_untouched].
  apply loop_untouched in H;
    [|intros ind; apply loop_untouched; apply get_adj_sens_untouched].
  eauto using untouched_trans.
Qed.

Lemma evaluate_untouched h nfdir nadir f f' :
  evaluate h nfdir nadir f = Ok f' -> untouched f f'.
Proof.
  intros H. unfold evaluate in H. apply bind_Ok in H as (f1 & H1 & H).
  apply forward_pass_untouched in H1. destruct (0 <? nadir).
  - apply adjoint_pass_untouched in H. eauto using untouched_trans.
  - by injection H as <-.
Qed.

Lemma loop_field {A X : Type} (proj : MXFunctionInternal -> X)
  (g : A -> MXFunctionInternal -> Outcome MXFunctionInternal) (l : list A) :
  (forall a t t', g a t = Ok t' -> proj t' = proj t) ->
  forall s s', forM g l s = Ok s' -> proj s' = proj s.
Proof.
  intros Hg s s' H. refine (forM_keeps (fun t => proj t = proj s) _ _ _ _ _ H eq_refl).
  intros a t t' Ht Hq. by rewrite (Hg _ _ _ Ht).
Qed.

Ltac step_field H := invert_step H; by injection H as <-.

Lemma forward_pass_inputs h nfdir f f' : forward_pass h nfdir f = Ok f' -> input_ f' = input_ f.
Proof.
  intros H. unfold forward_pass, forward_sweep in H.
  apply bind_Ok in H as (f1 & H1 & H). apply bind_Ok in H as (f2 & H2 & H).
  apply bind_Ok in H as (f3 & H3 & H). apply bind_Ok in H as (f4 & H4 & H).
  apply (loop_field input_) in H1; [|intros a t t' Ht; unfold pass_input in Ht; step_field Ht].
  apply (loop_field input_) in H2;
    [|intros d; apply (loop_field input_); intros a t t' Ht; unfold pass_fwd_seed in Ht;
      step_field Ht].
  apply (loop_field input_) in H3.
  2:{ intros a t t' Ht. unfold eval_forward in Ht.
      apply bind_Ok in Ht as (e & _ & Ht). apply bind_Ok in Ht as (n & _ & Ht).
      destruct (liftfun_ t); [destruct (isNonLinear n)|].
      - apply bind_Ok in Ht as (e' & _ & Ht). by injection Ht as <-.
      - by injection Ht as <-.
      - by injection Ht as <-. }
  apply (loop_field input_) in H4; [|intros a t t' Ht; unfold get_output in Ht; step_field Ht].
  apply (loop_field input_) in H;
    [|intros d; apply (loop_field input_); intros a t t' Ht; unfold get_fwd_sens in Ht;
      step_field Ht].
  congruence.
Qed.

(** X1.  Whatever the direction counts and the state of the instance, a
    call of [evaluate] that returns has not written to the declared
    expressions, the direction counts, the initialisation flag, the lifting
    callback or the port maps, and it has left the caller's input
    values, forward seeds and adjoint seeds in the ports as they were; with
    [nadir <= 0] it has not written to the input ports at all. *)
Theorem evaluate_keeps_caller_data (h : Heap) (nfdir nadir : Z) (f f' : MXFunctionInternal) :
  evaluate h nfdir nadir f = Ok f' ->
  frame f' = frame f
  /\ data <$> input_ f' = data <$> input_ f
  /\ dataF <$> input_ f' = dataF <$> input_ f
  /\ dataA <$> output_ f' = dataA <$> output_ f
  /\ (nadir <= 0 -> input_ f' = input_ f).
Proof.
  intros H. destruct (evaluate_untouched _ _ _ _ _ H) as [Hfr Hcd].
  unfold caller_data in Hcd. injection Hcd as -> -> ->. repeat (split; [done|]).
  intros Hna. unfold evaluate in H. apply bind_Ok in H as (f1 & H1 & H).
  destruct (Z.ltb_spec 0 nadir); [lia|]. injection H as <-.
  by apply forward_pass_inputs in H1.
Qed.

Lemma evaluate_keeps_caller_data_witness :
  exists f', evaluate heap_mul 1 1 tape_mul_seeded = Ok f'
    /\ frame f' = frame tape_mul_seeded
    /\ data <$> input_ f' = data <$> input_ tape_mul_seeded
    /\ dataF <$> input_ f' = dataF <$> input_ tape_mul_seeded
    /\ dataA <$> output_ f' = dataA <$> output_ tape_mul_seeded
    /\ (1 <= 0 -> input_ f' = input_ tape_mul_seeded).
Proof.
  eexists. split; [vm_compute; reflexivity|].
  apply (evaluate_keeps_caller_data heap_mul 1 1 tape_mul_seeded). vm_compute. reflexivity.
Defined.

(** ** A constructed instance *)

Lemma alloc_ports_inv h l ps : alloc_ports h l = Ok ps -> Forall2 (port_for h) l ps.
Proof.
  revert ps. induction l as [|m l IH]; intros ps H; simpl in H.
  - injection H as <-. constructor.
  - apply bind_Ok in H as (n & Hn & H). apply bind_Ok in H as (ps' & Hps & H).
    injection H as <-. constructor; [|auto].
    exists n. simpl. split; [done|]. split; [done|]. apply length_replicate.
Qed.

Lemma construct_inv h ins outs f :
  construct h ins outs = Ok f ->
  exists ip op, check_inputs h 0 ins = Ok tt /\ alloc_ports h ins = Ok ip
    /\ alloc_ports h outs = Ok op
    /\ f = mkFun ins outs ip op default_ndir default_ndir false None 0 [] [] [] [].
Proof.
  intros H. unfold construct in H. apply bind_Ok in H as ([] & Hc & H).
  apply bind_Ok in H as (ip & Hi & H). apply bind_Ok in H as (op & Ho & H).
  injection H as <-. by exists ip, op.
Qed.

(** X2.  An instance that was constructed and never initialised has an
    empty tape and empty port maps.  If it declares an input or an output,
    [evaluate] indexes the empty [inputv_ind] or [outputv_ind]: undefined
    behaviour, whatever the direction counts. *)
Theorem evaluate_before_init (h : Heap) (ins outs : list MX) (f : MXFunctionInternal)
  (nfdir nadir : Z) :
  construct h ins outs = Ok f -> ins <> [] \/ outs <> [] ->
  evaluate h nfdir nadir f = Undefined.
Proof.
  intros Hc Hne. destruct (construct_inv _ _ _ _ Hc) as (ip & op & _ & Hi & _ & ->).
  apply alloc_ports_inv, Forall2_length in Hi.
  unfold evaluate, forward_pass, forward_sweep, ports, outports, entries. simpl.
  destruct ip as [|p ip].
  - destruct ins; [|discriminate]. destruct Hne as [|Hne]; [done|].
    destruct outs as [|o outs]; [done|]. simpl. by rewrite forM_idle.
  - reflexivity.
Qed.

Lemma evaluate_before_init_witness :
  exists f, construct heap_mul [Some 0%nat] [Some 2%nat] = Ok f
            /\ evaluate heap_mul 1 0 f = Undefined.
Proof.
  eexists. split; [reflexivity|].
  eapply (evaluate_before_init heap_mul [Some 0%nat] [Some 2%nat]); [reflexivity|].
  left. discriminate.
Defined.

(** ** Evaluating again, and asking for too many directions *)

Lemma ready_mono h nf na nf' na' f :
  ready h nf na f -> nf' <= nf -> na' <= na -> ready h nf' na' f.
Proof.
  intros [Hi Ho He Hip Hop] Hnf Hna. split; [done|done|..].
  - intros el e Hel. destruct (He el e Hel) as (? & ? & ?). split; [lia|]. split; [lia|done].
  - intros ind io Hio. destruct (Hip ind io Hio). lia.
  - intros ind io Hio. destruct (Hop ind io Hio). lia.
Qed.

Lemma evaluate_ok h nfdir nadir f :
  ready h nfdir nadir f ->
  exists f', evaluate h nfdir nadir f = Ok f' /\ skeleton f' = skeleton f.
Proof.
  intros Hready. unfold evaluate.
  destruct (forward_pass_ok h nfdir nadir f Hready f eq_refl) as (f1 & -> & Hs1). simpl.
  destruct (0 <? nadir); [|eauto]. unfold adjoint_pass.
  destruct (clear_adjoint_ok h nfdir nadir f Hready f1 Hs1) as (fa & -> & Hsa). simpl.
  destruct (pass_adjoint_seeds_ok h nfdir nadir f Hready fa Hsa) as (fb & -> & Hsb). simpl.
  destruct (adjoint_sweep_ok h nfdir nadir f Hready fb Hsb) as (fc & -> & Hsc). simpl.
  apply (get_adjoint_sens_ok h nfdir nadir f Hready fc Hsc).
Qed.

(** X3.  On an instance that is ready for the requested direction counts,
    [evaluate] completes and leaves the layout as it found it: every
    entry of the tape stands for the same node and, like every port, has
    the same number of direction buffers, and the port maps are the same.
    The instance is therefore ready for the next call. *)
Theorem evaluate_keeps_layout (h : Heap) (nfdir nadir : Z) (f : MXFunctionInternal) :
  ready h nfdir nadir f ->
  exists f', evaluate h nfdir nadir f = Ok f'
    /\ skeleton f' = skeleton f /\ ready h nfdir nadir f'
    /\ exists f'', evaluate h nfdir nadir f' = Ok f''.
Proof.
  intros Hready. destruct (evaluate_ok _ _ _ _ Hready) as (f' & Hf' & Hs').
  exists f'. split; [done|]. split; [done|].
  assert (Hr' : ready h nfdir nadir f') by (by apply (ready_skeleton _ _ _ f)).
  split; [done|]. destruct (evaluate_ok _ _ _ _ Hr') as (f'' & ? & _). eauto.
Qed.

Lemma evaluate_keeps_layout_witness :
  exists f', evaluate heap_mul 1 1 tape_mul_seeded = Ok f'
    /\ skeleton f' = skeleton tape_mul_seeded /\ ready heap_mul 1 1 f'
    /\ exists f'', evaluate heap_mul 1 1 f' = Ok f''.
Proof.
  apply (evaluate_keeps_layout heap_mul 1 1 tape_mul_seeded). by apply tape_mul_ready.
Defined.

(** X4.  [init] followed by [evaluate]: on a heap whose nodes keep the
    layout of the tape when they are evaluated, an instance with one port
    per declared input and output that [init] has initialised can be
    evaluated for any direction counts up to the configured ones. *)
Theorem init_then_evaluate (h h' : Heap) (f0 f : MXFunctionInternal) (nfdir nadir : Z) :
  heap_neutral h -> (forall p n, h !! p = Some n -> keeps_shape n) ->
  length (input_ f0) = length (inputv f0) -> length (output_ f0) = length (outputv f0) ->
  init h f0 = Ok (h', f) ->
  nfdir <= Z.of_nat (nfdir_ f0) -> nadir <= Z.of_nat (nadir_ f0) ->
  exists f', evaluate h' nfdir nadir f = Ok f' /\ skeleton f' = skeleton f.
Proof.
  intros Hn Hkeep Hip Hop Hinit Hnf Hna.
  rewrite (init_heap _ _ _ _ Hn Hinit).
  apply evaluate_ok. by apply (init_ready h h' f0 f).
Qed.

Lemma init_then_evaluate_witness :
  exists h' f, init heap_mul fun_mul = Ok (h', f)
    /\ exists f', evaluate h' 1 1 f = Ok f' /\ skeleton f' = skeleton f.
Proof.
  eexists _, _. split; [vm_compute; reflexivity|].
  eapply (init_then_evaluate heap_mul _ fun_mul).
  - exact heap_mul_neutral.
  - intros [|[|[|[|p]]]] n Hp; simpl in Hp; try discriminate; injection Hp as <-;
      first [by apply no_evaluate_keeps_shape | by apply mul_evaluate_keeps_shape].
  - reflexivity.
  - reflexivity.
  - vm_compute. reflexivity.
  - simpl. lia.
  - simpl. lia.
Defined.

Lemma skeleton_alg f g :
  skeleton g = skeleton f -> entry_shape <$> alg g = entry_shape <$> alg f.
Proof. unfold skeleton. intros H. congruence. Qed.

Lemma skeleton_frame f g : skeleton g = skeleton f -> frame g = frame f.
Proof. unfold skeleton. intros H. congruence. Qed.

Lemma vec_at_ge {A : Type} (v : list A) (i : nat) :
  (length v <= i)%nat -> vec_at v (Z.of_nat i) = Throw OutOfRange.
Proof.
  intros Hi. unfold vec_at. destruct (Z.ltb_spec (Z.of_nat i) 0); [done|].
  by rewrite Nat2Z.id, (lookup_ge_None_2 _ _ Hi).
Qed.

Lemma upto_split (k : nat) (n : Z) :
  Z.of_nat k < n -> exists m, upto n = seq 0 k ++ k :: seq (S k) m.
Proof.
  intros Hk. exists (Z.to_nat n - S k)%nat. unfold upto.
  replace (Z.to_nat n) with (k + S (Z.to_nat n - S k))%nat at 1 by lia.
  by rewrite seq_app.
Qed.

(** X5.  More forward directions than the tape has buffers.  Take an
    instance that is ready for [k] forward directions, whose tape entries
    hold exactly [k] forward buffers (as [init] allocates them for
    [nfdir_ = k]), and which has an input port; let the input ports hold
    a seed for each of [nfdir > k] directions.  Then [evaluate(nfdir,
    nadir)] throws [std::out_of_range]: the loop that passes the forward
    seeds reaches [dataF.at(k)] on the tape. *)
Theorem evaluate_forward_overflow (h : Heap) (k : nat) (nfdir nadir : Z)
  (f : MXFunctionInternal) :
  ready h (Z.of_nat k) 0 f -> input_ f <> [] ->
  (forall el e, alg f !! el = Some e -> length (dataF (val e)) = k) ->
  (forall ind io, input_ f !! ind = Some io -> nfdir <= Z.of_nat (length (dataF io))) ->
  Z.of_nat k < nfdir ->
  evaluate h nfdir nadir f = Throw OutOfRange.
Proof.
  intros Hready Hne Hk _ Hnf. unfold evaluate, forward_pass.
  destruct (loop_ok pass_input (ports f) f) with (f := f) as (f1 & -> & Hs1); [|done|].
  { intros ind g Hind Hg.
    destruct (pass_input_ok h (Z.of_nat k) 0 g) with (ind := ind) as (g' & Hg' & Hsg);
      [by apply (ready_skeleton _ _ _ f)| |exists g'; split; [done|congruence]].
    eapply (same_in_ports _ _ f); [reflexivity | exact Hg | done]. }
  simpl. destruct (upto_split k nfdir Hnf) as (m & ->). rewrite forM_app.
  destruct (nest_ok pass_fwd_seed (seq 0 k) (ports f1) f) with (f := f1)
    as (f2 & -> & Hs2); [|done|].
  { intros dir ind g Hdir Hind Hg.
    destruct (pass_fwd_seed_ok h (Z.of_nat k) 0 g) with (dir := dir) (ind := ind)
      as (g' & Hg' & Hsg);
      [by apply (ready_skeleton _ _ _ f)| | |exists g'; split; [done|congruence]].
    - apply elem_of_seq in Hdir. lia.
    - eapply (same_in_ports _ _ f); [exact Hs1 | exact Hg | done]. }
  simpl.
  assert (Hr2 : ready h (Z.of_nat k) 0 f2) by (by apply (ready_skeleton _ _ _ f)).
  destruct (skeleton_lengths _ _ Hs1) as (Hp1 & _). rewrite Hp1. unfold ports.
  destruct (input_ f) as [|io ios] eqn:Hin; [done|]. simpl.
  assert (Hlen2 : (0 < length (input_ f2))%nat).
  { destruct (skeleton_lengths _ _ Hs2) as (Hp2 & _). unfold ports in Hp2.
    rewrite Hin in Hp2. simpl in Hp2. destruct (input_ f2); [discriminate | simpl; lia]. }
  destruct (ready_inputs _ _ _ _ Hr2 0%nat Hlen2) as (slot & Hslot & Hr).
  destruct (mapped_slot_Ok _ _ _ _ Hslot Hr) as (e & He & Hm).
  unfold pass_fwd_seed at 1. rewrite Hm. simpl.
  rewrite vec_at_ge; [done|].
  apply skeleton_alg in Hs2 as Halg.
  destruct (fmap_eq_lookup _ _ _ _ _ Halg He) as (e0 & He0 & Hsh).
  unfold entry_shape in Hsh. injection Hsh as _ HF _. rewrite <- HF, (Hk _ _ He0). lia.
Qed.

Lemma evaluate_forward_overflow_witness :
  exists f,
    f = set_input_ tape_mul_seeded
          ((fun io => mkIO (data io) (dataF io ++ dataF io) (dataA io))
             <$> input_ tape_mul_seeded)
    /\ ready heap_mul (Z.of_nat 1) 0 f /\ evaluate heap_mul 2 0 f = Throw OutOfRange.
Proof.
  eexists. split; [reflexivity|].
  set (f := set_input_ tape_mul_seeded _).
  assert (Hr : ready heap_mul (Z.of_nat 1) 0 f).
  { destruct (tape_mul_ready tape_mul_seeded eq_refl) as [Hi Ho He _ Hop].
    split; [exact Hi | exact Ho | | | ].
    - intros el e Hel. destruct (He el e Hel) as (? & ? & ?). split; [done|]. split; [lia|done].
    - intros [|[|ind]] io Hio; simpl in Hio; try discriminate; injection Hio as <-;
        simpl; lia.
    - intros ind io Hio. destruct (Hop ind io Hio). lia. }
  split; [exact Hr|].
  apply (evaluate_forward_overflow heap_mul 1 2 0 f Hr); [discriminate | | | lia].
  - intros [|[|[|[|el]]]] e He; simpl in He; try discriminate; by injection He as <-.
  - intros [|[|ind]] io Hio; simpl in Hio; try discriminate; injection Hio as <-; simpl; lia.
Defined.

(** X6.  More adjoint directions than the tape has buffers.  Take an instance
    that is ready for [nfdir] forward and [k] adjoint directions, whose
    tape is not empty and whose entries hold exactly [k] adjoint buffers.
    Then [evaluate(nfdir, nadir)] with [nadir > k] runs its forward part
    and throws [std::out_of_range] from the loop that clears the adjoint
    buffers, at [dataA.at(k)] of the first entry. *)
Theorem evaluate_adjoint_overflow (h : Heap) (k : nat) (nfdir nadir : Z)
  (f : MXFunctionInternal) :
  ready h nfdir (Z.of_nat k) f -> alg f <> [] ->
  (forall el e, alg f !! el = Some e -> length (dataA (val e)) = k) ->
  Z.of_nat k < nadir ->
  (exists f1, forward_pass h nfdir f = Ok f1)
  /\ evaluate h nfdir nadir f = Throw OutOfRange.
Proof.
  intros Hready Hne Hk Hna. unfold evaluate.
  destruct (forward_pass_ok h nfdir (Z.of_nat k) f Hready f eq_refl) as (f1 & Hf1 & Hs1).
  split; [eauto|]. rewrite Hf1. simpl.
  destruct (Z.ltb_spec 0 nadir) as [_|]; [|lia].
  unfold adjoint_pass, clear_adjoint.
  destruct (skeleton_lengths _ _ Hs1) as (_ & _ & ->). unfold entries.
  destruct (alg f) as [|e0 a] eqn:Ha; [done|]. simpl.
  destruct (upto_split k nadir Hna) as (m & ->). rewrite forM_app.
  destruct (loop_ok (clear_adj 0) (seq 0 k) f) with (f := f1) as (f2 & -> & Hs2); [|done|].
  { intros dir g Hdir Hg.
    destruct (clear_adj_ok h nfdir (Z.of_nat k) g) with (el := 0%nat) (dir := dir)
      as (g' & Hg' & Hsg);
      [by apply (ready_skeleton _ _ _ f)| | |exists g'; split; [done|congruence]].
    - destruct (skeleton_lengths _ _ Hg) as (_ & _ & He). unfold entries in He.
      rewrite Ha in He. simpl in He. destruct (alg g); [discriminate | simpl; lia].
    - apply elem_of_seq in Hdir. lia. }
  simpl. apply skeleton_alg in Hs2 as Halg.
  assert (He0 : alg f !! 0%nat = Some e0) by (by rewrite Ha).
  destruct (fmap_eq_lookup _ _ _ _ _ (eq_sym Halg) He0) as (e & He & Hsh).
  unfold clear_adj at 1. rewrite (vec_get_nat _ _ _ He). simpl.
  rewrite vec_at_ge; [done|].
  unfold entry_shape in Hsh. injection Hsh as _ _ HA. rewrite HA, (Hk 0%nat e0 eq_refl). lia.
Qed.

Lemma evaluate_adjoint_overflow_witness :
  ready heap_mul 1 (Z.of_nat 1) tape_mul_seeded
  /\ evaluate heap_mul 1 3 tape_mul_seeded = Throw OutOfRange.
Proof.
  assert (Hr : ready heap_mul 1 (Z.of_nat 1) tape_mul_seeded) by (by apply tape_mul_ready).
  split; [exact Hr|].
  apply (evaluate_adjoint_overflow heap_mul 1 1 3 tape_mul_seeded Hr); [discriminate | | lia].
  intros [|[|[|[|el]]]] e He; simpl in He; try discriminate; by injection He as <-.
Defined.

(** ** What [evaluate] hands back *)

Lemma nest_establish {A B S : Type} (P : A -> B -> S -> Prop)
  (g : A -> B -> S -> Outcome S) (l1 : list A) (l2 : list B) :
  (forall a b s s', g a b s = Ok s' -> P a b s') ->
  (forall a b a' b' s s', g a b s = Ok s' -> P a' b' s -> P a' b' s') ->
  forall s s', forM (fun a => forM (g a) l2) l1 s = Ok s' ->
    forall a b, a ∈ l1 -> b ∈ l2 -> P a b s'.
Proof.
  intros Hest Hkeep s s' H a b Ha Hb.
  refine (forM_establish (fun a s => forall b, b ∈ l2 -> P a b s)
            (fun a => forM (g a) l2) l1 _ _ s s' H a Ha b Hb).
  - intros a0 t t' Ht b0 Hb0.
    refine (forM_establish (P a0) (g a0) l2 _ _ t t' Ht b0 Hb0); eauto.
  - intros a0 a1 t t' Ht HP b0 Hb0.
    refine (forM_keeps (P a1 b0) (g a0) l2 _ t t' Ht (HP b0 Hb0)). eauto.
Qed.

Lemma mapped_slot_inv (x_ind : list Z) (a : list AlgEl) ind se :
  mapped_slot x_ind a ind = Ok se ->
  exists slot, x_ind !! ind = Some slot /\ 0 <= slot /\ se.1 = Z.to_nat slot
               /\ a !! Z.to_nat slot = Some se.2.
Proof.
  intros H. unfold mapped_slot in H. apply bind_Ok in H as (slot & Hs & H).
  apply bind_Ok in H as (e & He & H). injection H as <-.
  apply vec_get_inv in Hs. apply vec_get_Z_inv in He as [Hpos He]. by exists slot.
Qed.

Lemma primal_lookup a i e : a !! i = Some e -> primal a i = m_data (data (val e)).
Proof. intros H. unfold primal. by rewrite H. Qed.

Lemma tangent_lookup a i d e m :
  a !! i = Some e -> dataF (val e) !! d = Some m -> tangent a i d = m_data m.
Proof. intros H Hm. unfold tangent. by rewrite H; simpl; rewrite Hm. Qed.

Lemma adjoint_lookup a i d e m :
  a !! i = Some e -> dataA (val e) !! d = Some m -> adjoint a i d = m_data m.
Proof. intros H Hm. unfold adjoint. by rewrite H; simpl; rewrite Hm. Qed.

Lemma get_output_reads ind f f' :
  get_output ind f = Ok f' -> alg f' = alg f /\ output_read (alg f') f' ind.
Proof.
  intros H. unfold get_output in H. invert_step H. injection H as <-.
  destruct (mapped_slot_inv _ _ _ _ Hx) as (slot & Hs & Hpos & _ & He).
  apply vec_at_inv in Hx0. split; [done|].
  exists slot, (with_data (set_m (m_data (data (val x.2)))) x0). simpl.
  rewrite list_lookup_alter_eq, Hx0. by rewrite (primal_lookup _ _ _ He).
Qed.

Lemma get_output_keeps ind b f f' :
  get_output b f = Ok f' -> output_read (alg f) f ind -> output_read (alg f') f' ind.
Proof.
  intros H (slot & io & Hs & Hpos & Hio & Hd).
  destruct (decide (b = ind)) as [->|Hne].
  - by apply get_output_reads in H as [_ H].
  - unfold get_output in H. invert_step H. injection H as <-.
    exists slot, io. simpl. by rewrite list_lookup_alter_ne.
Qed.

Lemma get_fwd_sens_keeps_output ind dir b f f' :
  get_fwd_sens dir b f = Ok f' -> output_read (alg f) f ind -> output_read (alg f') f' ind.
Proof.
  intros H (slot & io & Hs & Hpos & Hio & Hd).
  unfold get_fwd_sens in H. invert_step H. injection H as <-.
  destruct (decide (b = ind)) as [->|Hne].
  - eexists slot, _. simpl. rewrite list_lookup_alter_eq, Hio. done.
  - exists slot, io. simpl. by rewrite list_lookup_alter_ne.
Qed.

Lemma get_fwd_sens_reads dir ind f f' :
  get_fwd_sens dir ind f = Ok f' -> alg f' = alg f /\ fwd_sens_read (alg f') f' dir ind.
Proof.
  intros H. unfold get_fwd_sens in H. invert_step H. injection H as <-.
  destruct (mapped_slot_inv _ _ _ _ Hx) as (slot & Hs & Hpos & _ & He).
  apply vec_at_inv in Hx0, Hx1, Hx2. split; [done|].
  exists slot, (with_dataF dir (set_m (m_data x0)) x1), (set_m (m_data x0) x2). simpl.
  rewrite list_lookup_alter_eq, Hx1. split; [done|]. split; [done|]. split; [done|].
  rewrite list_lookup_alter_eq, Hx2. split; [done|]. simpl.
  by rewrite (tangent_lookup _ _ _ _ _ He Hx0).
Qed.

Lemma get_fwd_sens_keeps dir ind d b f f' :
  get_fwd_sens d b f = Ok f' ->
  fwd_sens_read (alg f) f dir ind -> fwd_sens_read (alg f') f' dir ind.
Proof.
  intros H (slot & io & m & Hs & Hpos & Hio & Hm & Hd).
  destruct (decide (b = ind)) as [->|Hne].
  - destruct (decide (d = dir)) as [->|Hnd].
    + by apply get_fwd_sens_reads in H as [_ H].
    + unfold get_fwd_sens in H. invert_step H. injection H as <-.
      eexists slot, _, m. simpl. rewrite list_lookup_alter_eq, Hio. simpl.
      split; [done|]. split; [done|]. split; [done|]. simpl.
      by rewrite list_lookup_alter_ne.
  - unfold get_fwd_sens in H. invert_step H. injection H as <-.
    exists slot, io, m. simpl. by rewrite list_lookup_alter_ne.
Qed.

Lemma get_adj_sens_reads ind dir f f' :
  get_adj_sens ind dir f = Ok f' -> alg f' = alg f /\ adj_sens_read (alg f') f' ind dir.
Proof.
  intros H. unfold get_adj_sens in H. invert_step H. injection H as <-.
  destruct (mapped_slot_inv _ _ _ _ Hx) as (slot & Hs & Hpos & _ & He).
  apply vec_at_inv in Hx0, Hx1, Hx2. split; [done|].
  exists slot, (with_dataA dir (set_m (m_data x0)) x1), (set_m (m_data x0) x2). simpl.
  rewrite list_lookup_alter_eq, Hx1. split; [done|]. split; [done|]. split; [done|].
  rewrite list_lookup_alter_eq, Hx2. split; [done|]. simpl.
  by rewrite (adjoint_lookup _ _ _ _ _ He Hx0).
Qed.

Lemma get_adj_sens_keeps ind dir b d f f' :
  get_adj_sens b d f = Ok f' ->
  adj_sens_read (alg f) f ind dir -> adj_sens_read (alg f') f' ind dir.
Proof.
  intros H (slot & io & m & Hs & Hpos & Hio & Hm & Hd).
  destruct (decide (b = ind)) as [->|Hne].
  - destruct (decide (d = dir)) as [->|Hnd].
    + by apply get_adj_sens_reads in H as [_ H].
    + unfold get_adj_sens in H. invert_step H. injection H as <-.
      eexists slot, _, m. simpl. rewrite list_lookup_alter_eq, Hio. simpl.
      split; [done|]. split; [done|]. split; [done|]. simpl.
      by rewrite list_lookup_alter_ne.
  - unfold get_adj_sens in H. invert_step H. injection H as <-.
    exists slot, io, m. simpl. by rewrite list_lookup_alter_ne.
Qed.

(** The two loops that end the forward part, from the state [f3] the
    sweep has left. *)
Lemma forward_reads nfdir f3 f4 f5 :
  forM get_output (outports f3) f3 = Ok f4 ->
  forM (fun dir => forM (get_fwd_sens dir) (outports f4)) (upto nfdir) f4 = Ok f5 ->
  alg f5 = alg f3
  /\ forall ind, (ind < length (outputv f3))%nat ->
       output_read (alg f5) f5 ind
       /\ forall dir, Z.of_nat dir < nfdir -> fwd_sens_read (alg f5) f5 dir ind.
Proof.
  intros H4 H5.
  assert (Ha4 : alg f4 = alg f3).
  { refine (forM_keeps (fun s => alg s = alg f3) _ _ _ _ _ H4 eq_refl).
    intros a s s' Hs Hq. apply get_output_reads in Hs as [-> _]. done. }
  assert (Ha5 : alg f5 = alg f3).
  { refine (forM_keeps (fun s => alg s = alg f3) _ _ _ _ _ H5 Ha4).
    intros d s s' Hs Hq. refine (forM_keeps (fun s => alg s = alg f3) _ _ _ _ _ Hs Hq).
    intros a t t' Ht Hq'. apply get_fwd_sens_reads in Ht as [-> _]. done. }
  assert (Ho4 : outputv f4 = outputv f3).
  { apply (loop_untouched _ _ get_output_untouched) in H4 as [Hfr _].
    unfold frame in Hfr. congruence. }
  split; [done|]. intros ind Hind.
  assert (Hin : ind ∈ outports f3) by (unfold outports; rewrite elem_of_seq; lia).
  assert (Hread4 : output_read (alg f4) f4 ind).
  { refine (forM_establish (fun i s => output_read (alg s) s i) get_output
              (outports f3) _ _ f3 f4 H4 ind Hin).
    - intros a s s' Hs. by apply get_output_reads in Hs as [_ Hs].
    - intros a b s s'. apply get_output_keeps. }
  split.
  - refine (forM_keeps (fun s => output_read (alg s) s ind) _ _ _ _ _ H5 Hread4).
    intros d s s' Hs.
    refine (forM_keeps (fun s => output_read (alg s) s ind) _ _ _ _ _ Hs).
    intros b t t'. apply get_fwd_sens_keeps_output.
  - intros dir Hdir.
    refine (nest_establish (fun d i s => fwd_sens_read (alg s) s d i) get_fwd_sens
              (upto nfdir) (outports f4) _ _ f4 f5 H5 dir ind _ _).
    + intros d b s s' Hs. by apply get_fwd_sens_reads in Hs as [_ Hs].
    + intros d b d' b' s s'. apply get_fwd_sens_keeps.
    + unfold upto. rewrite elem_of_seq. lia.
    + unfold outports. rewrite Ho4. fold (outports f3). done.
Qed.

Lemma untouched_parts f g :
  untouched f g ->
  length (input_ g) = length (input_ f) /\ outputv g = outputv f
  /\ inputv_ind g = inputv_ind f /\ outputv_ind g = outputv_ind f.
Proof.
  intros [Hfr Hcd]. unfold frame in Hfr. unfold caller_data in Hcd.
  injection Hcd as Hd _ _. apply fmap_eq_length in Hd.
  split; [done|]. repeat split; congruence.
Qed.

Lemma adjoint_pass_outputs h nadir f f' :
  adjoint_pass h nadir f = Ok f' -> output_ f' = output_ f.
Proof.
  intros H. unfold adjoint_pass, clear_adjoint, pass_adjoint_seeds, adjoint_sweep,
    get_adjoint_sens in H.
  apply bind_Ok in H as (f1 & H1 & H). apply bind_Ok in H as (f2 & H2 & H).
  apply bind_Ok in H as (f3 & H3 & H).
  assert (Hnest : forall (A B : Type)
            (g : A -> B -> MXFunctionInternal -> Outcome MXFunctionInternal) l1 l2 s s',
            (forall a b t t', g a b t = Ok t' -> output_ t' = output_ t) ->
            forM (fun a => forM (g a) l2) l1 s = Ok s' -> output_ s' = output_ s).
  { intros A B g l1 l2 s s' Hg Hs.
    refine (forM_keeps (fun t => output_ t = output_ s) _ _ _ _ _ Hs eq_refl).
    intros a t t' Ht Hq.
    refine (forM_keeps (fun t => output_ t = output_ s) _ _ _ _ _ Ht Hq).
    intros b u u' Hu Hq'. by rewrite (Hg _ _ _ _ Hu). }
  apply Hnest in H1, H2, H.
  - assert (H3' : output_ f3 = output_ f2).
    { refine (forM_keeps (fun t => output_ t = output_ f2) _ _ _ _ _ H3 eq_refl).
      intros a t t' Ht Hq. unfold eval_adjoint in Ht. invert_step Ht.
      by injection Ht as <-. }
    congruence.
  - intros a b t t' Ht. unfold get_adj_sens in Ht. invert_step Ht. by injection Ht as <-.
  - intros a b t t' Ht. unfold pass_adj_seed in Ht. invert_step Ht. by injection Ht as <-.
  - intros a b t t' Ht. unfold clear_adj in Ht. invert_step Ht. by injection Ht as <-.
Qed.

(** X7.  What [evaluate] hands back.  On an instance that is ready for
    the requested direction counts the call completes, and afterwards:
    every output port holds the value, and for every requested forward
    direction the tangent, that the tape held at the port's slot when the
    forward part ended; and if [nadir > 0], every input port holds, for
    every requested adjoint direction, the sensitivity the tape holds at
    the port's slot. *)
Theorem evaluate_reads_back (h : Heap) (nfdir nadir : Z) (f : MXFunctionInternal) :
  ready h nfdir nadir f ->
  exists f1 f',
    forward_pass h nfdir f = Ok f1 /\ evaluate h nfdir nadir f = Ok f'
    /\ (forall ind, (ind < length (outputv f))%nat ->
          output_read (alg f1) f' ind
          /\ forall dir, Z.of_nat dir < nfdir -> fwd_sens_read (alg f1) f' dir ind)
    /\ (0 < nadir -> forall ind dir,
          (ind < length (input_ f))%nat -> Z.of_nat dir < nadir ->
          adj_sens_read (alg f') f' ind dir).
Proof.
  intros Hready. destruct (evaluate_ok _ _ _ _ Hready) as (f' & Hev & _).
  pose proof Hev as Hev'. unfold evaluate in Hev'.
  apply bind_Ok in Hev' as (f1 & Hf1 & Hadj). exists f1, f'.
  split; [done|]. split; [done|].
  pose proof (forward_pass_untouched _ _ _ _ Hf1) as Hu1.
  pose proof Hf1 as Hfw. unfold forward_pass, forward_sweep in Hfw.
  apply bind_Ok in Hfw as (fA & HA & Hfw). apply bind_Ok in Hfw as (fB & HB & Hfw).
  apply bind_Ok in Hfw as (fC & HC & Hfw). apply bind_Ok in Hfw as (fD & HD & Hfw).
  assert (HuC : untouched f fC).
  { apply loop_untouched in HA; [|apply pass_input_untouched].
    apply loop_untouched in HB;
      [|intros dir; apply loop_untouched; apply pass_fwd_seed_untouched].
    apply loop_untouched in HC; [|apply eval_forward_untouched].
    eauto using untouched_trans. }
  destruct (forward_reads _ _ _ _ HD Hfw) as (_ & Hreads).
  destruct (untouched_parts _ _ HuC) as (_ & HovC & _).
  destruct (untouched_parts _ _ Hu1) as (Hlen1 & _).
  destruct (Z.ltb_spec 0 nadir) as [Hpos|Hnpos].
  - pose proof (adjoint_pass_outputs _ _ _ _ Hadj) as Hout.
    pose proof (adjoint_pass_untouched _ _ _ _ Hadj) as Hu'.
    destruct (untouched_parts _ _ Hu') as (Hlen' & _ & _ & Hoi').
    split.
    + intros ind Hind. rewrite <- HovC in Hind. destruct (Hreads ind Hind) as [Hr Hs]. split.
      * destruct Hr as (slot & io & ? & ? & ? & ?). exists slot, io.
        rewrite Hoi', Hout. done.
      * intros dir Hdir. destruct (Hs dir Hdir) as (slot & io & m & ? & ? & ? & ? & ?).
        exists slot, io, m. rewrite Hoi', Hout. done.
    + intros _ ind dir Hind Hdir. unfold adjoint_pass in Hadj.
      apply bind_Ok in Hadj as (fa & Ha & Hadj). apply bind_Ok in Hadj as (fb & Hb & Hadj).
      apply bind_Ok in Hadj as (fc & Hc & Hadj). unfold get_adjoint_sens in Hadj.
      refine (nest_establish (fun i d s => adj_sens_read (alg s) s i d) get_adj_sens
                (ports fc) (upto nadir) _ _ fc f' Hadj ind dir _ _).
      * intros i d s s' Hs. by apply get_adj_sens_reads in Hs as [_ Hs].
      * intros i d i' d' s s'. apply get_adj_sens_keeps.
      * assert (Hlc : length (input_ fc) = length (input_ f1)).
        { unfold clear_adjoint in Ha. unfold pass_adjoint_seeds in Hb.
          unfold adjoint_sweep in Hc.
          apply loop_untouched in Ha;
            [|intros el; apply loop_untouched; apply clear_adj_untouched].
          apply loop_untouched in Hb;
            [|intros i; apply loop_untouched; apply pass_adj_seed_untouched].
          apply loop_untouched in Hc; [|apply eval_adjoint_untouched].
          apply untouched_parts in Ha as (Ha & _), Hb as (Hb & _), Hc as (Hc & _).
          congruence. }
        unfold ports. rewrite elem_of_seq. lia.
      * unfold upto. rewrite elem_of_seq. lia.
  - injection Hadj as <-. split; [|lia].
    intros ind Hind. rewrite <- HovC in Hind. apply (Hreads ind Hind).
Qed.

Lemma evaluate_reads_back_witness :
  exists f1 f',
    forward_pass heap_mul 1 tape_mul_seeded = Ok f1
    /\ evaluate heap_mul 1 1 tape_mul_seeded = Ok f'
    /\ (forall ind, (ind < length (outputv tape_mul_seeded))%nat ->
          output_read (alg f1) f' ind
          /\ forall dir, Z.of_nat dir < 1 -> fwd_sens_read (alg f1) f' dir ind)
    /\ (0 < 1 -> forall ind dir,
          (ind < length (input_ tape_mul_seeded))%nat -> Z.of_nat dir < 1 ->
          adj_sens_read (alg f') f' ind dir).
Proof.
  apply (evaluate_reads_back heap_mul 1 1 tape_mul_seeded). by apply tape_mul_ready.
Defined.

(** ** What [evaluate] loads into the tape *)

Lemma primal_alter_ne g k k' a : k <> k' -> primal (alter g k a) k' = primal a k'.
Proof. intros Hne. unfold primal. by rewrite list_lookup_alter_ne. Qed.

Lemma tangent_alter_ne g k k' d a : k <> k' -> tangent (alter g k a) k' d = tangent a k' d.
Proof. intros Hne. unfold tangent. by rewrite list_lookup_alter_ne. Qed.

Lemma adjoint_alter_ne g k k' d a : k <> k' -> adjoint (alter g k a) k' d = adjoint a k' d.
Proof. intros Hne. unfold adjoint. by rewrite list_lookup_alter_ne. Qed.

Lemma primal_alter_dataF g d k k' a :
  primal (alter (with_val (with_dataF d g)) k a) k' = primal a k'.
Proof.
  unfold primal. destruct (decide (k = k')) as [->|Hne].
  - rewrite list_lookup_alter_eq. by destruct (a !! k').
  - by rewrite list_lookup_alter_ne.
Qed.

Lemma primal_alter_data v k a e :
  a !! k = Some e -> primal (alter (with_val (with_data (set_m v))) k a) k = v.
Proof. intros He. unfold primal. by rewrite list_lookup_alter_eq, He. Qed.

Lemma tangent_alter_eq v k d a e m :
  a !! k = Some e -> dataF (val e) !! d = Some m ->
  tangent (alter (with_val (with_dataF d (set_m v))) k a) k d = v.
Proof.
  intros He Hm. unfold tangent. rewrite list_lookup_alter_eq, He. simpl.
  by rewrite list_lookup_alter_eq, Hm.
Qed.

Lemma tangent_alter_ne_dir g k k' d d' a :
  d <> d' -> tangent (alter (with_val (with_dataF d g)) k a) k' d' = tangent a k' d'.
Proof.
  intros Hne. unfold tangent. destruct (decide (k = k')) as [->|Hk].
  - rewrite list_lookup_alter_eq. destruct (a !! k'); [|done]. simpl.
    by rewrite list_lookup_alter_ne.
  - by rewrite list_lookup_alter_ne.
Qed.

Lemma adjoint_alter_eq v k d a e m :
  a !! k = Some e -> dataA (val e) !! d = Some m ->
  adjoint (alter (with_val (with_dataA d (set_m v))) k a) k d = v.
Proof.
  intros He Hm. unfold adjoint. rewrite list_lookup_alter_eq, He. simpl.
  by rewrite list_lookup_alter_eq, Hm.
Qed.

Lemma adjoint_alter_ne_dir g k k' d d' a :
  d <> d' -> adjoint (alter (with_val (with_dataA d g)) k a) k' d' = adjoint a k' d'.
Proof.
  intros Hne. unfold adjoint. destruct (decide (k = k')) as [->|Hk].
  - rewrite list_lookup_alter_eq. destruct (a !! k'); [|done]. simpl.
    by rewrite list_lookup_alter_ne.
  - by rewrite list_lookup_alter_ne.
Qed.

Lemma pass_input_inv ind f f' :
  pass_input ind f = Ok f' ->
  exists slot e io, inputv_ind f !! ind = Some slot /\ 0 <= slot
    /\ alg f !! Z.to_nat slot = Some e /\ input_ f !! ind = Some io
    /\ alg f' = alter (with_val (with_data (set_m (m_data (data io))))) (Z.to_nat slot) (alg f)
    /\ input_ f' = input_ f /\ inputv_ind f' = inputv_ind f.
Proof.
  intros H. unfold pass_input in H. invert_step H. injection H as <-.
  destruct (mapped_slot_inv _ _ _ _ Hx) as (slot & Hs & Hpos & Hse & He).
  apply vec_at_inv in Hx0. exists slot, x.2, x0. rewrite Hse. done.
Qed.

Lemma pass_fwd_seed_inv dir ind f f' :
  pass_fwd_seed dir ind f = Ok f' ->
  exists slot e m0 io m, inputv_ind f !! ind = Some slot /\ 0 <= slot
    /\ alg f !! Z.to_nat slot = Some e /\ dataF (val e) !! dir = Some m0
    /\ input_ f !! ind = Some io /\ dataF io !! dir = Some m
    /\ alg f' = alter (with_val (with_dataF dir (set_m (m_data m)))) (Z.to_nat slot) (alg f)
    /\ input_ f' = input_ f /\ inputv_ind f' = inputv_ind f.
Proof.
  intros H. unfold pass_fwd_seed in H. invert_step H. injection H as <-.
  destruct (mapped_slot_inv _ _ _ _ Hx) as (slot & Hs & Hpos & Hse & He).
  apply vec_at_inv in Hx0, Hx1, Hx2. exists slot, x.2, x0, x1, x2. rewrite Hse. done.
Qed.

Lemma pass_adj_seed_inv ind dir f f' :
  pass_adj_seed ind dir f = Ok f' ->
  exists slot e m0 io m, outputv_ind f !! ind = Some slot /\ 0 <= slot
    /\ alg f !! Z.to_nat slot = Some e /\ dataA (val e) !! dir = Some m0
    /\ output_ f !! ind = Some io /\ dataA io !! dir = Some m
    /\ alg f' = alter (with_val (with_dataA dir (set_m (m_data m)))) (Z.to_nat slot) (alg f)
    /\ output_ f' = output_ f /\ outputv_ind f' = outputv_ind f.
Proof.
  intros H. unfold pass_adj_seed in H. invert_step H. injection H as <-.
  destruct (mapped_slot_inv _ _ _ _ Hx) as (slot & Hs & Hpos & Hse & He).
  apply vec_at_inv in Hx0, Hx1, Hx2. exists slot, x.2, x0, x1, x2. rewrite Hse. done.
Qed.

Lemma own_slot_ne (x_ind : list Z) ind b slot slot_b :
  own_slot x_ind ind -> b <> ind -> x_ind !! ind = Some slot -> x_ind !! b = Some slot_b ->
  0 <= slot -> 0 <= slot_b -> Z.to_nat slot_b <> Z.to_nat slot.
Proof.
  intros Hown Hne Hs Hb Hpos Hposb Heq. apply (Hown b Hne). rewrite Hs, Hb. f_equal. lia.
Qed.

Lemma pass_input_loads ind f f' :
  pass_input ind f = Ok f' -> input_loaded f' (alg f') ind.
Proof.
  intros H.
  destruct (pass_input_inv _ _ _ H) as (slot & e & io & Hs & Hpos & He & Hio & Ha & Hi & Hv).
  exists slot, io. rewrite Hv, Hi, Ha. repeat (split; [done|]).
  by rewrite (primal_alter_data _ _ _ _ He).
Qed.

Lemma pass_input_keeps ind b f f' :
  pass_input b f = Ok f' ->
  (own_slot (inputv_ind f) ind -> input_loaded f (alg f) ind) ->
  own_slot (inputv_ind f') ind -> input_loaded f' (alg f') ind.
Proof.
  intros H HP Hown. destruct (decide (b = ind)) as [->|Hne]; [by eapply pass_input_loads|].
  destruct (pass_input_inv _ _ _ H) as (sb & e & iob & Hsb & Hposb & He & Hiob & Ha & Hi & Hv).
  rewrite Hv in Hown. destruct (HP Hown) as (slot & io & Hs & Hpos & Hio & Hd).
  exists slot, io. rewrite Hv, Hi, Ha. repeat (split; [done|]).
  rewrite primal_alter_ne; [done|]. by eapply own_slot_ne.
Qed.

Lemma pass_fwd_seed_keeps_input ind d b f f' :
  pass_fwd_seed d b f = Ok f' ->
  (own_slot (inputv_ind f) ind -> input_loaded f (alg f) ind) ->
  own_slot (inputv_ind f') ind -> input_loaded f' (alg f') ind.
Proof.
  intros H HP Hown.
  destruct (pass_fwd_seed_inv _ _ _ _ H)
    as (sb & e & m0 & iob & m & _ & _ & _ & _ & _ & _ & Ha & Hi & Hv).
  rewrite Hv in Hown. destruct (HP Hown) as (slot & io & Hs & Hpos & Hio & Hd).
  exists slot, io. rewrite Hv, Hi, Ha. repeat (split; [done|]). by rewrite primal_alter_dataF.
Qed.

Lemma pass_fwd_seed_loads dir ind f f' :
  pass_fwd_seed dir ind f = Ok f' -> fwd_seed_loaded f' (alg f') dir ind.
Proof.
  intros H. destruct (pass_fwd_seed_inv _ _ _ _ H)
    as (slot & e & m0 & io & m & Hs & Hpos & He & Hm0 & Hio & Hm & Ha & Hi & Hv).
  exists slot, io, m. rewrite Hv, Hi, Ha. repeat (split; [done|]).
  by rewrite (tangent_alter_eq _ _ _ _ _ _ He Hm0).
Qed.

Lemma pass_fwd_seed_keeps dir ind d b f f' :
  pass_fwd_seed d b f = Ok f' ->
  (own_slot (inputv_ind f) ind -> fwd_seed_loaded f (alg f) dir ind) ->
  own_slot (inputv_ind f') ind -> fwd_seed_loaded f' (alg f') dir ind.
Proof.
  intros H HP Hown.
  destruct (decide (b = ind /\ d = dir)) as [[-> ->]|Hne]; [by eapply pass_fwd_seed_loads|].
  destruct (pass_fwd_seed_inv _ _ _ _ H)
    as (sb & e & m0 & iob & mb & Hsb & Hposb & _ & _ & _ & _ & Ha & Hi & Hv).
  rewrite Hv in Hown. destruct (HP Hown) as (slot & io & m & Hs & Hpos & Hio & Hm & Hd).
  exists slot, io, m. rewrite Hv, Hi, Ha. repeat (split; [done|]).
  destruct (decide (b = ind)) as [->|Hb].
  - rewrite tangent_alter_ne_dir; [done|]. intros ->. by apply Hne.
  - rewrite tangent_alter_ne; [done|]. by eapply own_slot_ne.
Qed.

(** X8.  What [evaluate] loads before it runs the nodes.  On a ready
    instance the two loops that open [evaluate] complete, and when they
    are done the tape holds, at the slot of every input port that shares
    its slot with no other port, the value of the port and, for every
    requested forward direction, the forward seed of the port. *)
Theorem evaluate_loads_inputs (h : Heap) (nfdir nadir : Z) (f : MXFunctionInternal) :
  ready h nfdir nadir f ->
  exists fA fB,
    forM pass_input (ports f) f = Ok fA
    /\ forM (fun dir => forM (pass_fwd_seed dir) (ports fA)) (upto nfdir) fA = Ok fB
    /\ forall ind, (ind < length (input_ f))%nat -> own_slot (inputv_ind f) ind ->
         input_loaded f (alg fB) ind
         /\ forall dir, Z.of_nat dir < nfdir -> fwd_seed_loaded f (alg fB) dir ind.
Proof.
  intros Hready.
  destruct (loop_ok pass_input (ports f) f) with (f := f) as (fA & HA & HsA); [|done|].
  { intros ind g Hind Hg.
    destruct (pass_input_ok h nfdir nadir g) with (ind := ind) as (g' & Hg' & Hsg);
      [by apply (ready_skeleton _ _ _ f)| |exists g'; split; [done|congruence]].
    eapply (same_in_ports _ _ f); [reflexivity | exact Hg | done]. }
  destruct (nest_ok pass_fwd_seed (upto nfdir) (ports fA) f) with (f := fA)
    as (fB & HB & HsB); [|done|].
  { intros dir ind g Hdir Hind Hg.
    destruct (pass_fwd_seed_ok h nfdir nadir g) with (dir := dir) (ind := ind)
      as (g' & Hg' & Hsg);
      [by apply (ready_skeleton _ _ _ f)| | |exists g'; split; [done|congruence]].
    - by apply upto_lt.
    - eapply (same_in_ports _ _ f); [exact HsA | exact Hg | done]. }
  exists fA, fB. split; [done|]. split; [done|].
  assert (HiA : input_ fA = input_ f).
  { apply (loop_field input_) in HA; [done|].
    intros a t t' Ht. by destruct (pass_input_inv _ _ _ Ht) as (? & ? & ? & _ & _ & _ & _ & _ & ? & _). }
  assert (HiB : input_ fB = input_ fA).
  { apply (loop_field input_) in HB; [done|]. intros d. apply (loop_field input_).
    intros a t t' Ht.
    by destruct (pass_fwd_seed_inv _ _ _ _ Ht)
      as (? & ? & ? & ? & ? & _ & _ & _ & _ & _ & _ & _ & ? & _). }
  assert (HvA : inputv_ind fA = inputv_ind f).
  { apply skeleton_frame in HsA. unfold frame in HsA. congruence. }
  assert (HvB : inputv_ind fB = inputv_ind f).
  { apply skeleton_frame in HsB. unfold frame in HsB. congruence. }
  intros ind Hind Hown.
  assert (HinA : ind ∈ ports f) by (unfold ports; rewrite elem_of_seq; lia).
  assert (HinB : ind ∈ ports fA) by (unfold ports; rewrite HiA, elem_of_seq; lia).
  assert (HlA : own_slot (inputv_ind fA) ind -> input_loaded fA (alg fA) ind).
  { refine (forM_establish
              (fun i s => own_slot (inputv_ind s) i -> input_loaded s (alg s) i)
              pass_input (ports f) _ _ f fA HA ind HinA).
    - intros a s s' Hs _. by eapply pass_input_loads.
    - intros a b s s'. apply pass_input_keeps. }
  split.
  - assert (HlB : own_slot (inputv_ind fB) ind -> input_loaded fB (alg fB) ind).
    { refine (forM_keeps
                (fun s => own_slot (inputv_ind s) ind -> input_loaded s (alg s) ind)
                _ _ _ _ _ HB HlA).
      intros d s s' Hs.
      refine (forM_keeps
                (fun s => own_slot (inputv_ind s) ind -> input_loaded s (alg s) ind)
                _ _ _ _ _ Hs).
      intros b t t'. apply pass_fwd_seed_keeps_input. }
    unfold input_loaded in HlB. rewrite HvB, HiB, HiA in HlB. exact (HlB Hown).
  - intros dir Hdir.
    assert (HQ : own_slot (inputv_ind fB) ind -> fwd_seed_loaded fB (alg fB) dir ind).
    { refine (nest_establish
                (fun d i s => own_slot (inputv_ind s) i -> fwd_seed_loaded s (alg s) d i)
                pass_fwd_seed (upto nfdir) (ports fA) _ _ fA fB HB dir ind _ HinB).
      - intros d b s s' Hs _. by eapply pass_fwd_seed_loads.
      - intros d b d' b' s s'. apply pass_fwd_seed_keeps.
      - unfold upto. rewrite elem_of_seq. lia. }
    unfold fwd_seed_loaded in HQ. rewrite HvB, HiB, HiA in HQ. exact (HQ Hown).
Qed.

Lemma evaluate_loads_inputs_witness :
  exists fA fB,
    forM pass_input (ports tape_mul_seeded) tape_mul_seeded = Ok fA
    /\ forM (fun dir => forM (pass_fwd_seed dir) (ports fA)) (upto 1) fA = Ok fB
    /\ forall ind, (ind < length (input_ tape_mul_seeded))%nat ->
         own_slot (inputv_ind tape_mul_seeded) ind ->
         input_loaded tape_mul_seeded (alg fB) ind
         /\ forall dir, Z.of_nat dir < 1 -> fwd_seed_loaded tape_mul_seeded (alg fB) dir ind.
Proof.
  apply (evaluate_loads_inputs heap_mul 1 1 tape_mul_seeded). by apply tape_mul_ready.
Defined.

Lemma pass_adj_seed_loads ind dir f f' :
  pass_adj_seed ind dir f = Ok f' -> adj_seed_loaded f' (alg f') ind dir.
Proof.
  intros H. destruct (pass_adj_seed_inv _ _ _ _ H)
    as (slot & e & m0 & io & m & Hs & Hpos & He & Hm0 & Hio & Hm & Ha & Hi & Hv).
  exists slot, io, m. rewrite Hv, Hi, Ha. repeat (split; [done|]).
  by rewrite (adjoint_alter_eq _ _ _ _ _ _ He Hm0).
Qed.

Lemma pass_adj_seed_keeps ind dir b d f f' :
  pass_adj_seed b d f = Ok f' ->
  (own_slot (outputv_ind f) ind -> adj_seed_loaded f (alg f) ind dir) ->
  own_slot (outputv_ind f') ind -> adj_seed_loaded f' (alg f') ind dir.
Proof.
  intros H HP Hown.
  destruct (decide (b = ind /\ d = dir)) as [[-> ->]|Hne]; [by eapply pass_adj_seed_loads|].
  destruct (pass_adj_seed_inv _ _ _ _ H)
    as (sb & e & m0 & iob & mb & Hsb & Hposb & _ & _ & _ & _ & Ha & Hi & Hv).
  rewrite Hv in Hown. destruct (HP Hown) as (slot & io & m & Hs & Hpos & Hio & Hm & Hd).
  exists slot, io, m. rewrite Hv, Hi, Ha. repeat (split; [done|]).
  destruct (decide (b = ind)) as [->|Hb].
  - rewrite adjoint_alter_ne_dir; [done|]. intros ->. by apply Hne.
  - rewrite adjoint_alter_ne; [done|]. by eapply own_slot_ne.
Qed.

Lemma pass_adj_seed_keeps_zeroed el dir b d f f' :
  pass_adj_seed b d f = Ok f' -> outputv_ind f !! b <> Some (Z.of_nat el) ->
  adj_zeroed f el dir -> adj_zeroed f' el dir.
Proof.
  intros H Hne (e & m & He & Hm & Hz).
  destruct (pass_adj_seed_inv _ _ _ _ H)
    as (sb & eb & m0 & iob & mb & Hsb & Hposb & _ & _ & _ & _ & Ha & _ & _).
  exists e, m. rewrite Ha. split; [|done]. rewrite list_lookup_alter_ne; [done|].
  intros Heq. apply Hne. rewrite Hsb. f_equal. lia.
Qed.

(** X9.  What the adjoint part of [evaluate] loads.  On a ready instance
    the loops that clear the adjoint buffers and pass the adjoint seeds
    complete, and when they are done the tape holds, for every requested
    adjoint direction: at the slot of every output port that shares its
    slot with no other port, the adjoint seed of the port; and at every
    entry that is the slot of no output port, zeros. *)
Theorem evaluate_seeds_adjoints (h : Heap) (nfdir nadir : Z) (f : MXFunctionInternal) :
  ready h nfdir nadir f ->
  exists fa fb,
    clear_adjoint nadir f = Ok fa /\ pass_adjoint_seeds nadir fa = Ok fb
    /\ (forall ind dir, (ind < length (outputv f))%nat -> Z.of_nat dir < nadir ->
          own_slot (outputv_ind f) ind -> adj_seed_loaded f (alg fb) ind dir)
    /\ (forall el dir, (el < length (alg f))%nat -> Z.of_nat dir < nadir ->
          (forall ind, (ind < length (outputv f))%nat ->
                       outputv_ind f !! ind <> Some (Z.of_nat el)) ->
          adj_zeroed fb el dir).
Proof.
  intros Hready.
  destruct (clear_adjoint_ok h nfdir nadir f Hready f eq_refl) as (fa & Ha & Hsa).
  destruct (pass_adjoint_seeds_ok h nfdir nadir f Hready fa Hsa) as (fb & Hb & Hsb).
  exists fa, fb. split; [done|]. split; [done|].
  pose proof (skeleton_frame _ _ Hsa) as Hfa. pose proof (skeleton_frame _ _ Hsb) as Hfb.
  unfold frame in Hfa, Hfb. injection Hfa as _ Hova _ _ _ _ _ _ Hoia.
  injection Hfb as _ Hovb _ _ _ _ _ _ Hoib.
  assert (Houta : output_ fa = output_ f).
  { unfold clear_adjoint in Ha. apply (loop_field output_) in Ha; [done|].
    intros el. apply (loop_field output_). intros d t t' Ht.
    unfold clear_adj in Ht. step_field Ht. }
  assert (Houtb : output_ fb = output_ fa).
  { unfold pass_adjoint_seeds in Hb. apply (loop_field output_) in Hb; [done|].
    intros i. apply (loop_field output_). intros d t t' Ht.
    by destruct (pass_adj_seed_inv _ _ _ _ Ht)
      as (? & ? & ? & ? & ? & _ & _ & _ & _ & _ & _ & _ & ? & _). }
  unfold pass_adjoint_seeds in Hb. split.
  - intros ind dir Hind Hdir Hown.
    assert (HQ : own_slot (outputv_ind fb) ind -> adj_seed_loaded fb (alg fb) ind dir).
    { refine (nest_establish
                (fun i d s => own_slot (outputv_ind s) i -> adj_seed_loaded s (alg s) i d)
                pass_adj_seed (outports fa) (upto nadir) _ _ fa fb Hb ind dir _ _).
      - intros i d s s' Hs _. by eapply pass_adj_seed_loads.
      - intros i d i' d' s s'. apply pass_adj_seed_keeps.
      - unfold outports. rewrite Hova, elem_of_seq. lia.
      - unfold upto. rewrite elem_of_seq. lia. }
    unfold adj_seed_loaded in HQ. rewrite Hoib, Houtb, Houta in HQ. exact (HQ Hown).
  - intros el dir Hel Hdir Hfree.
    assert (Hza : adj_zeroed fa el dir).
    { apply (clear_adjoint_zeroes _ _ _ Ha); [|done].
      apply skeleton_alg, fmap_eq_length in Hsa. lia. }
    refine (proj2 (nest_keeps_in
              (fun s => outputv_ind s = outputv_ind f /\ adj_zeroed s el dir)
              pass_adj_seed (outports fa) (upto nadir) _ fa fb Hb (conj Hoia Hza))).
    intros i d s s' Hi _ Hs [Hv Hz].
    destruct (pass_adj_seed_inv _ _ _ _ Hs)
      as (? & ? & ? & ? & ? & _ & _ & _ & _ & _ & _ & _ & _ & Hv').
    split; [congruence|]. eapply pass_adj_seed_keeps_zeroed; [exact Hs| |done].
    rewrite Hv. apply Hfree. unfold outports in Hi. rewrite Hova in Hi.
    apply elem_of_seq in Hi. lia.
Qed.

Lemma evaluate_seeds_adjoints_witness :
  exists fa fb,
    clear_adjoint 1 tape_mul_seeded = Ok fa /\ pass_adjoint_seeds 1 fa = Ok fb
    /\ (forall ind dir, (ind < length (outputv tape_mul_seeded))%nat -> Z.of_nat dir < 1 ->
          own_slot (outputv_ind tape_mul_seeded) ind ->
          adj_seed_loaded tape_mul_seeded (alg fb) ind dir)
    /\ (forall el dir, (el < length (alg tape_mul_seeded))%nat -> Z.of_nat dir < 1 ->
          (forall ind, (ind < length (outputv tape_mul_seeded))%nat ->
                       outputv_ind tape_mul_seeded !! ind <> Some (Z.of_nat el)) ->
          adj_zeroed fb el dir).
Proof.
  apply (evaluate_seeds_adjoints heap_mul 1 1 tape_mul_seeded). by apply tape_mul_ready.
Defined.

(** ** The adjoint pass, step by step *)

Lemma pass_adj_seed_keeps_later ind dir b d f f' :
  pass_adj_seed b d f = Ok f' ->
  b = ind \/ outputv_ind f !! b <> outputv_ind f !! ind ->
  adj_seed_loaded f (alg f) ind dir -> adj_seed_loaded f' (alg f') ind dir.
Proof.
  intros H Hb HP.
  destruct (decide (b = ind /\ d = dir)) as [[-> ->]|Hne]; [by eapply pass_adj_seed_loads|].
  destruct (pass_adj_seed_inv _ _ _ _ H)
    as (sb & e & m0 & iob & mb & Hsb & Hposb & _ & _ & _ & _ & Ha & Hi & Hv).
  destruct HP as (slot & io & m & Hs & Hpos & Hio & Hm & Hd).
  exists slot, io, m. rewrite Hv, Hi, Ha. repeat (split; [done|]).
  destruct (decide (b = ind)) as [->|Hbi].
  - rewrite adjoint_alter_ne_dir; [done|]. intros ->. by apply Hne.
  - destruct Hb as [|Hb]; [done|]. rewrite adjoint_alter_ne; [done|].
    intros Heq. apply Hb. rewrite Hsb, Hs. f_equal. lia.
Qed.

Lemma pass_adj_seed_fields ind dir f f' :
  pass_adj_seed ind dir f = Ok f' ->
  output_ f' = output_ f /\ outputv_ind f' = outputv_ind f.
Proof.
  intros H.
  by destruct (pass_adj_seed_inv _ _ _ _ H) as (? & ? & ? & ? & ? & _ & _ & _ & _ & _ & _ & _ & ? & ?).
Qed.

(** Step (2): when the seeds have been passed, the slot of an output port
    holds the port's adjoint seed, unless a later port is mapped to the
    same slot. *)
Lemma pass_adjoint_seeds_loads nadir fa fb ind dir :
  pass_adjoint_seeds nadir fa = Ok fb ->
  (ind < length (outputv fa))%nat -> Z.of_nat dir < nadir ->
  last_on_slot (outputv_ind fa) ind ->
  adj_seed_loaded fa (alg fb) ind dir.
Proof.
  intros H Hind Hdir Hlast. unfold pass_adjoint_seeds, outports in H.
  replace (length (outputv fa)) with (ind + S (length (outputv fa) - S ind))%nat in H by lia.
  rewrite seq_app, forM_app in H. apply bind_Ok in H as (f1 & H1 & H).
  simpl in H. apply bind_Ok in H as (f2 & H2 & H).
  pose (fields := fun s : MXFunctionInternal => (output_ s, outputv_ind s)).
  assert (Hstep : forall a d t t', pass_adj_seed a d t = Ok t' -> fields t' = fields t).
  { intros a d t t' Ht. unfold fields. by destruct (pass_adj_seed_fields _ _ _ _ Ht) as [-> ->]. }
  assert (Hf1 : fields f1 = fields fa).
  { apply (loop_field fields) in H1; [done|]. intros a. apply (loop_field fields), Hstep. }
  assert (Hf2 : fields f2 = fields f1) by (apply (loop_field fields) in H2; [done|apply Hstep]).
  assert (Hloaded2 : adj_seed_loaded f2 (alg f2) ind dir).
  { refine (forM_establish (fun d s => adj_seed_loaded s (alg s) ind d)
              (pass_adj_seed ind) (upto nadir) _ _ f1 f2 H2 dir _).
    - intros d s s' Hs. by eapply pass_adj_seed_loads.
    - intros d d' s s' Hs. apply (pass_adj_seed_keeps_later _ _ _ _ _ _ Hs). by left.
    - unfold upto. rewrite elem_of_seq. lia. }
  assert (Hend : fields fb = fields fa /\ adj_seed_loaded fb (alg fb) ind dir).
  { refine (nest_keeps_in
              (fun s => fields s = fields fa /\ adj_seed_loaded s (alg s) ind dir)
              pass_adj_seed (seq (S ind) (length (outputv fa) - S ind)) (upto nadir)
              _ f2 fb H (conj (eq_trans Hf2 Hf1) Hloaded2)).
    intros a d s s' Ha _ Hs [Hfs HP]. split; [by rewrite (Hstep _ _ _ _ Hs)|].
    apply (pass_adj_seed_keeps_later _ _ _ _ _ _ Hs); [|done]. right.
    unfold fields in Hfs. injection Hfs as _ ->. apply Hlast.
    apply elem_of_seq in Ha. lia. }
  destruct Hend as [Hfb HP]. unfold fields in Hfb. injection Hfb as Ho Hv.
  unfold adj_seed_loaded in HP. by rewrite Hv, Ho in HP.
Qed.

(** Step (2), elsewhere: an entry that is the slot of no output port keeps
    its zeros. *)
Lemma pass_adjoint_seeds_zero nadir fa fb el dir :
  pass_adjoint_seeds nadir fa = Ok fb ->
  (forall ind, (ind < length (outputv fa))%nat ->
               outputv_ind fa !! ind <> Some (Z.of_nat el)) ->
  adj_zeroed fa el dir -> adj_zeroed fb el dir.
Proof.
  intros H Hfree Hz. unfold pass_adjoint_seeds in H.
  refine (proj2 (nest_keeps_in
            (fun s => outputv_ind s = outputv_ind fa /\ adj_zeroed s el dir)
            pass_adj_seed (outports fa) (upto nadir) _ fa fb H (conj eq_refl Hz))).
  intros i d s s' Hi _ Hs [Hv Hzs].
  destruct (pass_adj_seed_fields _ _ _ _ Hs) as [_ Hv'].
  split; [congruence|]. eapply pass_adj_seed_keeps_zeroed; [exact Hs| |done].
  rewrite Hv. apply Hfree. unfold outports in Hi. apply elem_of_seq in Hi. lia.
Qed.

(** Step (3): the sweep is the adjoint rules of the entries, applied one
    after the other in the order of the loop. *)
Lemma adjoint_turns h nadir (l : list nat) : forall f f',
  forM (eval_adjoint h nadir) l f = Ok f' ->
  alg f' = foldl (run_entry h 0 nadir) (alg f) l.
Proof.
  induction l as [|el l IH]; intros f f' H; simpl in H.
  - by injection H as <-.
  - apply bind_Ok in H as (f1 & H1 & H). rewrite (IH _ _ H). simpl. f_equal.
    unfold eval_adjoint in H1. apply bind_Ok in H1 as (e & He & H1).
    apply bind_Ok in H1 as (n & Hn & H1). injection H1 as <-.
    apply vec_get_inv in He. unfold run_entry. by rewrite He, Hn.
Qed.

(** Step (4): when the sensitivities have been read, every input port
    holds what the tape holds at its slot. *)
Lemma get_adjoint_sens_reads nadir fc f' :
  get_adjoint_sens nadir fc = Ok f' ->
  alg f' = alg fc
  /\ forall ind dir, (ind < length (input_ fc))%nat -> Z.of_nat dir < nadir ->
       adj_sens_read (alg fc) f' ind dir.
Proof.
  intros H. unfold get_adjoint_sens in H.
  assert (Ha : alg f' = alg fc).
  { apply (loop_field alg) in H; [done|]. intros i. apply (loop_field alg).
    intros d t t' Ht. by apply get_adj_sens_reads in Ht as [? _]. }
  split; [done|]. intros ind dir Hind Hdir. rewrite <- Ha.
  refine (nest_establish (fun i d s => adj_sens_read (alg s) s i d) get_adj_sens
            (ports fc) (upto nadir) _ _ fc f' H ind dir _ _).
  - intros i d s s' Hs. by apply get_adj_sens_reads in Hs as [_ Hs].
  - intros i d i' d' s s'. apply get_adj_sens_keeps.
  - unfold ports. rewrite elem_of_seq. lia.
  - unfold upto. rewrite elem_of_seq. lia.
Qed.

(** C2, as amended.  On an instance that is ready for the requested
    direction counts (a tape built by [init], with room for [nfdir] and
    [nadir] directions in every entry and port), [evaluate(nfdir, nadir)]
    completes; if [nadir > 0] it zeroes every entry's sensitivity buffers
    for every requested direction; then copies the caller's adjoint seed
    of each output port into the port's slot, so that the slot holds it
    (the seed of the last port if several are mapped to the slot) and the
    other entries still hold zeros; then runs the adjoint rule of every
    entry, in descending index order; then copies the sensitivities of the
    input ports' slots out, so that every input port holds what the tape
    holds at its slot; if [nadir <= 0] it does none of this. *)
Theorem evaluate_adjoint_pass (h : Heap) (nfdir nadir : Z) (f : MXFunctionInternal) :
  ready h nfdir nadir f -> adjoint_pass_spec h nfdir nadir f.
Proof.
  intros Hready. unfold adjoint_pass_spec, evaluate.
  destruct (forward_pass_ok h nfdir nadir f Hready f eq_refl) as (f1 & Hf1 & Hs1).
  rewrite Hf1. simpl. destruct (Z.ltb_spec 0 nadir) as [Hpos|Hnpos].
  - destruct (clear_adjoint_ok h nfdir nadir f Hready f1 Hs1) as (fa & Hfa & Hsa).
    destruct (pass_adjoint_seeds_ok h nfdir nadir f Hready fa Hsa) as (fb & Hfb & Hsb).
    destruct (adjoint_sweep_ok h nfdir nadir f Hready fb Hsb) as (fc & Hfc & Hsc).
    destruct (get_adjoint_sens_ok h nfdir nadir f Hready fc Hsc) as (f' & Hf' & Hs').
    exists f1, f'. split; [done|]. split.
    { unfold adjoint_pass. rewrite Hfa. simpl. rewrite Hfb. simpl. by rewrite Hfc. }
    split; [|lia]. intros _. exists fa, fb, fc.
    pose proof (forward_pass_untouched _ _ _ _ Hf1) as [_ Hcd1].
    unfold caller_data in Hcd1. injection Hcd1 as _ _ HdA.
    assert (Houta : output_ fa = output_ f1).
    { unfold clear_adjoint in Hfa. apply (loop_field output_) in Hfa; [done|].
      intros el. apply (loop_field output_). intros d t t' Ht.
      unfold clear_adj in Ht. step_field Ht. }
    pose proof (skeleton_frame _ _ Hsa) as Hfra. unfold frame in Hfra.
    injection Hfra as _ Hova _ _ _ _ _ _ Hoia.
    assert (Hla : length (alg fa) = length (alg f)).
    { by apply skeleton_alg, fmap_eq_length in Hsa. }
    assert (Hli : length (input_ fc) = length (input_ f)).
    { destruct (skeleton_lengths _ _ Hsc) as (Hp & _). unfold ports in Hp.
      apply (f_equal length) in Hp. by rewrite !length_seq in Hp. }
    split; [done|]. split; [by eapply clear_adjoint_zeroes|]. split; [done|].
    split.
    { intros ind dir Hind Hdir Hlast.
      destruct (pass_adjoint_seeds_loads nadir fa fb ind dir Hfb)
        as (slot & io & m & Hs & Hp & Hio & Hm & Hd); [by rewrite Hova|done|by rewrite Hoia|].
      rewrite Houta in Hio.
      destruct (fmap_eq_lookup dataA _ _ _ _ HdA Hio) as (io0 & Hio0 & HA).
      exists slot, io0, m. rewrite <- Hoia, HA. done. }
    split.
    { intros el dir Hel Hdir Hfree.
      apply (pass_adjoint_seeds_zero nadir fa fb el dir Hfb).
      - intros ind Hind. rewrite Hoia. apply Hfree. by rewrite <- Hova.
      - apply (clear_adjoint_zeroes _ _ _ Hfa); [lia|done]. }
    split; [done|]. split; [by apply adjoint_turns|]. split; [done|].
    destruct (get_adjoint_sens_reads _ _ _ Hf') as [Halg Hread].
    split; [done|]. split; [intros ind dir Hind Hdir; apply Hread; [lia|done]|].
    rewrite (get_adjoint_sens_trace _ _ _ Hf'), (adjoint_sweep_trace _ _ _ _ Hfc),
      (pass_adjoint_seeds_trace _ _ _ Hfb), (clear_adjoint_trace _ _ _ Hfa).
    unfold adjoint_events.
    assert (Hab : skeleton fa = skeleton f1) by congruence.
    assert (Hbb : skeleton fb = skeleton f1) by congruence.
    assert (Hcb : skeleton fc = skeleton f1) by congruence.
    destruct (skeleton_lengths _ _ Hab) as (_ & -> & _).
    destruct (skeleton_lengths _ _ Hbb) as (_ & _ & ->).
    destruct (skeleton_lengths _ _ Hcb) as (-> & _).
    by rewrite <- !app_assoc.
  - exists f1, f1. split; [done|]. split; [done|]. split; [lia|done].
Qed.

Lemma evaluate_adjoint_pass_witness :
  ready heap_mul 1 1 tape_mul_seeded /\ adjoint_pass_spec heap_mul 1 1 tape_mul_seeded.
Proof.
  split; [by apply tape_mul_ready|].
  apply (evaluate_adjoint_pass heap_mul 1 1 tape_mul_seeded). by apply tape_mul_ready.
Defined.

(** ** The lifting callback *)

Lemma forward_calls_no_hook h nfdir (l : list nat) : forall f f',
  liftfun_ f = None -> forM (eval_forward h nfdir) l f = Ok f' ->
  trace f' = trace f ++ ((fun el => EvEvaluate el nfdir 0) <$> l).
Proof.
  induction l as [|el l IH]; intros f f' Hnone H; simpl in H.
  - injection H as <-. simpl. by rewrite app_nil_r.
  - apply bind_Ok in H as (f1 & H1 & H).
    destruct (eval_forward_calls _ _ _ _ _ H1) as (Hl & _ & e & n & _ & _ & Htr).
    unfold lift_events in Htr. rewrite Hnone in Htr.
    rewrite (IH f1 f' (eq_trans Hl Hnone) H), Htr. simpl. by rewrite <- app_assoc.
Qed.

Lemma setLiftingFunction_ready h nfdir nadir liftfun ud f :
  ready h nfdir nadir f -> ready h nfdir nadir (setLiftingFunction liftfun ud f).
Proof. intros [Hi Ho He Hip Hop]. by split. Qed.

(** X10.  [setLiftingFunction] with a null function pointer switches
    lifting off, whatever was registered before: on an instance that is
    ready, the forward loop then completes and its calls are one
    evaluation per entry of the tape, in ascending order, and nothing
    else. *)
Theorem setLiftingFunction_null (h : Heap) (nfdir nadir ud : Z) (f : MXFunctionInternal) :
  ready h nfdir nadir f ->
  exists f', forward_sweep h nfdir (setLiftingFunction None ud f) = Ok f'
    /\ trace f' = trace f ++ ((fun el => EvEvaluate el nfdir 0) <$> entries f).
Proof.
  intros Hready.
  pose proof (setLiftingFunction_ready h nfdir nadir None ud f Hready) as Hr.
  destruct (forward_sweep_ok h nfdir nadir _ Hr _ eq_refl) as (f' & Hf' & _).
  exists f'. split; [done|]. unfold forward_sweep in Hf'.
  by rewrite (forward_calls_no_hook _ _ _ (setLiftingFunction None ud f) _ eq_refl Hf').
Qed.

Lemma setLiftingFunction_null_witness :
  exists f', forward_sweep heap_mul 1 (setLiftingFunction None 0 tape_mul_lifted) = Ok f'
    /\ trace f' = trace tape_mul_lifted
                  ++ ((fun el => EvEvaluate el 1 0) <$> entries tape_mul_lifted).
Proof.
  apply (setLiftingFunction_null heap_mul 1 1 0 tape_mul_lifted).
  apply setLiftingFunction_ready. by apply tape_mul_ready.
Defined.

(** X11.  [setLiftingFunction] and [init] commute: registering the callback
    before [init] gives the instance that registering it after [init]
    gives; [init] neither reads nor resets the callback. *)
Theorem setLiftingFunction_init (h : Heap) (liftfun : option LiftingFunction) (ud : Z)
  (f : MXFunctionInternal) :
  init h (setLiftingFunction liftfun ud f)
  = (r <- init h f ;; Ok (r.1, setLiftingFunction liftfun ud r.2)).
Proof.
  unfold init.
  change (root_stack (base_init (setLiftingFunction liftfun ud f)))
    with (root_stack (base_init f)).
  destruct (sort_depth_first h (root_stack (base_init f))) as [[hs nodes]| | |]; simpl;
    [|done..].
  destruct (mapM (temp_of (assign_order 0 nodes hs)) (inputv f)); simpl; [|done..].
  destruct (mapM (temp_of (assign_order 0 nodes hs)) (outputv f)); simpl; [|done..].
  by destruct (build_tape (nfdir_ f) (nadir_ f) (assign_order 0 nodes hs) nodes).
Qed.

(** ** The tape [init] builds *)

Lemma build_entries_nodes nf na h nodes a :
  mapM (build_entry nf na h) nodes = Ok a -> mx <$> a = Some <$> nodes.
Proof.
  revert a. induction nodes as [|p nodes IH]; intros a H; simpl in H.
  - by injection H as <-.
  - apply bind_Ok in H as (e & He & H). apply bind_Ok in H as (a' & Ha' & H).
    injection H as <-. rewrite !fmap_cons, (IH _ Ha'). f_equal.
    unfold build_entry in He. apply bind_Ok in He as (m & _ & He).
    apply bind_Ok in He as (c & _ & He). by injection He as <-.
Qed.

(** X12.  [init] hands the heap back as it found it: the [temp] field that
    carries the position of every sorted node while the tape is built is
    reset before [init] returns, so that every [temp] is neutral again. *)
Theorem init_restores_heap (h h' : Heap) (f f' : MXFunctionInternal) :
  heap_neutral h -> init h f = Ok (h', f') -> h' = h /\ heap_neutral h'.
Proof.
  intros Hn Hinit. destruct (init_inversion _ _ _ _ Hn Hinit) as (nodes & -> & _). done.
Qed.

Lemma init_restores_heap_witness :
  exists h' f', init heap_mul fun_mul = Ok (h', f') /\ h' = heap_mul /\ heap_neutral h'.
Proof.
  eexists _, _. split; [vm_compute; reflexivity|].
  eapply (init_restores_heap heap_mul _ fun_mul); [exact heap_mul_neutral|].
  vm_compute. reflexivity.
Defined.

(** X13.  The tape [init] builds holds every node once, also a node that
    several nodes depend on or that is declared more than once; every
    entry stands for a node of the heap and has one value buffer with a
    zero for each stored element of the node, [nfdir_] forward buffers and
    [nadir_] adjoint buffers, and one dependency slot per dependency. *)
Theorem init_tape_layout (h h' : Heap) (f f' : MXFunctionInternal) :
  heap_neutral h -> init h f = Ok (h', f') ->
  NoDup (mx <$> alg f')
  /\ forall el e, alg f' !! el = Some e ->
       exists p n, mx e = Some p /\ h !! p = Some n
         /\ data (val e) = Matrix_of (sparsity n)
         /\ length (dataF (val e)) = nfdir_ f /\ length (dataA (val e)) = nadir_ f
         /\ length (ch e) = length (dep n).
Proof.
  intros Hn Hinit. split.
  - destruct (init_inversion _ _ _ _ Hn Hinit) as (nodes & _ & Hnd & _ & _ & _ & _ & Ha & _).
    rewrite (build_entries_nodes _ _ _ _ _ Ha). apply (NoDup_fmap_2 _). done.
  - intros el e He.
    destruct (init_entry _ _ _ _ Hn Hinit el e He) as (p & n & Hmx & Hp & Hval & Hch).
    exists p, n. rewrite Hval. simpl. rewrite !length_replicate.
    repeat (split; [done|]). symmetry. by eapply Forall2_length.
Qed.

Lemma init_tape_layout_witness :
  exists h' f', init heap_mul fun_mul = Ok (h', f') /\ NoDup (mx <$> alg f')
    /\ length (alg f') = 4%nat.
Proof.
  eexists _, _. split; [vm_compute; reflexivity|]. split; [|reflexivity].
  eapply (init_tape_layout heap_mul _ fun_mul); [exact heap_mul_neutral|].
  vm_compute. reflexivity.
Defined.

(** X14.  The port maps [init] builds: [inputv_ind] and [outputv_ind] have
    one index per declared input and output, and the index stored for a
    declared expression is that of the tape entry that stands for the
    very node the expression is a handle on. *)
Theorem init_port_maps (h h' : Heap) (f f' : MXFunctionInternal) :
  heap_neutral h -> init h f = Ok (h', f') ->
  length (inputv_ind f') = length (inputv f)
  /\ length (outputv_ind f') = length (outputv f)
  /\ (forall ind m, inputv f !! ind = Some m ->
        exists slot e, inputv_ind f' !! ind = Some slot /\ 0 <= slot
          /\ alg f' !! Z.to_nat slot = Some e /\ mx e = m)
  /\ (forall ind m, outputv f !! ind = Some m ->
        exists slot e, outputv_ind f' !! ind = Some slot /\ 0 <= slot
          /\ alg f' !! Z.to_nat slot = Some e /\ mx e = m).
Proof.
  intros Hn Hinit.
  destruct (init_inversion _ _ _ _ Hn Hinit) as (nodes & _ & _ & _ & _ & Hiv & Hov & _).
  split; [by apply mapM_length in Hiv|]. split; [by apply mapM_length in Hov|]. split.
  - intros ind m Hm.
    destruct (init_input_slot _ _ _ _ Hn Hinit ind) as (slot & e & Hs & Hr & He & Hmx & _).
    { by eapply lookup_lt_Some. }
    exists slot, e. repeat (split; [done || lia|]). congruence.
  - intros ind m Hm.
    destruct (init_output_slot _ _ _ _ Hn Hinit ind) as (slot & e & Hs & Hr & He & Hmx & _).
    { by eapply lookup_lt_Some. }
    exists slot, e. repeat (split; [done || lia|]). congruence.
Qed.

Lemma init_port_maps_witness :
  exists h' f', init heap_mul fun_mul = Ok (h', f')
    /\ length (inputv_ind f') = 2%nat /\ length (outputv_ind f') = 2%nat.
Proof.
  eexists _, _. split; [vm_compute; reflexivity|].
  destruct (init_port_maps heap_mul heap_mul fun_mul tape_mul heap_mul_neutral)
    as (Hi & Ho & _); [vm_compute; reflexivity|].
  split; [exact Hi | exact Ho].
Defined.

Lemma build_entry_links h nodes nf na ii p e :
  NoDup nodes ->
  (forall k p n q, nodes !! k = Some p -> h !! p = Some n -> Some q ∈ dep n ->
     is_Some (h !! q) -> exists j, (j < k)%nat /\ nodes !! j = Some q) ->
  nodes !! ii = Some p ->
  build_entry nf na (assign_order 0 nodes h) p = Ok e ->
  exists n, h !! p = Some n /\ mx e = Some p
    /\ Forall2 (fun d c => match d with
                           | None => c = -1
                           | Some q => exists j, c = Z.of_nat j /\ (j < ii)%nat
                                                 /\ nodes !! j = Some q
                           end) (dep n) (ch e).
Proof.
  intros Hnd Hdeps Hp Hbuild. set (h1 := assign_order 0 nodes h) in *.
  assert (Hsim1 : heap_sim h1 h) by apply heap_sim_sym, heap_sim_assign.
  unfold build_entry in Hbuild.
  apply bind_Ok in Hbuild as (m & Hm & Hbuild).
  apply bind_Ok in Hbuild as (c & Hc & Hbuild). injection Hbuild as <-. simpl.
  simpl in Hm. destruct (h1 !! p) as [m'|] eqn:Hh1p; [|discriminate]. injection Hm as ->.
  destruct (heap_sim_lookup _ _ _ _ Hsim1 Hh1p) as (n & Hhp & Hdep & Hsp & _).
  exists n. split; [done|]. split; [done|]. rewrite Hdep.
  apply mapM_Ok_Forall2 in Hc.
  apply Forall2_same_length_lookup. split; [by eapply Forall2_length|].
  intros i d z Hd Hz.
  pose proof (proj2 (proj1 (Forall2_same_length_lookup _ _ _) Hc) i d z Hd Hz) as Hres.
  unfold resolve_dep in Hres. destruct d as [q|]; simpl in Hres.
  - unfold temp_of in Hres.
    apply bind_Ok in Hres as (nq & Hnq & Hres). injection Hres as <-.
    simpl in Hnq. destruct (h1 !! q) as [nq'|] eqn:Hh1q; [|discriminate]. injection Hnq as ->.
    destruct (heap_sim_lookup _ _ _ _ Hsim1 Hh1q) as (nq0 & Hhq & _).
    assert (Hin : Some q ∈ dep n).
    { rewrite Hdep. eapply list_elem_of_lookup_2; eauto. }
    destruct (Hdeps ii p n q Hp Hhp Hin (ex_intro _ _ Hhq)) as (j & Hj & Hjq).
    unfold h1 in Hh1q. rewrite (assign_order_lookup _ 0 _ j q nq0 Hnd Hjq Hhq) in Hh1q.
    injection Hh1q as <-. simpl. by exists j.
  - by injection Hres as <-.
Qed.

(** X15.  The tape [init] builds is wired as the expressions are.  For
    every entry and every dependency of its node, the dependency slot is
    -1 if the dependency is null, and otherwise the index of an earlier
    entry of the tape, the one that stands for the very node the
    dependency is a handle on. *)
Theorem init_links_dependencies (h h' : Heap) (f f' : MXFunctionInternal) :
  heap_neutral h -> init h f = Ok (h', f') ->
  forall ii e, alg f' !! ii = Some e ->
    exists n, deref h (mx e) = Ok n
      /\ Forall2 (slot_links (alg f') ii) (dep n) (ch e).
Proof.
  intros Hn Hinit ii e He.
  destruct (init_inversion _ _ _ _ Hn Hinit)
    as (nodes & _ & Hnd & _ & Hdeps & _ & _ & Ha & _).
  destruct (mapM_Ok_lookup _ _ _ _ _ Ha He) as (p & Hp & Hbuild).
  destruct (build_entry_links _ _ _ _ _ _ _ Hnd Hdeps Hp Hbuild) as (n & Hhp & Hmx & Hch).
  exists n. split; [rewrite Hmx; simpl; by rewrite Hhp|].
  eapply Forall2_impl; [exact Hch|]. intros d c Hdc. unfold slot_links.
  destruct d as [q|]; [|done]. destruct Hdc as (j & -> & Hj & Hjq).
  split; [lia|]. rewrite Nat2Z.id, <- list_lookup_fmap, (build_entries_nodes _ _ _ _ _ Ha).
  by rewrite list_lookup_fmap, Hjq.
Qed.

Lemma init_links_dependencies_witness :
  exists h' f', init heap_mul fun_mul = Ok (h', f')
    /\ forall ii e, alg f' !! ii = Some e ->
         exists n, deref heap_mul (mx e) = Ok n
           /\ Forall2 (slot_links (alg f') ii) (dep n) (ch e).
Proof.
  eexists _, _. split; [vm_compute; reflexivity|].
  eapply (init_links_dependencies heap_mul _ fun_mul); [exact heap_mul_neutral|].
  vm_compute. reflexivity.
Defined.

Lemma FunctionIO_init_again nf na (l : list FunctionIO) :
  (fun io => FunctionIO_init (m_sparsity (data io)) nf na)
    <$> ((fun io => FunctionIO_init (m_sparsity (data io)) nf na) <$> l)
  = (fun io => FunctionIO_init (m_sparsity (data io)) nf na) <$> l.
Proof. rewrite <- list_fmap_compose. by apply list_fmap_ext. Qed.

(** X16.  [init] can be called again.  On a heap with neutral [temp]
    fields, initialising an instance that [init] has just initialised
    completes and gives the same instance: the same tape, port maps and
    buffers, and the same heap. *)
Theorem init_again (h h' : Heap) (f f' : MXFunctionInternal) :
  heap_neutral h -> init h f = Ok (h', f') -> init h' f' = Ok (h', f').
Proof.
  intros Hn Hinit. pose proof (init_heap _ _ _ _ Hn Hinit) as ->.
  pose proof Hinit as Hinit'. unfold init in Hinit'.
  apply bind_Ok in Hinit' as ([hs nodes] & Hsort & Hinit'). simpl in Hinit'.
  apply bind_Ok in Hinit' as (iv & Hiv & Hinit').
  apply bind_Ok in Hinit' as (ov & Hov & Hinit').
  apply bind_Ok in Hinit' as (a & Ha & Hinit').
  injection Hinit' as Hh Hf. subst f'. unfold init.
  change (root_stack (base_init (set_tape (base_init f) iv ov a)))
    with (root_stack (base_init f)).
  rewrite Hsort. simpl. rewrite Hiv. simpl. rewrite Hov. simpl. rewrite Ha. simpl.
  rewrite Hh. do 2 f_equal. unfold set_tape, base_init. simpl.
  by rewrite !FunctionIO_init_again.
Qed.

Lemma init_again_witness :
  exists h' f', init heap_mul fun_mul = Ok (h', f') /\ init h' f' = Ok (h', f').
Proof.
  eexists _, _. split; [vm_compute; reflexivity|].
  eapply (init_again heap_mul _ fun_mul); [exact heap_mul_neutral|].
  vm_compute. reflexivity.
Defined.

(** ** Construction, then [init] *)

Lemma port_for_rooted h l ps :
  Forall2 (port_for h) l ps -> Forall (fun m => exists p, m = Some p /\ (p < length h)%nat) l.
Proof.
  induction 1 as [|m io l ps (n & Hn & _) _ IH]; constructor; [|done].
  destruct m as [p|]; [|discriminate]. simpl in Hn.
  destruct (h !! p) eqn:Hp; [|discriminate]. exists p. split; [done|].
  by eapply lookup_lt_Some.
Qed.

(** X17.  Construction, then [init].  On an acyclic heap with neutral
    [temp] fields, every node of which has a stored entry (so that the
    address of the first element of each of its buffers can be taken), an
    instance that the constructor has accepted is initialised by [init]
    without error; it is then marked initialised, declares the same
    expressions, has one port per declared input and output, and the heap
    is as it was. *)
Theorem construct_then_init (h : Heap) (ins outs : list MX) (f : MXFunctionInternal) :
  heap_neutral h -> acyclic h -> stored h -> construct h ins outs = Ok f ->
  isInit f = false
  /\ exists f', init h f = Ok (h, f') /\ isInit f' = true
       /\ inputv f' = ins /\ outputv f' = outs
       /\ length (input_ f') = length ins /\ length (output_ f') = length outs.
Proof.
  intros Hn Hac Hst Hc. destruct (construct_inv _ _ _ _ Hc) as (ip & op & _ & Hi & Ho & ->).
  split; [done|]. apply alloc_ports_inv in Hi, Ho.
  destruct (init_total h (mkFun ins outs ip op default_ndir default_ndir false None 0
                            [] [] [] [])) as ([h' f'] & Hinit); [done|done|done| |].
  { unfold rooted. simpl. apply Forall_app. split; by eapply port_for_rooted. }
  pose proof (init_heap _ _ _ _ Hn Hinit) as ->.
  exists f'. split; [done|].
  destruct (init_frame _ _ _ _ Hn Hinit) as (? & ? & ? & _ & _ & Hli & Hlo).
  simpl in *. apply Forall2_length in Hi, Ho. repeat split; congruence.
Qed.

Lemma heap_mul_acyclic : acyclic heap_mul.
Proof.
  intros [|[|[|[|p]]]] n q Hp Hq; simpl in Hp; try discriminate; injection Hp as <-;
    simpl in Hq;
    repeat (apply elem_of_cons in Hq as [Hq|Hq]; [injection Hq as ->; lia|]);
    by apply elem_of_nil in Hq.
Qed.

Lemma heap_mul_stored : stored heap_mul.
Proof.
  intros [|[|[|[|p]]]] n Hp; simpl in Hp; try discriminate; injection Hp as <-; simpl; lia.
Qed.

Lemma construct_then_init_witness :
  exists f, construct heap_mul [Some 0%nat; Some 1%nat] [Some 3%nat] = Ok f
    /\ exists f', init heap_mul f = Ok (heap_mul, f') /\ isInit f' = true.
Proof.
  eexists. split; [reflexivity|].
  destruct (construct_then_init heap_mul [Some 0%nat; Some 1%nat] [Some 3%nat] _
              heap_mul_neutral heap_mul_acyclic heap_mul_stored eq_refl)
    as (_ & f' & Hf' & Hi & _).
  exists f'. split; [exact Hf' | exact Hi].
Defined.

(** Without a stored entry there is no first element to take the address
    of: for a declared input whose pattern is empty the constructor
    succeeds and [init] has undefined behaviour. *)
Example init_empty_pattern :
  exists f, construct [symbolic_leaf 0 0] [Some 0%nat] [] = Ok f
            /\ init [symbolic_leaf 0 0] f = Undefined.
Proof. eexists. split; reflexivity. Qed.

(** ** Cloning *)

Lemma init_fields h f h' f' :
  init h f = Ok (h', f') ->
  f' = set_tape (base_init f) (inputv_ind f') (outputv_ind f') (alg f').
Proof.
  intros H. unfold init in H. apply bind_Ok in H as (r & _ & H). simpl in H.
  invert_step H. by injection H as <- <-.
Qed.

(** X18.  What a clone carries over.  A clone declares the same expressions
    and has the same direction counts as the instance it was made from,
    and it is initialised exactly if that instance was; it never has a
    lifting callback or user data, whatever was registered on the
    original. *)
Theorem clone_forgets_callback (h h' : Heap) (f g : MXFunctionInternal) :
  clone h f = Ok (h', g) ->
  inputv g = inputv f /\ outputv g = outputv f
  /\ nfdir_ g = nfdir_ f /\ nadir_ g = nadir_ f /\ isInit g = isInit f
  /\ liftfun_ g = None /\ liftfun_ud_ g = 0.
Proof.
  intros H. unfold clone in H. apply bind_Ok in H as (node & Hc & H).
  destruct (construct_inv _ _ _ _ Hc) as (ip & op & _ & _ & _ & ->).
  destruct (isInit f) eqn:Hi.
  - apply init_fields in H. rewrite H. done.
  - by injection H as <- <-.
Qed.

Lemma clone_forgets_callback_witness :
  exists h' g, clone heap_mul tape_mul_lifted = Ok (h', g)
    /\ liftfun_ tape_mul_lifted = Some sample_liftfun /\ liftfun_ g = None.
Proof.
  eexists _, _. split; [vm_compute; reflexivity|]. split; [reflexivity|].
  eapply (clone_forgets_callback heap_mul _ tape_mul_lifted). vm_compute. reflexivity.
Defined.

(** X19.  A clone starts afresh.  On a heap with neutral [temp] fields:
    the clone of an instance that was constructed and not initialised is
    equal to it; and the clone of an instance that was constructed,
    initialised, given a lifting callback and evaluated is the instance as
    [init] had left it: the values and sensitivities that [evaluate] has
    stored in the tape and in the ports are not copied. *)
Theorem clone_starts_afresh (h : Heap) (ins outs : list MX) (f0 : MXFunctionInternal) :
  heap_neutral h -> construct h ins outs = Ok f0 ->
  clone h f0 = Ok (h, f0)
  /\ forall h1 f1 liftfun ud nfdir nadir f2,
       init h f0 = Ok (h1, f1) ->
       evaluate h nfdir nadir (setLiftingFunction liftfun ud f1) = Ok f2 ->
       clone h f2 = Ok (h, f1).
Proof.
  intros Hn Hc. destruct (construct_inv _ _ _ _ Hc) as (ip & op & _ & _ & _ & Hf0).
  split.
  - unfold clone. rewrite Hf0 at 1 2 3. simpl. rewrite Hc. simpl. by rewrite Hf0.
  - intros h1 f1 liftfun ud nfdir nadir f2 Hinit Hev.
    pose proof (init_heap _ _ _ _ Hn Hinit) as ->.
    apply evaluate_untouched in Hev as [Hfr _]. unfold frame in Hfr. simpl in Hfr.
    injection Hfr as Hiv Hov Hnf Hna Hi _ _ _ _.
    rewrite (init_fields _ _ _ _ Hinit) in Hiv, Hov, Hnf, Hna, Hi. simpl in *.
    unfold clone, isInit. rewrite Hiv, Hov, Hi. rewrite Hf0 at 1 2. simpl.
    rewrite Hc. simpl.
    replace (copy_options f2 f0) with f0; [done|].
    unfold copy_options. rewrite Hnf, Hna, Hf0. done.
Qed.

Lemma clone_starts_afresh_witness :
  exists f0, construct heap_mul [Some 0%nat; Some 1%nat] [Some 2%nat; Some 3%nat] = Ok f0
    /\ clone heap_mul f0 = Ok (heap_mul, f0).
Proof.
  eexists. split; [reflexivity|].
  destruct (clone_starts_afresh heap_mul [Some 0%nat; Some 1%nat] [Some 2%nat; Some 3%nat] _
              heap_mul_neutral eq_refl) as [H _].
  exact H.
Defined.

(** ** Printing *)

Lemma string_app_assoc (s1 s2 s3 : string) :
  ((s1 ++ s2) ++ s3 = s1 ++ (s2 ++ s3))%string.
Proof. induction s1 as [|c s1 IH]; simpl; [done|]. by rewrite IH. Qed.

Lemma string_app_nil_r (s : string) : (s ++ EmptyString)%string = s.
Proof. induction s as [|c s IH]; simpl; [done|]. by rewrite IH. Qed.

Lemma text_snoc lines line : text (lines ++ [line]) = (text lines ++ line)%string.
Proof.
  induction lines as [|l lines IH]; simpl.
  - apply string_app_nil_r.
  - by rewrite IH, string_app_assoc.
Qed.

Lemma name_ok_chname ii ds cs :
  Forall2 (slot_ok ii) ds cs -> Forall2 (name_ok ii) ds (chname <$> cs).
Proof.
  induction 1 as [|d c ds cs Hdc _ IH]; simpl; constructor; [|done].
  destruct Hdc as [[-> ->]|[Hd Hc]]; [by left|]. right. split; [done|].
  exists (Z.to_nat c). split; [lia|]. unfold chname.
  destruct (Z.leb_spec 0 c); [done|lia].
Qed.

Section PrintProofs.
Variable MXNode_print : MXNode -> list string -> string.

Lemma print_prefix h f stream :
  (forall el e, alg f !! el = Some e -> exists n, deref h (mx e) = Ok n) ->
  forall k, (k <= length (alg f))%nat ->
    exists lines,
      forM (print_entry MXNode_print h f) (seq 0 k) stream = Ok (stream ++ text lines)%string
      /\ length lines = k
      /\ forall ii line, lines !! ii = Some line ->
           exists e n, alg f !! ii = Some e /\ deref h (mx e) = Ok n
                       /\ line = print_line MXNode_print n ii e.
Proof.
  intros Hnodes. induction k as [|k IH]; intros Hk.
  - exists []. simpl. rewrite string_app_nil_r. split; [done|]. split; [done|].
    intros ii line H. discriminate.
  - destruct IH as (lines & Hrun & Hlen & Hlines); [lia|].
    destruct (lookup_lt_is_Some_2 (alg f) k) as [e He]; [lia|].
    destruct (Hnodes _ _ He) as [n Hn].
    exists (lines ++ [print_line MXNode_print n k e]).
    rewrite seq_S, forM_app, Hrun. simpl. unfold print_entry.
    rewrite (vec_get_nat _ _ _ He). simpl. rewrite Hn. simpl.
    rewrite text_snoc, string_app_assoc. split; [done|].
    split; [rewrite length_app; simpl; lia|].
    intros ii line H. destruct (decide (ii < length lines)%nat) as [Hlt|Hge].
    + rewrite lookup_app_l in H by done. eauto.
    + rewrite lookup_app_r in H by lia.
      destruct (ii - length lines)%nat as [|j] eqn:Hj; [|discriminate].
      injection H as <-. assert (ii = k) as -> by lia. by exists e, n.
Qed.

(** X20.  [print] on an initialised instance.  It completes and appends to
    the stream one line per entry of the tape, in tape order; the line of
    entry [ii] starts with [i_ii =  ], ends with a line break, and hands
    to the node's own [print] one name per dependency of the node: [[]]
    for a null dependency, and otherwise the name [i_k] of a line [k]
    that comes before. *)
Theorem print_after_init (h h' : Heap) (f f' : MXFunctionInternal) (stream : string) :
  heap_neutral h -> init h f = Ok (h', f') ->
  exists lines,
    print MXNode_print h' f' stream = Ok (stream ++ text lines)%string
    /\ length lines = length (alg f')
    /\ forall ii line, lines !! ii = Some line ->
         exists e n, alg f' !! ii = Some e /\ deref h' (mx e) = Ok n
           /\ line = ("i_" ++ show_int ii ++ " =  "
                      ++ MXNode_print n (chname <$> ch e) ++ endl)%string
           /\ Forall2 (name_ok ii) (dep n) (chname <$> ch e).
Proof.
  intros Hn Hinit. pose proof (init_heap _ _ _ _ Hn Hinit) as ->.
  assert (Hnodes : forall el e, alg f' !! el = Some e -> exists n, deref h (mx e) = Ok n).
  { intros el e He. destruct (init_entry _ _ _ _ Hn Hinit el e He) as (p & n & -> & Hp & _).
    exists n. simpl. by rewrite Hp. }
  destruct (print_prefix h f' stream Hnodes (length (alg f'))) as (lines & Hrun & Hlen & Hl);
    [done|].
  exists lines. split; [done|]. split; [done|].
  intros ii line Hline. destruct (Hl ii line Hline) as (e & n & He & Hd & ->).
  exists e, n. repeat (split; [done|]).
  destruct (init_entry _ _ _ _ Hn Hinit ii e He) as (p & n' & Hmx & Hp & _ & Hch).
  rewrite Hmx in Hd. simpl in Hd. rewrite Hp in Hd. injection Hd as <-.
  by apply name_ok_chname.
Qed.

End PrintProofs.

Lemma print_after_init_witness :
  exists h' f', init heap_mul fun_mul = Ok (h', f')
    /\ exists lines,
         print (fun _ names => text names) h' f' EmptyString
         = Ok (EmptyString ++ text lines)%string
         /\ length lines = length (alg f').
Proof.
  eexists _, _. split; [vm_compute; reflexivity|].
  destruct (print_after_init (fun _ names => text names) heap_mul heap_mul fun_mul tape_mul
              EmptyString heap_mul_neutral) as (lines & Hp & Hlen & _);
    [vm_compute; reflexivity|].
  exists lines. split; [exact Hp | exact Hlen].
Defined.

(** ** Symbolic differentiation: what is not checked *)

(** X21.  [jac] does not check its argument: on an initialised instance an
    input index that is negative or not below the number of port map
    entries indexes [inputv_ind] out of range, which is undefined
    behaviour and not an error. *)
Theorem jac_index_unchecked (rule : Heap -> MXNode -> list MX -> list MXNode * MX)
  (h : Heap) (f : MXFunctionInternal) (iind : Z) :
  isInit f = true -> iind < 0 \/ Z.of_nat (length (inputv_ind f)) <= iind ->
  jac rule h iind f = Undefined.
Proof.
  intros Hinit Hr. unfold jac, jac_seeds, vec_get. rewrite Hinit. simpl.
  destruct (Z.ltb_spec iind 0); [done|].
  rewrite lookup_ge_None_2; [done|lia].
Qed.

Lemma jac_index_unchecked_witness :
  isInit tape_mul = true /\ jac sample_adFwd heap_mul 2 tape_mul = Undefined.
Proof.
  split; [reflexivity|].
  apply (jac_index_unchecked sample_adFwd heap_mul tape_mul 2); [reflexivity|].
  right. simpl. lia.
Defined.

(** X22.  Between construction and [init], [jac] and [adFwd] refuse to
    run: whatever the input index or the seeds, also for an empty list of
    seeds, the assertion on [isInit()] fails first. *)
Theorem differentiate_before_init (rule : Heap -> MXNode -> list MX -> list MXNode * MX)
  (h : Heap) (ins outs : list MX) (f : MXFunctionInternal) :
  construct h ins outs = Ok f ->
  (forall iind, jac rule h iind f = Throw (CasadiAssertion "isInit()"))
  /\ (forall fseed, adFwd rule h fseed f = Throw (CasadiAssertion "isInit()")).
Proof.
  intros Hc. destruct (construct_inv _ _ _ _ Hc) as (ip & op & _ & _ & _ & ->).
  split; reflexivity.
Qed.

Lemma differentiate_before_init_witness :
  exists f, construct heap_mul [Some 0%nat] [Some 2%nat] = Ok f
    /\ jac sample_adFwd heap_mul 0 f = Throw (CasadiAssertion "isInit()")
    /\ adFwd sample_adFwd heap_mul [] f = Throw (CasadiAssertion "isInit()").
Proof.
  eexists. split; [reflexivity|].
  destruct (differentiate_before_init sample_adFwd heap_mul [Some 0%nat] [Some 2%nat] _
              eq_refl) as [Hj Ha].
  split; [exact (Hj 0) | exact (Ha [])].
Defined.

Section SeedMemo.
Variable rule : Heap -> MXNode -> list MX -> list MXNode * MX.
Variables (h : Heap) (f : MXFunctionInternal).
Hypothesis Htape : tape_ok h f.

(** The first [k] turns of the loop that passes the seeds. *)
Lemma seed_prefix_ok (fseed : list MX) (k : nat) :
  (k <= length (input_ f))%nat -> (k <= length fseed)%nat ->
  exists dw, forM (adFwd_pass_seed f fseed) (seq 0 k) (replicate (length (alg f)) None)
             = Ok dw /\ length dw = length (alg f).
Proof.
  intros Hk Hs.
  apply (forM_inv (fun dw : list MX => length dw = length (alg f))); [|apply length_replicate].
  intros ind dw Hind Hlen. apply elem_of_seq in Hind.
  destruct (tape_inputs _ _ Htape ind) as (slot & Hslot & Hr); [lia|].
  destruct (lookup_lt_is_Some_2 fseed ind) as [s Hsd]; [lia|].
  destruct (lookup_lt_is_Some_2 dw (Z.to_nat slot)) as [d Hd]; [lia|].
  unfold adFwd_pass_seed. rewrite (vec_get_nat _ _ _ Hslot). simpl.
  rewrite (vec_get_nat _ _ _ Hsd). simpl. rewrite (vec_get_Z _ _ _ (proj1 Hr) Hd). simpl.
  eexists. split; [done|]. by rewrite length_insert.
Qed.

(** X23.  [adFwd] does not check the number of seeds.  On an initialised
    instance with a well-formed tape and seeds that pass the column
    check, a list with fewer seeds than there are input ports makes the
    loop that passes the seeds read [fseed] out of range: undefined
    behaviour. *)
Theorem adFwd_too_few_seeds (fseed : list MX) (ncol : Z) :
  isInit f = true -> adFwd_columns h fseed = Ok ncol ->
  (length fseed < length (input_ f))%nat ->
  adFwd rule h fseed f = Undefined.
Proof.
  intros Hinit Hcols Hlt. unfold adFwd, adFwd_walk, adFwd_seed_memo, ports.
  rewrite Hinit, Hcols. simpl.
  replace (length (input_ f))
    with (length fseed + S (length (input_ f) - S (length fseed)))%nat by lia.
  rewrite seq_app, forM_app.
  destruct (seed_prefix_ok fseed (length fseed)) as (dw & -> & Hlen); [lia|lia|].
  simpl. unfold adFwd_pass_seed at 1.
  destruct (tape_inputs _ _ Htape (length fseed)) as (slot & Hslot & Hr); [lia|].
  rewrite (vec_get_nat _ _ _ Hslot). simpl.
  unfold vec_get at 1. destruct (Z.ltb_spec (Z.of_nat (length fseed)) 0); [done|].
  rewrite Nat2Z.id, lookup_ge_None_2; [done|lia].
Qed.

End SeedMemo.

Lemma tape_mul_ok : tape_ok heap_mul tape_mul.
Proof.
  split.
  - intros [|[|ind]] Hind; simpl in Hind; try lia; eexists; (split; [reflexivity|simpl; lia]).
  - intros [|[|ind]] Hind; simpl in Hind; try lia; eexists; (split; [reflexivity|simpl; lia]).
  - intros [|[|[|[|el]]]] e He; simpl in He; try discriminate; injection He as <-; simpl;
      (split; [eexists; reflexivity|]); repeat constructor; lia.
Qed.

Lemma adFwd_too_few_seeds_witness :
  tape_ok heap_mul tape_mul
  /\ adFwd sample_adFwd heap_mul [Some 0%nat] tape_mul = Undefined.
Proof.
  split; [exact tape_mul_ok|].
  apply (adFwd_too_few_seeds sample_adFwd heap_mul tape_mul tape_mul_ok [Some 0%nat] 1);
    [reflexivity | reflexivity | simpl; lia].
Defined.

(** ** Symbolic differentiation: what is returned *)

Lemma adFwd_pass_seed_inv f fseed ind dw dw' :
  adFwd_pass_seed f fseed ind dw = Ok dw' ->
  exists slot s, inputv_ind f !! ind = Some slot /\ fseed !! ind = Some s /\ 0 <= slot
    /\ (Z.to_nat slot < length dw)%nat /\ dw' = <[Z.to_nat slot := s]> dw.
Proof.
  intros H. unfold adFwd_pass_seed in H. invert_step H. injection H as <-.
  apply vec_get_inv in Hx, Hx0. apply vec_get_Z_inv in Hx1 as [Hpos Hd].
  exists x, x0. repeat (split; [done|]). split; [|done]. by eapply lookup_lt_Some.
Qed.

(** The slot of an input port holds the port's seed when the seeds have
    been passed, unless a later port is mapped to the same slot. *)
Lemma seed_memo_last f fseed dw i slot s :
  adFwd_seed_memo f fseed = Ok dw ->
  (i < length (input_ f))%nat -> inputv_ind f !! i = Some slot ->
  (forall i', (i < i' < length (input_ f))%nat -> inputv_ind f !! i' <> Some slot) ->
  fseed !! i = Some s -> dw !! Z.to_nat slot = Some s.
Proof.
  intros Hm Hi Hslot Hlast Hs. unfold adFwd_seed_memo, ports in Hm.
  replace (length (input_ f)) with (i + S (length (input_ f) - S i))%nat in Hm by lia.
  rewrite seq_app, forM_app in Hm. apply bind_Ok in Hm as (dw1 & _ & Hm).
  simpl in Hm. apply bind_Ok in Hm as (dw2 & H2 & Hm).
  destruct (adFwd_pass_seed_inv _ _ _ _ _ H2) as (slot' & s' & Hs1 & Hs2 & Hpos & Hlt & ->).
  rewrite Hslot in Hs1. injection Hs1 as <-. rewrite Hs in Hs2. injection Hs2 as <-.
  refine (forM_keeps_in (fun d : list MX => d !! Z.to_nat slot = Some s) _ _ _ _ _ Hm _).
  - intros a d d' Ha Hstep Hd. apply elem_of_seq in Ha.
    destruct (adFwd_pass_seed_inv _ _ _ _ _ Hstep) as (sa & x & Hsa & _ & Hpa & _ & ->).
    rewrite list_lookup_insert_ne; [done|].
    intros Heq. apply (Hlast a); [lia|]. rewrite Hsa. f_equal. lia.
  - by rewrite list_lookup_insert_eq.
Qed.

(** With seeds that are not null, the slot of every input port holds an
    expression when the seeds have been passed. *)
Lemma seed_memo_nonnull f fseed dw :
  adFwd_seed_memo f fseed = Ok dw -> Forall (fun m => m <> None) fseed ->
  forall ind slot, (ind < length (input_ f))%nat -> inputv_ind f !! ind = Some slot ->
    exists s, dw !! Z.to_nat slot = Some (Some s).
Proof.
  intros Hm Hnn ind slot Hind Hslot. unfold adFwd_seed_memo in Hm.
  refine (forM_establish
            (fun i (d : list MX) => forall sl, inputv_ind f !! i = Some sl ->
                                      exists s, d !! Z.to_nat sl = Some (Some s))
            (adFwd_pass_seed f fseed) (ports f) _ _ _ _ Hm ind _ slot Hslot).
  - intros a d d' Hstep sl Hsl.
    destruct (adFwd_pass_seed_inv _ _ _ _ _ Hstep) as (sa & x & Hsa & Hx & _ & Hlt & ->).
    rewrite Hsl in Hsa. injection Hsa as <-.
    destruct x as [p|]; [|by apply (proj1 (Forall_lookup _ _) Hnn) in Hx].
    exists p. by rewrite list_lookup_insert_eq.
  - intros a b d d' Hstep Hb sl Hsl. destruct (Hb sl Hsl) as [s0 Hs0].
    destruct (adFwd_pass_seed_inv _ _ _ _ _ Hstep) as (sa & x & _ & Hx & _ & Hlt & ->).
    destruct (decide (Z.to_nat sa = Z.to_nat sl)) as [Heq|Hne].
    + destruct x as [p|]; [|by apply (proj1 (Forall_lookup _ _) Hnn) in Hx].
      exists p. rewrite Heq in *. by rewrite list_lookup_insert_eq.
    + exists s0. by rewrite list_lookup_insert_ne.
  - unfold ports. rewrite elem_of_seq. lia.
Qed.

Lemma adFwd_collect_lookup f dw ret j slot :
  adFwd_collect f dw = Ok ret -> (j < length (outputv f))%nat ->
  outputv_ind f !! j = Some slot -> ret !! j = dw !! Z.to_nat slot.
Proof.
  intros Hc Hj Hslot. unfold adFwd_collect in Hc. apply mapM_Ok_Forall2 in Hc.
  assert (Hjl : outports f !! j = Some j) by (by apply lookup_seq_lt).
  destruct (Forall2_lookup_l _ _ _ _ _ Hc Hjl) as (d & Hd & Hget).
  rewrite (vec_get_nat _ _ _ Hslot) in Hget. simpl in Hget.
  apply vec_get_Z_inv in Hget as [_ Hget]. congruence.
Qed.

Lemma has_node_not_null h (l : list MX) :
  Forall (has_node h) l -> Forall (fun m => m <> None) l.
Proof. intros H. eapply Forall_impl; [exact H|]. intros m [n Hn] ->. discriminate. Qed.

Lemma tape_ok_app h ext f : tape_ok h f -> tape_ok (h ++ ext) f.
Proof.
  intros [Hi Ho He]. split; [done|done|]. intros el e Hel.
  destruct (He el e Hel) as ([n Hn] & Hch). split; [|done]. exists n. by apply deref_app.
Qed.

Lemma tape_ok_input_nodes h f : tape_ok h f -> has_input_nodes h f.
Proof.
  intros [Hi _ He] ind Hind. destruct (Hi ind Hind) as (slot & Hslot & Hr).
  destruct (mapped_slot_Ok _ _ _ _ Hslot Hr) as (e & Hel & Hm).
  destruct (He _ _ Hel) as ([n Hn] & _). exists n. unfold input_node. by rewrite Hm.
Qed.

Section Returns.
Variable rule : Heap -> MXNode -> list MX -> list MXNode * MX.

(** When [adFwd] completes, with the memo it went through. *)
Lemma adFwd_completes (h : Heap) (f : MXFunctionInternal) (fseed : list MX) :
  isInit f = true -> tape_ok h f ->
  fseed <> [] -> Forall (has_node h) fseed -> ~ columns_differ h fseed ->
  (length (input_ f) <= length fseed)%nat ->
  (forall dw el, adFwd_seed_memo f fseed = Ok dw -> ~ orphan h f dw el) ->
  exists ret ext dw dw',
    adFwd rule h fseed f = Ok (ret, h ++ ext)
    /\ length ret = length (outputv f)
    /\ adFwd_seed_memo f fseed = Ok dw
    /\ (forall j s, dw !! j = Some (Some s) -> dw' !! j = Some (Some s))
    /\ adFwd_collect f dw' = Ok ret.
Proof.
  intros Hinit Htape Hne Hnodes Hcols Hlen Hno.
  destruct (adFwd_columns_cases h fseed Hne Hnodes) as [[Hd _]|[_ [ncol Hc]]]; [done|].
  destruct (adFwd_walk_completes rule h f ncol Htape fseed Hlen Hno) as ([ret h'] & Hw).
  pose proof Hw as Hw'. unfold adFwd_walk in Hw'.
  apply bind_Ok in Hw' as (dw & Hdw & Hw'). apply bind_Ok in Hw' as ([dw' hk] & Hfill & Hw').
  apply bind_Ok in Hw' as (ret' & Hcol & Hw'). simpl in Hcol, Hw'. injection Hw' as -> ->.
  unfold adFwd_fill in Hfill.
  destruct (adFwd_steps_inv _ _ _ _ _ _ _ _ Hfill) as (_ & [ext ->] & _ & Hkeep).
  exists ret, ext, dw, dw'. split; [|split; [|done]].
  - unfold adFwd. rewrite Hinit, Hc. simpl. exact Hw.
  - pose proof Hcol as Hcol'. unfold adFwd_collect in Hcol'. apply mapM_length in Hcol'.
    unfold outports in Hcol'. by rewrite length_seq in Hcol'.
Qed.

(** X24.  What [adFwd] returns.  On an initialised instance with a
    well-formed tape, for seeds that are not null and agree on their
    column count, one for every input port at least, and when no entry
    of the tape is left without a seed, a constant node or a dependency:
    [adFwd] completes; it returns one expression per declared output; the
    nodes it builds are stored past the end of the heap, whose nodes are
    left as they are; and an output that is mapped to the slot of an
    input port gets that port's seed itself, the same handle (the seed of
    the last such port if several are mapped to the slot). *)
Theorem adFwd_returns (h : Heap) (f : MXFunctionInternal) (fseed : list MX) :
  isInit f = true -> tape_ok h f ->
  fseed <> [] -> Forall (has_node h) fseed -> ~ columns_differ h fseed ->
  (length (input_ f) <= length fseed)%nat ->
  (forall dw el, adFwd_seed_memo f fseed = Ok dw -> ~ orphan h f dw el) ->
  exists ret ext,
    adFwd rule h fseed f = Ok (ret, h ++ ext)
    /\ length ret = length (outputv f)
    /\ forall i j slot s,
         (i < length (input_ f))%nat -> (j < length (outputv f))%nat ->
         inputv_ind f !! i = Some slot -> outputv_ind f !! j = Some slot ->
         (forall i', (i < i' < length (input_ f))%nat -> inputv_ind f !! i' <> Some slot) ->
         fseed !! i = Some s -> ret !! j = Some s.
Proof.
  intros Hinit Htape Hne Hnodes Hcols Hlen Hno.
  destruct (adFwd_completes h f fseed Hinit Htape Hne Hnodes Hcols Hlen Hno)
    as (ret & ext & dw & dw' & Hret & Hl & Hdw & Hkeep & Hcol).
  exists ret, ext. split; [done|]. split; [done|].
  intros i j slot s Hi Hj Hsi Hsj Hlast Hs.
  rewrite (adFwd_collect_lookup _ _ _ _ _ Hcol Hj Hsj).
  pose proof (seed_memo_last _ _ _ _ _ _ Hdw Hi Hsi Hlast Hs) as Hmemo.
  destruct s as [p|]; [by apply Hkeep|].
  by apply (proj1 (Forall_lookup _ _) (has_node_not_null _ _ Hnodes)) in Hs.
Qed.

Lemma jac_seeds_ok h f iind :
  has_input_nodes h f -> 0 <= iind < Z.of_nat (length (input_ f)) ->
  exists ncol,
    jac_seeds h iind f
    = Ok ((fun ind => Some (length h + ind)%nat) <$> ports f,
          h ++ ((fun ind => if Z.of_nat ind =? iind then eye_node ncol
                            else zeros_node (input_rows h f ind) ncol) <$> ports f)).
Proof.
  intros Hnodes Hiind. unfold jac_seeds.
  destruct (Hnodes (Z.to_nat iind)) as [n Hn]; [lia|].
  unfold input_node, mapped_slot in Hn. rewrite Z2Nat.id in Hn by lia.
  apply bind_Ok in Hn as (se & Hse & Hn).
  apply bind_Ok in Hse as (slot & Hslot & Hse).
  apply bind_Ok in Hse as (e & He & Hse). injection Hse as <-. simpl in Hn.
  rewrite Hslot. simpl. rewrite He. simpl. unfold MX_size1. rewrite Hn. simpl.
  exists (sp_size1 (sparsity n)). unfold ports.
  by rewrite (jac_seeds_prefix h f iind _ Hnodes).
Qed.

(** X25.  What [jac] returns.  On an initialised instance with a
    well-formed tape every entry of which stands for a constant node,
    has a dependency or is the slot of an input port, and for an input
    index in range: [jac] completes, returns one expression per declared
    output, and stores the nodes it builds past the end of the heap. *)
Theorem jac_returns (h : Heap) (f : MXFunctionInternal) (iind : Z) :
  isInit f = true -> tape_ok h f -> 0 <= iind < Z.of_nat (length (input_ f)) ->
  (forall el e n, alg f !! el = Some e -> deref h (mx e) = Ok n ->
     isConstant n = true \/ ch e <> []
     \/ exists ind, (ind < length (input_ f))%nat /\ inputv_ind f !! ind = Some (Z.of_nat el)) ->
  exists ret ext, jac rule h iind f = Ok (ret, h ++ ext)
                  /\ length ret = length (outputv f).
Proof.
  intros Hinit Htape Hiind Hleaf.
  destruct (jac_seeds_ok h f iind (tape_ok_input_nodes _ _ Htape) Hiind) as (ncol & Hseeds).
  set (fseed := (fun ind => Some (length h + ind)%nat) <$> ports f) in *.
  set (seeds := (fun ind => if Z.of_nat ind =? iind then eye_node ncol
                            else zeros_node (input_rows h f ind) ncol) <$> ports f) in *.
  assert (Hlen : length fseed = length (input_ f)).
  { unfold fseed, ports. by rewrite length_fmap, length_seq. }
  assert (Hseed : forall i m, fseed !! i = Some m ->
            exists n, deref (h ++ seeds) m = Ok n /\ sp_size2 (sparsity n) = ncol).
  { intros i m Hm. unfold fseed, ports in Hm. rewrite list_lookup_fmap in Hm.
    destruct (seq 0 (length (input_ f)) !! i) as [ind|] eqn:Hi; [|discriminate].
    injection Hm as <-. apply lookup_seq in Hi as [-> Hi]. simpl.
    rewrite lookup_app_r by lia. replace (length h + i - length h)%nat with i by lia.
    unfold seeds, ports. rewrite list_lookup_fmap, lookup_seq_lt by done. simpl.
    eexists. split; [done|]. by destruct (Z.of_nat i =? iind). }
  destruct (adFwd_completes (h ++ seeds) f fseed) as (ret & ext & _ & _ & Hret & Hl & _).
  - done.
  - by apply tape_ok_app.
  - intros Hnil. rewrite Hnil in Hlen. simpl in Hlen. lia.
  - apply Forall_lookup. intros i m Hm. destruct (Hseed i m Hm) as (n & Hn & _). by exists n.
  - intros (i & m & m0 & H0 & Hi & Hdiff).
    destruct (Hseed _ _ H0) as (n0 & Hn0 & Hc0), (Hseed _ _ Hi) as (n & Hn & Hc).
    unfold MX_size2 in Hdiff. rewrite Hn0, Hn in Hdiff. simpl in Hdiff. congruence.
  - lia.
  - intros dw el Hdw (e & n' & Hnull & He & Hn' & Hconst & Hch).
    destruct (tape_entries _ _ Htape _ _ He) as ([n Hn] & _).
    rewrite (deref_app _ _ _ _ Hn) in Hn'. injection Hn' as <-.
    destruct (Hleaf _ _ _ He Hn) as [Hc|[Hc|(ind & Hind & Hslot)]]; [congruence|done|].
    destruct (seed_memo_nonnull f fseed dw Hdw) with (ind := ind) (slot := Z.of_nat el)
      as [s Hs]; [|done|done|].
    + apply Forall_lookup. intros i m Hm. destruct (Hseed i m Hm) as (n0 & Hn0 & _).
      intros ->. discriminate.
    + rewrite Nat2Z.id in Hs. congruence.
  - exists ret, (seeds ++ ext). split; [|done].
    unfold jac. rewrite Hinit. simpl. rewrite Hseeds. simpl. by rewrite app_assoc.
Qed.

End Returns.

Lemma tape_const_ok : tape_ok heap_const tape_const.
Proof.
  split.
  - intros [|ind] Hind; simpl in Hind; try lia. eexists. split; [reflexivity|simpl; lia].
  - intros [|ind] Hind; simpl in Hind; try lia. eexists. split; [reflexivity|simpl; lia].
  - intros [|[|[|el]]] e He; simpl in He; try discriminate; injection He as <-; simpl;
      (split; [eexists; reflexivity|]); repeat constructor; lia.
Qed.

Lemma adFwd_column_check_witness :
  (isInit tape_const = true
   /\ Forall (has_node heap_const) [Some 3%nat; Some 0%nat]
   /\ columns_differ heap_const [Some 3%nat; Some 0%nat]
   /\ adFwd sample_adFwd heap_const [Some 3%nat; Some 0%nat] tape_const
      = Throw columns_assertion
   /\ adFwd_columns heap_const [Some 3%nat; Some 0%nat] = Throw columns_assertion)
  /\ (isInit tape_const = true
      /\ Forall (has_node heap_const) [Some 3%nat]
      /\ ~ columns_differ heap_const [Some 3%nat]
      /\ adFwd sample_adFwd heap_const [Some 3%nat] tape_const <> Throw columns_assertion
      /\ exists ncol, adFwd_columns heap_const [Some 3%nat] = Ok ncol
           /\ exists r, adFwd sample_adFwd heap_const [Some 3%nat] tape_const = Ok r).
Proof.
  assert (Hn2 : Forall (has_node heap_const) [Some 3%nat; Some 0%nat]).
  { repeat constructor; eexists; reflexivity. }
  assert (Hn1 : Forall (has_node heap_const) [Some 3%nat]).
  { repeat constructor. eexists. reflexivity. }
  assert (Hd2 : columns_differ heap_const [Some 3%nat; Some 0%nat]).
  { exists 1%nat, (Some 0%nat), (Some 3%nat).
    split; [reflexivity|]. split; [reflexivity|]. vm_compute. discriminate. }
  assert (Hd1 : ~ columns_differ heap_const [Some 3%nat]).
  { intros (i & m & m0 & H0 & Hi & Hne). destruct i as [|i]; [|discriminate]. congruence. }
  split.
  - destruct (adFwd_column_check sample_adFwd heap_const [Some 3%nat; Some 0%nat] tape_const)
      as (Hiff & Hchk & _); [reflexivity | discriminate | exact Hn2 |].
    split; [reflexivity|]. split; [exact Hn2|]. split; [exact Hd2|].
    split; [exact (proj2 Hiff Hd2) | exact (Hchk Hd2)].
  - destruct (adFwd_column_check sample_adFwd heap_const [Some 3%nat] tape_const)
      as (Hiff & _ & Hrun); [reflexivity | discriminate | exact Hn1 |].
    split; [reflexivity|]. split; [exact Hn1|]. split; [exact Hd1|].
    split; [exact (fun H => Hd1 (proj1 Hiff H))|].
    destruct (Hrun Hd1) as (ncol & Hc & Hr). exists ncol. split; [exact Hc|].
    apply Hr; [exact tape_const_ok | simpl; lia |].
    intros dw el Hdw (e & n & Hnull & He & Hn & Hc' & Hch).
    vm_compute in Hdw. injection Hdw as <-.
    destruct el as [|[|[|el]]]; simpl in He, Hnull; try discriminate;
      injection He as <-; simpl in Hn; injection Hn as <-; discriminate.
Defined.

(** ** Symbolic differentiation: constant nodes *)

Lemma adFwd_columns_common h (fseed : list MX) ncol :
  fseed <> [] -> Forall (fun m => MX_size2 h m = Ok ncol) fseed ->
  adFwd_columns h fseed = Ok ncol.
Proof.
  intros Hne Hall.
  assert (Hloop : forall l, Forall (fun m => MX_size2 h m = Ok ncol) l ->
            forM (fun it (_ : unit) =>
                    c <- MX_size2 h it ;; casadi_assert (ncol =? c) columns_message) l tt
            = Ok tt).
  { induction l as [|a l IH]; intros Hl; [done|]. cbn [forM].
    rewrite (Forall_inv Hl). cbn [bind]. rewrite Z.eqb_refl. cbn [casadi_assert bind].
    apply IH. by eapply Forall_inv_tail. }
  unfold adFwd_columns. destruct fseed as [|m0 l]; [done|].
  cbn [head from_option bind]. rewrite (Forall_inv Hall). cbn [bind].
  by rewrite (Hloop _ Hall).
Qed.

Lemma tape_square_ok : tape_ok heap_square tape_square.
Proof.
  split.
  - intros [|ind] Hind; simpl in Hind; try lia. eexists. split; [reflexivity|simpl; lia].
  - intros [|[|ind]] Hind; simpl in Hind; try lia; eexists; (split; [reflexivity|simpl; lia]).
  - intros [|[|[|el]]] e He; simpl in He; try discriminate; injection He as <-; simpl;
      (split; [eexists; reflexivity|]); repeat constructor; lia.
Qed.

Section ConstantNodes.
Variable rule : Heap -> MXNode -> list MX -> list MXNode * MX.

(** C6, as amended.  Let [adFwd] be called on an initialised instance
    with seeds that all have [ncol] columns, and take a slot of the memo
    that is still null when the seeds have been passed and whose entry
    stands for a constant node.  The column count [adFwd] reads is
    [ncol].  When the walk, in ascending order, has passed the entries
    before this one, the turn for it completes and stores in the slot a
    new zero expression with as many rows as the node has elements (its
    rows times its columns, not its row count) and with [ncol] columns.
    When [adFwd] completes, the slot still holds that expression, and
    every output that is mapped to the slot gets it.  And [adFwd] does
    complete if the tape is well formed, there is a seed for every
    declared input and no entry is left without a seed, a constant node
    or a dependency. *)
Theorem adFwd_constant_zero (h : Heap) (f : MXFunctionInternal) (fseed : list MX) (ncol : Z)
  (derwork : list MX) el e n :
  isInit f = true -> fseed <> [] ->
  Forall (fun m => MX_size2 h m = Ok ncol) fseed ->
  adFwd_seed_memo f fseed = Ok derwork -> derwork !! el = Some None ->
  alg f !! el = Some e -> deref h (mx e) = Ok n -> isConstant n = true ->
  let z := zeros_node (sp_numel (sparsity n)) ncol in
  adFwd_columns h fseed = Ok ncol
  /\ sp_size1 (sparsity z) = sp_numel (sparsity n) /\ sp_size2 (sparsity z) = ncol
  /\ (forall dw1 h1,
        forM (adFwd_step rule f ncol) (seq 0 el) (derwork, h) = Ok (dw1, h1) ->
        adFwd_step rule f ncol el (dw1, h1)
        = Ok (<[el := Some (length h1)]> dw1, h1 ++ [z]))
  /\ (forall ret h',
        adFwd rule h fseed f = Ok (ret, h') ->
        exists derwork',
          adFwd_fill rule f ncol derwork h = Ok (derwork', h')
          /\ deref h' (default None (derwork' !! el)) = Ok z
          /\ forall ind, (ind < length (outputv f))%nat ->
               outputv_ind f !! ind = Some (Z.of_nat el) ->
               exists p, ret !! ind = Some p /\ deref h' p = Ok z)
  /\ (tape_ok h f -> (length (input_ f) <= length fseed)%nat ->
      (forall el', ~ orphan h f derwork el') ->
      exists r, adFwd rule h fseed f = Ok r).
Proof.
  intros Hinit Hne Hall Hmemo Hnull He Hn Hc z.
  pose proof (adFwd_columns_common h fseed ncol Hne Hall) as Hcols.
  pose proof (adFwd_constant_turn rule f ncol h derwork el e n Hnull He Hn Hc) as Ht.
  cbv zeta in Ht. destruct Ht as (Hr & Hcz & Hturn & Hend).
  split; [done|]. split; [done|]. split; [done|]. split; [exact Hturn|]. split.
  - intros ret h' Hret. unfold adFwd in Hret. rewrite Hinit, Hcols in Hret.
    cbn [casadi_assert bind] in Hret. unfold adFwd_walk in Hret. rewrite Hmemo in Hret.
    cbn [bind] in Hret. apply bind_Ok in Hret as ([dw' hk] & Hfill & Hret).
    apply bind_Ok in Hret as (ret' & Hcol & Hret). simpl in Hcol, Hret.
    injection Hret as -> ->. exists dw'. split; [done|].
    pose proof (Hend _ _ Hfill) as Hz. split; [done|].
    intros ind Hind Hslot.
    rewrite (adFwd_collect_lookup _ _ _ _ _ Hcol Hind Hslot), Nat2Z.id.
    destruct (dw' !! el) as [p|]; [by exists p | discriminate].
  - intros Htape Hlen Hno.
    assert (Hnodes : Forall (has_node h) fseed).
    { eapply Forall_impl; [exact Hall|]. intros m Hm. unfold MX_size2 in Hm.
      apply bind_Ok in Hm as (n0 & Hn0 & _). by exists n0. }
    destruct (adFwd_completes rule h f fseed) as (ret & ext & _ & _ & Hret & _); try done.
    + intros (i & m & m0 & H0 & Hi & Hdiff).
      rewrite (proj1 (Forall_lookup _ _) Hall _ _ H0),
        (proj1 (Forall_lookup _ _) Hall _ _ Hi) in Hdiff. done.
    + intros dw el' Hdw. rewrite Hmemo in Hdw. injection Hdw as <-. apply Hno.
    + by eexists.
Qed.

End ConstantNodes.

Lemma adFwd_constant_zero_witness :
  isInit tape_square = true
  /\ Forall (fun m => MX_size2 heap_square m = Ok 3) [Some 3%nat]
  /\ adFwd_seed_memo tape_square [Some 3%nat] = Ok [None; Some 3%nat; None]
  /\ mx <$> alg tape_square !! 0%nat = Some (Some 1%nat)
  /\ deref heap_square (Some 1%nat) = Ok (constant_leaf 2 2)
  /\ outputv_ind tape_square !! 1%nat = Some 0
  /\ adFwd_columns heap_square [Some 3%nat] = Ok 3
  /\ exists ret h' p,
       adFwd sample_adFwd heap_square [Some 3%nat] tape_square = Ok (ret, h')
       /\ ret !! 1%nat = Some p /\ deref h' p = Ok (zeros_node 4 3).
Proof.
  assert (Hall : Forall (fun m => MX_size2 heap_square m = Ok 3) [Some 3%nat]).
  { repeat constructor. }
  destruct (adFwd_constant_zero sample_adFwd heap_square tape_square [Some 3%nat] 3
              [None; Some 3%nat; None] 0%nat
              (mkAlgEl (Some 1%nat) (FunctionIO_init (dense 2 2) 1 1) [])
              (constant_leaf 2 2))
    as (Hcols & _ & _ & _ & Hend & Hrun);
    [reflexivity | discriminate | exact Hall | reflexivity | reflexivity | reflexivity
    | reflexivity | reflexivity |].
  split; [reflexivity|]. split; [exact Hall|]. split; [reflexivity|].
  split; [reflexivity|]. split; [reflexivity|]. split; [reflexivity|].
  split; [exact Hcols|].
  destruct Hrun as ([ret h'] & Hret).
  - exact tape_square_ok.
  - simpl. lia.
  - intros el (e & n & Hnull & He & Hn & Hc & Hch).
    destruct el as [|[|[|el]]]; simpl in He, Hnull; try discriminate;
      injection He as <-; simpl in Hn; injection Hn as <-; discriminate.
  - destruct (Hend ret h' Hret) as (dw' & _ & _ & Hout).
    destruct (Hout 1%nat) as (p & Hp & Hz); [simpl; lia | reflexivity |].
    exists ret, h', p. split; [exact Hret|]. split; [exact Hp | exact Hz].
Defined.

(** C6 as the specification words it fails: the constant has two rows
    and two columns, and the expression memoized for it has four rows
    and three columns; its row count is the number of elements of the
    constant, not the row count of the constant. *)
Lemma adFwd_constant_zero_counterexample :
  deref heap_square (Some 1%nat) = Ok (constant_leaf 2 2)
  /\ sp_size1 (sparsity (constant_leaf 2 2)) = 2
  /\ (exists derwork' h',
        adFwd_fill sample_adFwd tape_square 3 [None; Some 3%nat; None] heap_square
        = Ok (derwork', h')
        /\ deref h' (default None (derwork' !! 0%nat)) = Ok (zeros_node 4 3)
        /\ adFwd sample_adFwd heap_square [Some 3%nat] tape_square
           = Ok ([Some 5%nat; Some 4%nat], h')
        /\ deref h' (Some 4%nat) = Ok (zeros_node 4 3))
  /\ sp_size1 (sparsity (zeros_node 4 3)) = 4
  /\ ~ constant_zero_spec sample_adFwd heap_square [Some 3%nat] tape_square 3.
Proof.
  assert (Hfill : exists derwork' h',
            adFwd_fill sample_adFwd tape_square 3 [None; Some 3%nat; None] heap_square
            = Ok (derwork', h')
            /\ deref h' (default None (derwork' !! 0%nat)) = Ok (zeros_node 4 3)
            /\ adFwd sample_adFwd heap_square [Some 3%nat] tape_square
               = Ok ([Some 5%nat; Some 4%nat], h')
            /\ deref h' (Some 4%nat) = Ok (zeros_node 4 3)).
  { eexists _, _. split; [vm_compute; reflexivity|].
    split; [vm_compute; reflexivity|]. split; vm_compute; reflexivity. }
  split; [reflexivity|]. split; [reflexivity|]. split; [exact Hfill|].
  split; [reflexivity|]. intros Hspec.
  destruct Hfill as (dw' & h' & Hf & Hz & _).
  destruct (Hspec [None; Some 3%nat; None] dw' h' 0%nat
              (mkAlgEl (Some 1%nat) (FunctionIO_init (dense 2 2) 1 1) [])
              (constant_leaf 2 2))
    as (z & Hz' & _ & Hrow & _); try reflexivity; [exact Hf|].
  rewrite Hz in Hz'. injection Hz' as <-. vm_compute in Hrow. discriminate.
Qed.

Lemma adFwd_returns_witness :
  exists ret ext,
    adFwd sample_adFwd heap_const [Some 3%nat] tape_const = Ok (ret, heap_const ++ ext)
    /\ length ret = length (outputv tape_const).
Proof.
  destruct (adFwd_returns sample_adFwd heap_const tape_const [Some 3%nat])
    as (ret & ext & Hret & Hlen & _).
  - reflexivity.
  - exact tape_const_ok.
  - discriminate.
  - repeat constructor. eexists. reflexivity.
  - intros (i & m & m0 & H0 & Hi & Hne). destruct i as [|i]; [|discriminate]. congruence.
  - simpl. lia.
  - intros dw el Hdw (e & n & Hnull & He & Hn & Hc & Hch).
    vm_compute in Hdw. injection Hdw as <-.
    destruct el as [|[|[|el]]]; simpl in He, Hnull; try discriminate;
      injection He as <-; simpl in Hn; injection Hn as <-; discriminate.
  - exists ret, ext. split; [exact Hret | exact Hlen].
Defined.

Lemma jac_returns_witness :
  exists ret ext,
    jac sample_adFwd heap_const 0 tape_const = Ok (ret, heap_const ++ ext)
    /\ length ret = length (outputv tape_const).
Proof.
  apply (jac_returns sample_adFwd heap_const tape_const 0).
  - reflexivity.
  - exact tape_const_ok.
  - simpl. lia.
  - intros [|[|[|el]]] e n He Hn; simpl in He; try discriminate; injection He as <-;
      simpl in Hn; injection Hn as <-.
    + right. right. exists 0%nat. split; [simpl; lia | reflexivity].
    + left. reflexivity.
    + right. left. discriminate.
Defined.
